(** * OnionTransfer: the framing protocol of oniontransfer.go

    A shallow embedding of the metadata frame codec ([sendFileInfo],
    [receiveFileInfo]), of the receiver loop ([receiveFileRaw]), of the sender
    ([sendSingleFile], [sendDirectoryRaw], on the host whose separator is
    the slash and on any host) and of the progress tracker
    ([ProgressWriter]), with the properties of the protocol stated over it. *)

From Stdlib Require Import ZArith Lia List DecimalString.
From Stdlib.Strings Require Import Ascii String Byte.
From stdpp Require Import gmap strings list.

Local Open Scope Z_scope.

(** ** Constants (oniontransfer.go, lines 19-25) *)

Definition receiveDir : string := "received".
Definition chunkSize : Z := 32 * 1024.
Definition maxFilenameLen : Z := 255.

(** ** Errors

    Go compares errors by identity ([err == io.EOF]) and inspects their text
    ([err.Error()]); both are kept. [ErrMsg] stands for any other error value
    (an error of the network or of the file system, or one built by
    [fmt.Errorf] without [%w]); [Wrap] is [fmt.Errorf("<msg>: %w", err)]. *)

Inductive error : Type :=
| EOF
| ErrUnexpectedEOF
| ErrMsg (msg : string)
| Wrap (msg : string) (e : error).

Fixpoint Error (e : error) : string :=
  match e with
  | EOF => "EOF"
  | ErrUnexpectedEOF => "unexpected EOF"
  | ErrMsg msg => msg
  | Wrap msg e' => msg +:+ ": " +:+ Error e'
  end.

Definition is_EOF (e : error) : bool :=
  match e with EOF => true | _ => false end.

Definition is_ErrUnexpectedEOF (e : error) : bool :=
  match e with ErrUnexpectedEOF => true | _ => false end.

(** [strings.Contains]. *)
Fixpoint Contains (s substr : string) : bool :=
  String.prefix substr s
  || match s with
     | EmptyString => false
     | String _ s' => Contains s' substr
     end.

(** The [%d] verb of [fmt] on an unsigned value. *)
Definition fmt_d (n : Z) : string :=
  NilZero.string_of_uint (N.to_uint (Z.to_N n)).

(** ** Big-endian integers ([encoding/binary], [binary.BigEndian]) *)

Definition byte_of_Z (z : Z) : byte :=
  match Byte.of_N (Z.to_N (z mod 256)) with
  | Some b => b
  | None => x00
  end.

Definition Z_of_byte (b : byte) : Z := Z.of_N (Byte.to_N b).

(** The [n] low-order bytes of [v], most significant first. *)
Fixpoint be_bytes (n : nat) (v : Z) : list byte :=
  match n with
  | O => []
  | S n' => be_bytes n' (Z.shiftr v 8) ++ [byte_of_Z v]
  end.

Definition be_value (bs : list byte) : Z :=
  fold_left (fun acc b => Z.lor (Z.shiftl acc 8) (Z_of_byte b)) bs 0.

(** Conversions between the integer types of the frame. *)
Definition to_uint32 (z : Z) : Z := z mod 2 ^ 32.
Definition to_uint64 (z : Z) : Z := z mod 2 ^ 64.
Definition to_int64 (z : Z) : Z :=
  let u := z mod 2 ^ 64 in if u <? 2 ^ 63 then u else u - 2 ^ 64.

Definition int64_range (z : Z) : Prop := - 2 ^ 63 <= z < 2 ^ 63.

(** ** FileInfo (lines 33-37) *)

Record FileInfo : Type := mkFileInfo {
  Filename : string;
  FileSize : Z;
  IsDirectory : bool
}.

(** ** The connection, sending side

    [sent] is what has reached the wire; [room] is the number of bytes the
    peer still accepts before a write fails with [werr]. A failing write leaves
    the bytes that fitted on the wire: there is no rollback. *)

Record WConn : Type := mkWConn {
  sent : list byte;
  room : nat;
  werr : error
}.

Definition conn_Write (c : WConn) (p : list byte) : option error * WConn :=
  if (length p <=? room c)%nat
  then (None, mkWConn (sent c ++ p) (room c - length p) (werr c))
  else (Some (werr c), mkWConn (sent c ++ take (room c) p) 0 (werr c)).

(** [binary.Write(conn, binary.BigEndian, v)] for a value of [n] bytes. *)
Definition binary_Write (c : WConn) (n : nat) (v : Z) : option error * WConn :=
  conn_Write c (be_bytes n v).

(** ** sendFileInfo (lines 163-191) *)

Definition sendFileInfo (conn : WConn) (fi : FileInfo) : option error * WConn :=
  let filenameBytes := list_byte_of_string (Filename fi) in
  let filenameLen := to_uint32 (Z.of_nat (length filenameBytes)) in
  match binary_Write conn 4 filenameLen with
  | (Some err, conn) => (Some err, conn)
  | (None, conn) =>
    match conn_Write conn filenameBytes with
    | (Some err, conn) => (Some err, conn)
    | (None, conn) =>
      match binary_Write conn 8 (to_uint64 (FileSize fi)) with
      | (Some err, conn) => (Some err, conn)
      | (None, conn) =>
        let isDir := if IsDirectory fi then x01 else x00 in
        match conn_Write conn [isDir] with
        | (Some err, conn) => (Some err, conn)
        | (None, conn) => (None, conn)
        end
      end
    end
  end.

(** The bytes of one metadata frame, as [sendFileInfo] lays them out. *)
Definition frame_bytes (fi : FileInfo) : list byte :=
  be_bytes 4 (to_uint32 (Z.of_nat (String.length (Filename fi))))
  ++ list_byte_of_string (Filename fi)
  ++ be_bytes 8 (to_uint64 (FileSize fi))
  ++ [if IsDirectory fi then x01 else x00].

(** ** The connection, receiving side

    [pending] is the input that will still arrive; once it is used up every
    read reports [closing]: [EOF] when the peer closed the stream, another
    error when the connection broke (a reset, say). *)

Record Conn : Type := mkConn {
  pending : list byte;
  closing : error
}.

(** [io.ReadFull(conn, buf)] with [len(buf) = k]: the bytes read and the
    error. As in [io.ReadAtLeast], an [EOF] met after some bytes becomes
    [ErrUnexpectedEOF], and a read of no bytes at all succeeds. *)
Definition ReadFull (conn : Conn) (k : nat) : list byte * option error * Conn :=
  if (k <=? length (pending conn))%nat
  then (take k (pending conn), None,
        mkConn (drop k (pending conn)) (closing conn))
  else
    let got := pending conn in
    let err :=
      match got with
      | [] => closing conn
      | _ :: _ => if is_EOF (closing conn) then ErrUnexpectedEOF
                  else closing conn
      end in
    (got, Some err, mkConn [] (closing conn)).

(** [binary.Read(conn, binary.BigEndian, &v)] for an unsigned value of [n]
    bytes. *)
Definition binary_Read (conn : Conn) (n : nat) : (error + Z) * Conn :=
  match ReadFull conn n with
  | (_, Some err, conn) => (inl err, conn)
  | (bs, None, conn) => (inr (be_value bs), conn)
  end.

(** ** receiveFileInfo (lines 194-231) *)

(** [fmt.Errorf("filename too long: %d bytes", filenameLen)]. *)
Definition filename_too_long (filenameLen : Z) : error :=
  ErrMsg ("filename too long: " +:+ fmt_d filenameLen +:+ " bytes").

Definition receiveFileInfo (conn : Conn) : (error + FileInfo) * Conn :=
  match binary_Read conn 4 with
  | (inl err, conn) => (inl err, conn)
  | (inr filenameLen, conn) =>
    if maxFilenameLen <? filenameLen
    then (inl (filename_too_long filenameLen), conn)
    else
      match ReadFull conn (Z.to_nat filenameLen) with
      | (_, Some err, conn) => (inl err, conn)
      | (filenameBytes, None, conn) =>
        let filename := string_of_list_byte filenameBytes in
        match binary_Read conn 8 with
        | (inl err, conn) => (inl err, conn)
        | (inr u, conn) =>
          let fileSize := to_int64 u in
          match ReadFull conn 1 with
          | (_, Some err, conn) => (inl err, conn)
          | (dirFlag, None, conn) =>
            let isDirectory :=
              match dirFlag with
              | b :: _ => Byte.eqb b x01
              | [] => false
              end in
            (inr (mkFileInfo filename fileSize isDirectory), conn)
          end
        end
      end
  end.

(** ** Paths ([path/filepath] on a host whose separator is the slash)

    The functions of Go's library that the program calls, after the
    behaviour the library documents, written over the elements of a path.
    On such a host there are no volume names and no other separator. *)

Definition Separator : ascii := "/"%char.

Definition is_sep (c : ascii) : bool := Ascii.eqb c Separator.

(** The elements of [s] between separators: an empty one before a leading
    separator, after a trailing one and between two that touch. *)
Fixpoint split_path (s : string) : list string :=
  match s with
  | EmptyString => [EmptyString]
  | String c s' =>
    if is_sep c then EmptyString :: split_path s'
    else match split_path s' with
         | [] => [String c EmptyString]
         | e :: es => String c e :: es
         end
  end.

(** [strings.Join(elems, "/")]. *)
Fixpoint join_path (elems : list string) : string :=
  match elems with
  | [] => EmptyString
  | [e] => e
  | e :: es => e +:+ "/" +:+ join_path es
  end.

(** Whether the path starts at the root. *)
Definition rooted (path : string) : bool :=
  match path with
  | String c _ => is_sep c
  | EmptyString => false
  end.

Definition IsAbs (path : string) : bool := rooted path.

(** The lexical processing of [Clean]: [stack] holds the elements kept so far,
    last one first. Empty elements and [.] are dropped, [..] removes the
    element before it when there is one that is not [..], is dropped at the
    root, and is kept otherwise. *)
Fixpoint clean_elems (isRooted : bool) (stack elems : list string)
  : list string :=
  match elems with
  | [] => rev stack
  | e :: es =>
    if String.eqb e EmptyString || String.eqb e "."
    then clean_elems isRooted stack es
    else if String.eqb e ".." then
      match stack with
      | top :: below =>
        if String.eqb top ".." then clean_elems isRooted (e :: stack) es
        else clean_elems isRooted below es
      | [] =>
        if isRooted then clean_elems isRooted [] es
        else clean_elems isRooted [e] es
      end
    else clean_elems isRooted (e :: stack) es
  end.

(** [filepath.Clean]: the shortest path equivalent to [path]; [.] for the
    empty one. *)
Definition Clean (path : string) : string :=
  let out := clean_elems (rooted path) [] (split_path path) in
  if rooted path then "/" +:+ join_path out
  else match out with
       | [] => "."
       | _ :: _ => join_path out
       end.

(** [filepath.Join]: leading empty elements are ignored, the rest is joined
    with the separator and cleaned; the result is empty when all are empty. *)
Fixpoint Join (elem : list string) : string :=
  match elem with
  | [] => EmptyString
  | e :: es =>
    if String.eqb e EmptyString then Join es else Clean (join_path elem)
  end.

(** [filepath.Base]: the last element, trailing separators removed first. *)
Definition Base (path : string) : string :=
  if String.eqb path EmptyString then "."
  else
    let elems :=
      List.filter (fun e => negb (String.eqb e EmptyString)) (split_path path) in
    match last elems with
    | Some e => e
    | None => "/"
    end.

Fixpoint has_sep (s : string) : bool :=
  match s with
  | EmptyString => false
  | String c s' => is_sep c || has_sep s'
  end.

(** [path[:i+1]] for the last separator [path[i]]. *)
Fixpoint upto_last_sep (s : string) : string :=
  match s with
  | EmptyString => EmptyString
  | String c s' =>
    if has_sep s then String c (upto_last_sep s') else EmptyString
  end.

(** [filepath.Dir]. *)
Definition Dir (path : string) : string := Clean (upto_last_sep path).

Fixpoint replace_char (old new : ascii) (s : string) : string :=
  match s with
  | EmptyString => EmptyString
  | String c s' =>
    String (if Ascii.eqb c old then new else c) (replace_char old new s')
  end.

(** [filepath.ToSlash] and [filepath.FromSlash]: the identity where the
    separator is the slash. *)
Definition ToSlash (path : string) : string :=
  if Ascii.eqb Separator "/" then path else replace_char Separator "/" path.

Definition FromSlash (path : string) : string :=
  if Ascii.eqb Separator "/" then path else replace_char "/" Separator path.

(** The elements [Rel] walks over: those of [split_path], a final empty one
    (after a trailing separator, or of the empty path) left out. *)
Definition rel_elems (s : string) : list string :=
  let es := split_path s in
  match last es with
  | Some EmptyString => removelast es
  | _ => es
  end.

(** Base and target from their first differing elements on. *)
Fixpoint strip_common (bs ts : list string) : list string * list string :=
  match bs, ts with
  | b :: bs', t :: ts' =>
    if String.eqb b t then strip_common bs' ts' else (bs, ts)
  | _, _ => (bs, ts)
  end.

(** [filepath.Rel]. *)
Definition Rel (basepath targpath : string) : error + string :=
  let base := Clean basepath in
  let targ := Clean targpath in
  if String.eqb targ base then inr "."
  else
    let base := if String.eqb base "." then EmptyString else base in
    if negb (Bool.eqb (rooted base) (rooted targ))
    then inl (ErrMsg ("Rel: can't make " +:+ targpath +:+ " relative to "
                      +:+ basepath))
    else
      match strip_common (rel_elems base) (rel_elems targ) with
      | (".." :: _, _ :: _) =>
        inl (ErrMsg ("Rel: can't make " +:+ targpath +:+ " relative to "
                     +:+ basepath))
      | ([], ts) => inr (join_path ts)
      | (bs, ts) => inr (join_path (map (fun _ => "..") bs ++ ts))
      end.

(** ** The file system of the receiving host

    A map from cleaned paths to what is there. The directories [.], [/] and
    those reached by [..] alone always exist. No entry has a path that holds
    a NUL byte: the system calls refuse such a path ([EINVAL]). *)

Inductive entry : Type :=
| EDir
| EFile (content : list byte).

Definition implicit_dir (path : string) : bool :=
  String.eqb path "." || String.eqb path "/"
  || forallb (fun e => String.eqb e "..") (split_path path).

Definition stat (disk : gmap string entry) (path : string) : option entry :=
  if implicit_dir path then Some EDir else disk !! path.

(** Whether the path holds a NUL byte. *)
Fixpoint has_nul (s : string) : bool :=
  match s with
  | EmptyString => false
  | String c s' => Ascii.eqb c "000" || has_nul s'
  end.

(** The path itself and the directories above it, outermost first. *)
Fixpoint prefixes_from (acc : string) (elems : list string) : list string :=
  match elems with
  | [] => []
  | e :: es =>
    let p := if String.eqb acc EmptyString then e else acc +:+ "/" +:+ e in
    p :: prefixes_from p es
  end.

Definition ancestors (path : string) : list string :=
  let elems :=
    List.filter (fun e => negb (String.eqb e EmptyString)) (split_path path) in
  if rooted path
  then map (fun p => "/" +:+ p) (prefixes_from EmptyString elems)
  else prefixes_from EmptyString elems.

(** The directories are made one after the other, outermost first: one that
    is there is left as it is, a file in the place of one ends the chain, and
    so does a path that cannot be made. The directories made before that
    stay. *)
Fixpoint mkdir_chain (disk : gmap string entry) (dirs : list string)
  : option error * gmap string entry :=
  match dirs with
  | [] => (None, disk)
  | d :: ds =>
    match stat disk d with
    | Some EDir => mkdir_chain disk ds
    | Some (EFile _) =>
      (Some (ErrMsg ("mkdir " +:+ d +:+ ": not a directory")), disk)
    | None =>
      if has_nul d
      then (Some (ErrMsg ("mkdir " +:+ d +:+ ": invalid argument")), disk)
      else mkdir_chain (<[d := EDir]> disk) ds
    end
  end.

(** [os.MkdirAll]: creates the directory and every missing parent; fails
    when one of them is a file, and at the first of them whose path holds a
    NUL byte. The result is the error, if any, and the disk as it is left. *)
Definition os_MkdirAll (disk : gmap string entry) (path : string)
  : option error * gmap string entry :=
  mkdir_chain disk (ancestors path).

(** [os.Create]: creates the file or truncates it; fails on a directory, on
    a path that holds a NUL byte, and where the parent is missing or is a
    file. *)
Definition os_Create (disk : gmap string entry) (name : string)
  : error + gmap string entry :=
  match stat disk name with
  | Some EDir => inl (ErrMsg ("open " +:+ name +:+ ": is a directory"))
  | _ =>
    if has_nul name
    then inl (ErrMsg ("open " +:+ name +:+ ": invalid argument"))
    else
      match stat disk (Dir name) with
      | Some EDir => inr (<[name := EFile []]> disk)
      | Some (EFile _) => inl (ErrMsg ("open " +:+ name +:+ ": not a directory"))
      | None => inl (ErrMsg ("open " +:+ name +:+ ": no such file or directory"))
      end
  end.

(** [file.Write] on the file created at [name]: the bytes are appended.
    Writing to the disk does not fail here. *)
Definition file_Write (disk : gmap string entry) (name : string) (p : list byte)
  : gmap string entry :=
  match disk !! name with
  | Some (EFile content) => <[name := EFile (content ++ p)]> disk
  | _ => disk
  end.

(** ** ProgressWriter (lines 40-134)

    [startTime] is left to the clock: [printProgress] receives the elapsed
    milliseconds of the moment it is called. *)

Record ProgressWriter : Type := mkProgressWriter {
  total : Z;
  current : Z;
  lastPrint : Z;
  filename : string
}.

Definition NewProgressWriter (total : Z) (filename : string) : ProgressWriter :=
  mkProgressWriter total 0 0 filename.

Definition set_current (pw : ProgressWriter) (v : Z) : ProgressWriter :=
  mkProgressWriter (total pw) v (lastPrint pw) (filename pw).

(** [printProgress] (lines 66-112): nothing changes while the update is
    throttled; otherwise [current] is capped at a positive [total] and
    [lastPrint] follows it. *)
Definition printProgress (elapsedMs : Z) (pw : ProgressWriter) : ProgressWriter :=
  if (to_int64 (current pw - lastPrint pw) <? 1024)
     && negb (elapsedMs mod 100 =? 0)
  then pw
  else
    let pw :=
      if (0 <? total pw) && (total pw <=? current pw)
      then set_current pw (total pw) else pw in
    mkProgressWriter (total pw) (current pw) (current pw) (filename pw).

(** [Finalize] (lines 115-134). *)
Definition Finalize (pw : ProgressWriter) : ProgressWriter :=
  if 0 <? total pw then set_current pw (total pw) else pw.

(** ** The receiver (lines 388-485) *)

(** [err != nil && err != io.EOF && err != io.ErrUnexpectedEOF] (line 455):
    the error the content loop returns, if any. *)
Definition read_failed (err : option error) : option error :=
  match err with
  | Some e => if negb (is_EOF e) && negb (is_ErrUnexpectedEOF e)
              then Some e else None
  | None => None
  end.

(** The test of lines 395-397: the errors of [receiveFileInfo] taken for the
    end of the connection. *)
Definition is_termination (err : error) : bool :=
  is_EOF err
  || Contains (Error err) "closed"
  || Contains (Error err) "reset"
  || Contains (Error err) "unexpected EOF".

(** How one turn of a loop ends: the function returns, or the loop goes on. *)
Inductive outcome : Type :=
| Return (err : option error)
| Continue.

Section Transfer.

(** The clock: [elapsed k] is [elapsed.Milliseconds()] at the moment of the
    call of [printProgress] that follows [k] earlier ones. *)
Variable elapsed : nat -> Z.

(** The working directory of the sending process ([os.Getwd]). *)
Variable cwd : string.

(** The global [progressWriter] (line 28), with the history of the values of
    [current] at the calls of [printProgress]. *)
Record Globals : Type := mkGlobals {
  progressWriter : ProgressWriter;
  observed : list Z
}.

(** [progressWriter.current = v; progressWriter.printProgress()]. *)
Definition observe (v : Z) (g : Globals) : Globals :=
  mkGlobals
    (printProgress (elapsed (length (observed g)))
                   (set_current (progressWriter g) v))
    (observed g ++ [v]).

Definition set_progressWriter (pw : ProgressWriter) (g : Globals) : Globals :=
  mkGlobals pw (observed g).

(** The state of one connection on the receiving host: the stream, the disk
    and the globals. *)
Record Receiver : Type := mkReceiver {
  conn : Conn;
  disk : gmap string entry;
  rglobals : Globals
}.

Definition set_conn (c : Conn) (st : Receiver) : Receiver :=
  mkReceiver c (disk st) (rglobals st).

Definition set_disk (d : gmap string entry) (st : Receiver) : Receiver :=
  mkReceiver (conn st) d (rglobals st).

Definition set_rglobals (g : Globals) (st : Receiver) : Receiver :=
  mkReceiver (conn st) (disk st) g.

(** The content loop (lines 445-473). [None]: the loop is still running when
    [fuel] turns are over. [Return]: the function returns from inside the
    loop. [Continue]: the loop is left and the function goes on. *)
Fixpoint receiveContent (fuel : nat) (fi : FileInfo) (fullPath : string)
    (totalReceived : Z) (st : Receiver) : option (outcome * Receiver) :=
  match fuel with
  | O => None
  | S fuel' =>
    if totalReceived <? FileSize fi then
      let remaining := FileSize fi - totalReceived in
      let readSize := if remaining <? chunkSize then remaining else chunkSize in
      match ReadFull (conn st) (Z.to_nat readSize) with
      | (chunk, err, conn') =>
        let st := set_conn conn' st in
        match read_failed err with
        | Some e => Some (Return (Some e), st)
        | None =>
          let st := set_disk (file_Write (disk st) fullPath chunk) st in
          let totalReceived := totalReceived + Z.of_nat (length chunk) in
          let st := set_rglobals (observe totalReceived (rglobals st)) st in
          if FileSize fi <=? totalReceived then Some (Continue, st)
          else receiveContent fuel' fi fullPath totalReceived st
        end
      end
    else Some (Continue, st)
  end.

(** One turn of the loop of [receiveFileRaw] (lines 391-484): one frame and,
    for a file, its content. *)
Definition receiveItem (fuel : nat) (st : Receiver) : option (outcome * Receiver) :=
  match receiveFileInfo (conn st) with
  | (inl err, conn') =>
    let st := set_conn conn' st in
    if is_termination err then Some (Return None, st)
    else Some (Return (Some (Wrap "failed to receive file info" err)), st)
  | (inr fi, conn') =>
    let st := set_conn conn' st in
    match os_MkdirAll (disk st) receiveDir with
    | (Some err, d) =>
      Some (Return (Some (Wrap "cannot create directory" err)), set_disk d st)
    | (None, d) =>
      let st := set_disk d st in
      let normalizedPath := FromSlash (Filename fi) in
      let fullPath := Join [receiveDir; normalizedPath] in
      if IsDirectory fi then
        match os_MkdirAll (disk st) fullPath with
        | (Some err, d) =>
          Some (Return (Some (Wrap "cannot create directory" err)), set_disk d st)
        | (None, d) => Some (Continue, set_disk d st)
        end
      else
        let parentDir := Dir fullPath in
        match
          (if negb (String.eqb parentDir ".")
              && negb (String.eqb parentDir receiveDir)
           then os_MkdirAll (disk st) parentDir else (None, disk st))
        with
        | (Some err, d) =>
          Some (Return (Some (Wrap "cannot create parent directory" err)),
                set_disk d st)
        | (None, d) =>
          let st := set_disk d st in
          match os_Create (disk st) fullPath with
          | inl err => Some (Return (Some (Wrap "cannot create file" err)), st)
          | inr d =>
            let st := set_disk d st in
            let pw := NewProgressWriter (FileSize fi) (Base (Filename fi)) in
            let st := set_rglobals (set_progressWriter pw (rglobals st)) st in
            match receiveContent fuel fi fullPath 0 st with
            | None => None
            | Some (Return err, st) => Some (Return err, st)
            | Some (Continue, st) =>
              let g := observe (FileSize fi) (rglobals st) in
              let g := set_progressWriter (Finalize (progressWriter g)) g in
              Some (Continue, set_rglobals g st)
            end
          end
        end
    end
  end.

(** [receiveFileRaw]: frames are received until one turn returns. The result
    is the error returned ([None] for [nil]) and the final state; [None] when
    the function is still running after [fuel] turns of its loops. *)
Fixpoint receiveFileRaw (fuel : nat) (st : Receiver)
  : option (option error * Receiver) :=
  match fuel with
  | O => None
  | S fuel' =>
    match receiveItem fuel' st with
    | None => None
    | Some (Return err, st) => Some (err, st)
    | Some (Continue, st) => receiveFileRaw fuel' st
    end
  end.

(** ** The sender (lines 233-385) *)

(** What the sending host holds at a path: a file with its bytes, or a
    directory with its entries as [filepath.Walk] lists them. Nothing writes
    to a file of the tree while it is sent: its size is the number of its
    bytes. *)
Inductive node : Type :=
| RegFile (content : list byte)
| Directory (entries : list (string * node)).

(** The state of the sending process: the connection, the descriptors handed
    to [sendFileInfo] so far, and the globals. *)
Record Sender : Type := mkSender {
  out : WConn;
  emitted : list FileInfo;
  sglobals : Globals
}.

Definition set_out (c : WConn) (st : Sender) : Sender :=
  mkSender c (emitted st) (sglobals st).

Definition set_sglobals (g : Globals) (st : Sender) : Sender :=
  mkSender (out st) (emitted st) g.

(** A call [sendFileInfo(conn, fi)] made by the sender. *)
Definition emit (fi : FileInfo) (st : Sender) : option error * Sender :=
  let (err, c) := sendFileInfo (out st) fi in
  (err, mkSender c (emitted st ++ [fi]) (sglobals st)).

(** The loop of lines 267-288 over the bytes [file] not read yet. [file.Read]
    reads [n] bytes, as many as the buffer holds or as are left, and reports
    the end of the file by reading none. Every turn but the last consumes a
    byte at least: [S (length file)] turns of [fuel] are enough. *)
Fixpoint sendChunks (fuel : nat) (file : list byte) (totalSent : Z) (st : Sender)
  : outcome * Sender :=
  match fuel with
  | O => (Continue, st)
  | S fuel' =>
    let n := Z.min chunkSize (Z.of_nat (length file)) in
    let buffer := take (Z.to_nat n) file in
    if n =? 0 then (Continue, st)
    else
      match conn_Write (out st) buffer with
      | (Some err, c) => (Return (Some err), set_out c st)
      | (None, c) =>
        let st := set_out c st in
        let totalSent := totalSent + n in
        let st := set_sglobals (observe totalSent (sglobals st)) st in
        sendChunks fuel' (drop (Z.to_nat n) file) totalSent st
      end
  end.

(** The deferred [progressWriter.Finalize()] of line 259. *)
Definition finalize (st : Sender) : Sender :=
  let g := sglobals st in
  set_sglobals (set_progressWriter (Finalize (progressWriter g)) g) st.

(** [sendSingleFile] (lines 234-294), for a file that opens at [filePath]:
    [size] is what [file.Stat] reports (line 249) and [file] are the bytes
    the reads deliver (line 268), which are that many unless the file is
    written to in between. *)
Definition sendSingleFile (st : Sender) (size : Z) (file : list byte)
    (filename : string) : option error * Sender :=
  let fi := mkFileInfo filename size false in
  match emit fi st with
  | (Some err, st) => (Some (Wrap "failed to send file info" err), st)
  | (None, st) =>
    let pw := NewProgressWriter (FileSize fi) (Base filename) in
    let st := set_sglobals (set_progressWriter pw (sglobals st)) st in
    match sendChunks (S (length file)) file 0 st with
    | (Return err, st) => (err, finalize st)
    | (Continue, st) =>
      let st := set_sglobals (observe (FileSize fi) (sglobals st)) st in
      (None, finalize st)
    end
  end.

(** [filepath.Abs]. *)
Definition Abs (path : string) : string :=
  if IsAbs path then Clean path else Join [cwd; path].

(** The function [sendDirectoryRaw] hands to [filepath.Walk] (lines 318-368). *)
Definition walkFn (dirPath absDirPath : string) (path : string) (info : node)
    (st : Sender) : option error * Sender :=
  if String.eqb path dirPath then (None, st)
  else
    let absPath := Abs path in
    match Rel absDirPath absPath with
    | inl err => (Some err, st)
    | inr relPath =>
      let baseName := Base absDirPath in
      let fullRelPath := Join [baseName; relPath] in
      let fullRelPath := ToSlash fullRelPath in
      match info with
      | Directory _ =>
        let subDirInfo := mkFileInfo fullRelPath 0 true in
        match emit subDirInfo st with
        | (Some err, st) =>
          (Some (Wrap "failed to send subdirectory info" err), st)
        | (None, st) => (None, st)
        end
      | RegFile file =>
        match sendSingleFile st (Z.of_nat (length file)) file fullRelPath with
        | (Some err, st) =>
          (Some (Wrap ("failed to send file " +:+ path) err), st)
        | (None, st) => (None, st)
        end
      end
    end.

(** [filepath.Walk]: the function is called on the path, then on what the
    directory holds, entry by entry; the first error ends the walk. *)
Fixpoint walk (fn : string -> node -> Sender -> option error * Sender)
    (path : string) (info : node) (st : Sender) : option error * Sender :=
  match info with
  | RegFile _ => fn path info st
  | Directory entries =>
    match fn path info st with
    | (Some err, st) => (Some err, st)
    | (None, st) =>
      (fix names (entries : list (string * node)) (st : Sender) :=
         match entries with
         | [] => (None, st)
         | (name, child) :: entries' =>
           match walk fn (Join [path; name]) child st with
           | (Some err, st) => (Some err, st)
           | (None, st) => names entries' st
           end
         end) entries st
    end
  end.

(** [sendDirectoryRaw] (lines 297-369) on the directory found at [dirPath]. *)
Definition sendDirectoryRaw (st : Sender) (dirPath : string)
    (entries : list (string * node)) : option error * Sender :=
  let absDirPath := Abs dirPath in
  let rootDirInfo := mkFileInfo (Base dirPath) 0 true in
  match emit rootDirInfo st with
  | (Some err, st) => (Some (Wrap "failed to send root directory info" err), st)
  | (None, st) => walk (walkFn dirPath absDirPath) dirPath (Directory entries) st
  end.

(** [sendFileRaw] (lines 372-385) on what [os.Stat] finds at [filePath]. *)
Definition sendFileRaw (st : Sender) (filePath : string) (info : node)
  : option error * Sender :=
  match info with
  | Directory entries => sendDirectoryRaw st filePath entries
  | RegFile file =>
    sendSingleFile st (Z.of_nat (length file)) file (Base filePath)
  end.

End Transfer.

(** * Vocabulary of the statements *)

(** ** The text of errors *)

(** Whether the character occurs in the string. *)
Fixpoint occurs (c : ascii) (s : string) : bool :=
  match s with
  | EmptyString => false
  | String c' s' => Ascii.eqb c c' || occurs c s'
  end.

Definition is_digit (c : ascii) : bool :=
  (48 <=? nat_of_ascii c)%nat && (nat_of_ascii c <=? 57)%nat.

(** ** The receiver and its disk *)

(** Where the receiver puts the item called [name] (lines 410-411). *)
Definition target_path (name : string) : string :=
  Join [receiveDir; FromSlash name].

(** What lines 404-436 do to the disk for a file called [name]: the receive
    directory and the parent are made, and the file is created. *)
Definition create_target (d : gmap string entry) (name : string)
  : error + gmap string entry :=
  match os_MkdirAll d receiveDir with
  | (Some err, _) => inl err
  | (None, d) =>
    let parentDir := Dir (target_path name) in
    match
      (if negb (String.eqb parentDir ".")
          && negb (String.eqb parentDir receiveDir)
       then os_MkdirAll d parentDir else (None, d))
    with
    | (Some err, _) => inl err
    | (None, d) => os_Create d (target_path name)
    end
  end.

(** Whether a cleaned path lies in the receive directory. *)
Definition inside_root (path : string) : bool :=
  String.eqb path receiveDir || String.prefix (receiveDir +:+ "/") path.

(** Two runs agree on what they return, on the stream and on the disk. *)
Definition same_transfer {A : Type} (r1 r2 : option (A * Receiver)) : Prop :=
  match r1, r2 with
  | None, None => True
  | Some (a1, s1), Some (a2, s2) =>
    a1 = a2 /\ conn s1 = conn s2 /\ disk s1 = disk s2
  | _, _ => False
  end.

(** ** Progress *)

(** A sequence of observed values that never goes down. *)
Fixpoint non_decreasing (l : list Z) : Prop :=
  match l with
  | [] => True
  | a :: l' =>
    match l' with
    | [] => True
    | b :: _ => a <= b /\ non_decreasing l'
    end
  end.


(** ** The tree the sender walks *)

(** The path [filepath.Walk] builds for what lies [rel] below [root]. *)
Definition walk_path (root : string) (rel : list string) : string :=
  fold_left (fun path name => Join [path; name]) rel root.

(** A node and all that lies below it, in the order of the walk, each with
    the names that lead to it from the root of the walk. *)
Fixpoint descendants (rel : list string) (info : node)
  : list (list string * node) :=
  (rel, info) ::
  match info with
  | RegFile _ => []
  | Directory entries =>
    (fix below (entries : list (string * node)) : list (list string * node) :=
       match entries with
       | [] => []
       | (name, child) :: entries' =>
         descendants (rel ++ [name]) child ++ below entries'
       end) entries
  end.

(** A descendant with the path the walk gives it. *)
Definition located (root : string) (d : list string * node) : string * node :=
  (walk_path root (fst d), snd d).

(** A function applied along a list of visits, up to the first error. *)
Fixpoint visit_all (fn : string -> node -> Sender -> option error * Sender)
    (visits : list (string * node)) (st : Sender) : option error * Sender :=
  match visits with
  | [] => (None, st)
  | (path, info) :: visits' =>
    match fn path info st with
    | (Some err, st) => (Some err, st)
    | (None, st) => visit_all fn visits' st
    end
  end.

(** The descriptor sent for a node under a given name. *)
Definition descriptor_of (name : string) (info : node) : FileInfo :=
  match info with
  | RegFile file => mkFileInfo name (Z.of_nat (length file)) false
  | Directory _ => mkFileInfo name 0 true
  end.

(** A directory descriptor carries no size. *)
Definition dir_size_zero (fi : FileInfo) : Prop :=
  IsDirectory fi = true -> FileSize fi = 0.

(** The name under which [sendDirectoryRaw] sends what lies [rel] below the
    directory (lines 342-346). *)
Definition wire_name (cwd dirPath : string) (rel : list string) : string :=
  ToSlash (Join [Base (Abs cwd dirPath); join_path rel]).

(** ** Names and elements of paths *)

(** A name a directory entry can bear: not empty, neither [.] nor [..], and
    free of separators. *)
Definition plain_name (e : string) : bool :=
  negb (String.eqb e EmptyString) && negb (String.eqb e ".")
  && negb (String.eqb e "..") && negb (has_sep e).

(** An element [Clean] keeps: as above, but [..] is one. *)
Definition kept_name (e : string) : bool :=
  negb (String.eqb e EmptyString) && negb (String.eqb e ".")
  && negb (has_sep e).

(** Every name in the tree is one a directory entry can bear. *)
Definition well_named (info : node) : bool :=
  forallb (fun d => forallb plain_name (fst d)) (descendants [] info).

(** [clean_elems] before the final reversal. *)
Fixpoint clean_stack (isRooted : bool) (stack elems : list string)
  : list string :=
  match elems with
  | [] => stack
  | e :: es =>
    if String.eqb e EmptyString || String.eqb e "."
    then clean_stack isRooted stack es
    else if String.eqb e ".." then
      match stack with
      | top :: below =>
        if String.eqb top ".." then clean_stack isRooted (e :: stack) es
        else clean_stack isRooted below es
      | [] =>
        if isRooted then clean_stack isRooted [] es
        else clean_stack isRooted [e] es
      end
    else clean_stack isRooted (e :: stack) es
  end.

(** The elements of the absolute form of a path. *)
Definition abs_elems (cwd path : string) : list string :=
  clean_elems true []
    ((if rooted path then [] else split_path cwd) ++ split_path path).

(** ** Sample inputs *)

(** A name of 300 bytes. *)
Definition long_name : string := string_of_list_ascii (repeat "a"%char 300).

(** A directory with a file and a directory that holds an empty file. *)
Definition sample_tree : list (string * node) :=
  [("a.txt", RegFile [x61; x62; x63]);
   ("sub", Directory [("b", RegFile [])])].

(** * The rest of the program *)

(** ** formatDuration (lines 148-160)

    A [time.Duration] is a count of nanoseconds in 64 bits. *)

Definition Second : Z := 1000000000.
Definition Minute : Z := 60 * Second.
Definition Hour : Z := 60 * Minute.
Definition minDuration : Z := - 2 ^ 63.
Definition maxDuration : Z := 2 ^ 63 - 1.

(** [lessThanHalf] of package [time]: [x + x < y] on unsigned 64 bits. *)
Definition lessThanHalf (x y : Z) : bool :=
  to_uint64 (to_uint64 x + to_uint64 x) <? to_uint64 y.

(** [Duration.Round]: the nearest multiple of [m], halves away from zero,
    the extreme duration when the result does not fit. *)
Definition Duration_Round (d m : Z) : Z :=
  if m <=? 0 then d
  else
    let r := Z.rem d m in
    if d <? 0 then
      let r := to_int64 (- r) in
      if lessThanHalf r m then to_int64 (d + r)
      else
        let d1 := to_int64 (d - m + r) in
        if d1 <? d then d1 else minDuration
    else
      if lessThanHalf r m then to_int64 (d - r)
      else
        let d1 := to_int64 (d + m - r) in
        if d <? d1 then d1 else maxDuration.

(** The verb [%02d]: two digits at least, the sign taking one place. *)
Definition fmt_02d (n : Z) : string :=
  if n <? 0 then "-" +:+ fmt_d (- n)
  else if n <? 10 then "0" +:+ fmt_d n
  else fmt_d n.

Definition formatDuration (d : Z) : string :=
  let d := Duration_Round d Second in
  let h := Z.quot d Hour in
  let d := to_int64 (d - to_int64 (h * Hour)) in
  let m := Z.quot d Minute in
  let d := to_int64 (d - to_int64 (m * Minute)) in
  let s := Z.quot d Second in
  if 0 <? h
  then fmt_02d h +:+ ":" +:+ fmt_02d m +:+ ":" +:+ fmt_02d s
  else fmt_02d m +:+ ":" +:+ fmt_02d s.

(** ** The drivers of the sender (lines 521-681)

    The connection is taken as established: the proxy and the dialing are
    outside. Nothing is printed and nothing sleeps here. *)

Definition port : string := ":8000".

(** [strings.Split(target, ":")[0]]: what comes before the first colon. *)
Fixpoint before_colon (s : string) : string :=
  match s with
  | EmptyString => EmptyString
  | String c s' =>
    if Ascii.eqb c ":" then EmptyString else String c (before_colon s')
  end.

(** Lines 525-526 and 601-602. *)
Definition fullTarget (target : string) : string :=
  before_colon target +:+ port.

(** The test of lines 545-546. *)
Definition has_wildcard (pattern : string) : bool :=
  Contains pattern "*" || Contains pattern "?" || Contains pattern "[".

(** The verb [%v] on a slice of strings. *)
Definition fmt_v (l : list string) : string :=
  "[" +:+ String.concat " " l +:+ "]".

(** The loop of lines 562-567, [seen] being the map of the items met. *)
Fixpoint uniqueItems (seen : gmap string bool) (items : list string)
  : list string :=
  match items with
  | [] => []
  | item :: rest =>
    if default false (seen !! item) then uniqueItems seen rest
    else item :: uniqueItems (<[item := true]> seen) rest
  end.

Section Drivers.

Variable elapsed : nat -> Z.
Variable cwd : string.

(** [filepath.Glob] on the sending host. *)
Variable Glob : string -> error + list string.

(** [os.Stat] on the sending host: what is at a path, or the error of the
    system. *)
Variable Stat : string -> error + node.

(** The loop of lines 543-557, [itemsToSend] being what was collected so
    far. *)
Fixpoint collectItems (itemsToSend filePatterns : list string)
  : error + list string :=
  match filePatterns with
  | [] => inr itemsToSend
  | pattern :: rest =>
    if has_wildcard pattern then
      match Glob pattern with
      | inl err => inl (Wrap ("invalid pattern " +:+ pattern) err)
      | inr matches => collectItems (itemsToSend ++ matches) rest
      end
    else collectItems (itemsToSend ++ [pattern]) rest
  end.

(** [sendFileRaw] (lines 372-385) with its call of [os.Stat]. *)
Definition sendFileRaw_stat (st : Sender) (filePath : string)
  : option error * Sender :=
  match Stat filePath with
  | inl err => (Some err, st)
  | inr info => sendFileRaw elapsed cwd st filePath info
  end.

(** The loop of lines 576-586. *)
Fixpoint sendItems (items : list string) (st : Sender)
  : option error * Sender :=
  match items with
  | [] => (None, st)
  | itemPath :: rest =>
    match sendFileRaw_stat st itemPath with
    | (Some err, st) => (Some (Wrap ("failed to send " +:+ itemPath) err), st)
    | (None, st) => sendItems rest st
    end
  end.

(** [sendFilesRaw] from line 541 on. *)
Definition sendFilesRaw (st : Sender) (filePatterns : list string)
  : option error * Sender :=
  match collectItems [] filePatterns with
  | inl err => (Some err, st)
  | inr itemsToSend =>
    let unique := uniqueItems ∅ itemsToSend in
    if (length unique =? 0)%nat
    then (Some (ErrMsg ("no files or directories found matching patterns: "
                        +:+ fmt_v filePatterns)), st)
    else sendItems unique st
  end.

(** [sendStdinRaw] from line 617 on, [data] being what [io.ReadAll] read
    from the standard input. The reader over [data] is read like a file. *)
Definition sendStdinRaw (st : Sender) (data : list byte)
  : option error * Sender :=
  if (length data =? 0)%nat
  then (Some (ErrMsg "no data received from stdin"), st)
  else
    let fi := mkFileInfo "data.bin" (Z.of_nat (length data)) false in
    match emit fi st with
    | (Some err, st) => (Some (Wrap "failed to send file info" err), st)
    | (None, st) =>
      let pw := NewProgressWriter (FileSize fi) (Filename fi) in
      let st := set_sglobals (set_progressWriter pw (sglobals st)) st in
      match sendChunks elapsed (S (length data)) data 0 st with
      | (Return err, st) => (err, finalize st)
      | (Continue, st) =>
        let st := set_sglobals (observe elapsed (FileSize fi) (sglobals st)) st in
        (None, finalize st)
      end
    end.

End Drivers.

(** ** ProgressWriter.Write (lines 58-63): the count of bytes written and the
    error, with the tracker after the update. *)
Definition ProgressWriter_Write (elapsedMs : Z) (pw : ProgressWriter)
    (p : list byte) : Z * option error * ProgressWriter :=
  let n := Z.of_nat (length p) in
  let pw := set_current pw (to_int64 (current pw + n)) in
  (n, None, printProgress elapsedMs pw).

(** * The sender of a directory, on any host

    [path/filepath] is written host by host: the separator differs, and so
    do the functions that depend on it. To follow [sendDirectoryRaw] on a
    host whose separator is not the slash, what it and [filepath.Walk] call
    of the package is taken here as the host gives it; [ToSlash] is the same
    code on every host. *)

Module Host.

(** The package [path/filepath] of a host. [Abs] fails when the working
    directory cannot be found. *)
Record filepath : Type := mkFilepath {
  Separator : ascii;
  Abs : string -> error + string;
  Rel : string -> string -> error + string;
  Base : string -> string;
  Join : list string -> string
}.

(** [filepath.ToSlash]: each separator of the host is replaced by a slash;
    nothing is to be done where the separator is the slash. *)
Definition ToSlash (h : filepath) (path : string) : string :=
  if Ascii.eqb (Separator h) "/" then path
  else replace_char (Separator h) "/" path.

Section OnHost.

Variable elapsed : nat -> Z.
Variable h : filepath.

(** [sendSingleFile] (lines 234-294); the host names the tracker (line
    258). *)
Definition sendSingleFile (st : Sender) (size : Z) (file : list byte)
    (filename : string) : option error * Sender :=
  let fi := mkFileInfo filename size false in
  match emit fi st with
  | (Some err, st) => (Some (Wrap "failed to send file info" err), st)
  | (None, st) =>
    let pw := NewProgressWriter (FileSize fi) (Base h filename) in
    let st := set_sglobals (set_progressWriter pw (sglobals st)) st in
    match sendChunks elapsed (S (length file)) file 0 st with
    | (Return err, st) => (err, finalize st)
    | (Continue, st) =>
      let st := set_sglobals (observe elapsed (FileSize fi) (sglobals st)) st in
      (None, finalize st)
    end
  end.

(** The function [sendDirectoryRaw] hands to [filepath.Walk] (lines 318-368). *)
Definition walkFn (dirPath absDirPath : string) (path : string) (info : node)
    (st : Sender) : option error * Sender :=
  if String.eqb path dirPath then (None, st)
  else
    match Abs h path with
    | inl err => (Some err, st)
    | inr absPath =>
      match Rel h absDirPath absPath with
      | inl err => (Some err, st)
      | inr relPath =>
        let baseName := Base h absDirPath in
        let fullRelPath := Join h [baseName; relPath] in
        let fullRelPath := ToSlash h fullRelPath in
        match info with
        | Directory _ =>
          let subDirInfo := mkFileInfo fullRelPath 0 true in
          match emit subDirInfo st with
          | (Some err, st) =>
            (Some (Wrap "failed to send subdirectory info" err), st)
          | (None, st) => (None, st)
          end
        | RegFile file =>
          match sendSingleFile st (Z.of_nat (length file)) file fullRelPath with
          | (Some err, st) =>
            (Some (Wrap ("failed to send file " +:+ path) err), st)
          | (None, st) => (None, st)
          end
        end
      end
    end.

(** [filepath.Walk]. *)
Fixpoint walk (fn : string -> node -> Sender -> option error * Sender)
    (path : string) (info : node) (st : Sender) : option error * Sender :=
  match info with
  | RegFile _ => fn path info st
  | Directory entries =>
    match fn path info st with
    | (Some err, st) => (Some err, st)
    | (None, st) =>
      (fix names (entries : list (string * node)) (st : Sender) :=
         match entries with
         | [] => (None, st)
         | (name, child) :: entries' =>
           match walk fn (Join h [path; name]) child st with
           | (Some err, st) => (Some err, st)
           | (None, st) => names entries' st
           end
         end) entries st
    end
  end.

(** [sendDirectoryRaw] (lines 297-369) on the directory found at [dirPath]. *)
Definition sendDirectoryRaw (st : Sender) (dirPath : string)
    (entries : list (string * node)) : option error * Sender :=
  match Abs h dirPath with
  | inl err => (Some err, st)
  | inr absDirPath =>
    let rootDirInfo := mkFileInfo (Base h dirPath) 0 true in
    match emit rootDirInfo st with
    | (Some err, st) =>
      (Some (Wrap "failed to send root directory info" err), st)
    | (None, st) =>
      walk (walkFn dirPath absDirPath) dirPath (Directory entries) st
    end
  end.

End OnHost.

(** The path [filepath.Walk] builds for what lies [rel] below [root]. *)
Definition walk_path (h : filepath) (root : string) (rel : list string)
  : string :=
  fold_left (fun path name => Join h [path; name]) rel root.

(** A descendant with the path the walk gives it. *)
Definition located (h : filepath) (root : string) (d : list string * node)
  : string * node :=
  (walk_path h root (fst d), snd d).

(** What the walk finds elsewhere than at the path of the directory itself,
    which line 324 skips: in the order of the walk, each with the names that
    lead to it. *)
Definition sent_below (h : filepath) (dirPath : string)
    (entries : list (string * node)) : list (list string * node) :=
  List.filter
    (fun d => negb (String.eqb (walk_path h dirPath (fst d)) dirPath))
    (descendants [] (Directory entries)).

(** The descriptor [fi] is the one of the descendant [d], under the base
    name of the directory joined with the path from the directory to [d],
    the separators of the host turned into slashes. *)
Definition sent_as (h : filepath) (dirPath absDirPath : string)
    (d : list string * node) (fi : FileInfo) : Prop :=
  exists absPath relPath : string,
    Abs h (walk_path h dirPath (fst d)) = inr absPath
    /\ Rel h absDirPath absPath = inr relPath
    /\ fi = descriptor_of
              (ToSlash h (Join h [Base h absDirPath; relPath])) (snd d).

End Host.

(** The host whose separator is the slash, working in [cwd]. *)
Definition slash_host (cwd : string) : Host.filepath :=
  Host.mkFilepath Separator (fun path => inr (Abs cwd path)) Rel Base Join.

(** The backslash, the character of code 92. *)
Definition backslash : ascii := "092"%char.

(** A host whose separator is the backslash, working in [cwd]: its paths
    are those of the slash host with a backslash for each slash. *)
Definition to_backslash (path : string) : string :=
  replace_char "/" backslash path.

Definition of_backslash (path : string) : string :=
  replace_char backslash "/" path.

Definition backslash_host (cwd : string) : Host.filepath :=
  Host.mkFilepath backslash
    (fun path => inr (to_backslash (Abs cwd (of_backslash path))))
    (fun basepath targpath =>
       match Rel (of_backslash basepath) (of_backslash targpath) with
       | inl err => inl err
       | inr rel => inr (to_backslash rel)
       end)
    (fun path => to_backslash (Base (of_backslash path)))
    (fun elem => to_backslash (Join (map of_backslash elem))).

(** * Vocabulary of the statements, continued *)

(** ** The sender and the wire *)

(** The test [seen[item]] of line 563. *)
Definition is_seen (seen : gmap string bool) (item : string) : bool :=
  default false (seen !! item).

(** The connection after [p] was handed to it, whether it took all of it or
    not. *)
Definition wire_after (c : WConn) (p : list byte) : WConn :=
  mkWConn (sent c ++ take (room c) p) (room c - length p) (werr c).

(** Two runs of the sender agree on what they return, on the connection and
    on the descriptors sent. *)
Definition same_sending (r1 r2 : option error * Sender) : Prop :=
  fst r1 = fst r2 /\ out (snd r1) = out (snd r2)
  /\ emitted (snd r1) = emitted (snd r2).

(** Whether a regular file is found at the path. *)
Definition regular (Stat : string -> error + node) (p : string) : bool :=
  match Stat p with inr (RegFile _) => true | _ => false end.

(** The regular files found at the paths, each with the name [sendFileRaw]
    sends it under. *)
Fixpoint sent_files (Stat : string -> error + node) (paths : list string)
  : list (string * list byte) :=
  match paths with
  | [] => []
  | p :: paths' =>
    match Stat p with
    | inr (RegFile content) => (Base p, content) :: sent_files Stat paths'
    | _ => sent_files Stat paths'
    end
  end.

(** The stream that carries the files [items], names and contents, one
    after the other. *)
Definition wire_of_files (items : list (string * list byte)) : list byte :=
  concat (map (fun it => frame_bytes (mkFileInfo (fst it)
                                        (Z.of_nat (length (snd it))) false)
                         ++ snd it) items).

(** The last content sent under [name], if any. *)
Definition last_sent (items : list (string * list byte)) (name : string)
  : option (list byte) :=
  last (map snd (List.filter (fun it => String.eqb (fst it) name) items)).

(** ** The disk of the receiver *)

(** Both directories, or both files. *)
Definition same_kind (e e' : entry) : bool :=
  match e, e' with
  | EDir, EDir => true
  | EFile _, EFile _ => true
  | _, _ => false
  end.

(** Whatever is on the disk [d] is still there on [d'], a directory as a
    directory and a file as a file. *)
Definition keeps (d d' : gmap string entry) : Prop :=
  forall (p : string) (e : entry),
    d !! p = Some e -> exists e' : entry, d' !! p = Some e' /\ same_kind e e' = true.

(** No file stands at the path. *)
Definition no_file_at (d : gmap string entry) (p : string) : bool :=
  match d !! p with Some (EFile _) => false | _ => true end.

(** A disk on which files of one element can be put: the receive directory
    is no file, and there is no directory below it. *)
Definition flat_disk (d : gmap string entry) : Prop :=
  no_file_at d receiveDir = true
  /\ forall name : string, plain_name name = true ->
       d !! target_path name <> Some EDir.

(** The disk with a directory at each of the paths. *)
Definition ensure_dirs (d : gmap string entry) (dirs : list string)
  : gmap string entry :=
  fold_left (fun d p => <[p := EDir]> d) dirs d.

(** ** Items of a transfer *)

(** What a stream carries, frame by frame: the elements of the name of each
    item and what the receiver is to hold for it, a directory or a file with
    its content. *)
Definition item : Type := list string * entry.

(** The descriptor of an item. *)
Definition item_info (it : item) : FileInfo :=
  match snd it with
  | EDir => mkFileInfo (join_path (fst it)) 0 true
  | EFile content =>
    mkFileInfo (join_path (fst it)) (Z.of_nat (length content)) false
  end.

(** The frame of an item, followed by the content when it is a file. *)
Definition wire_of_item (it : item) : list byte :=
  frame_bytes (item_info it)
  ++ match snd it with EDir => [] | EFile content => content end.

(** The stream that carries the items one after the other. *)
Definition wire_of (items : list item) : list byte :=
  concat (map wire_of_item items).

(** An item the receiver can take: a name made of names a directory entry
    can bear, free of NUL bytes and within the cap on the length of names,
    and a content whose size fits the field of the frame. *)
Definition item_ok (it : item) : bool :=
  match fst it with [] => false | _ :: _ => true end
  && forallb plain_name (fst it)
  && forallb (fun e => negb (has_nul e)) (fst it)
  && (String.length (join_path (fst it)) <=? 255)%nat
  && match snd it with
     | EDir => true
     | EFile content => Z.of_nat (length content) <? 2 ^ 63
     end.

(** Where the item goes. *)
Definition item_target (it : item) : string := join_path (receiveDir :: fst it).

(** The elements of the directory made for the item: the item itself when
    it is a directory, what holds it when it is a file. *)
Definition item_dir_elems (it : item) : list string :=
  match snd it with
  | EDir => fst it
  | EFile _ => removelast (fst it)
  end.

(** The directories made for the item, outermost first. *)
Definition item_dirs (it : item) : list string :=
  prefixes_from EmptyString (receiveDir :: item_dir_elems it).

(** Nothing on the disk stands in the way of the item: no file where a
    directory is needed, no directory where the file goes. *)
Definition accepts (d : gmap string entry) (it : item) : bool :=
  forallb (no_file_at d) (item_dirs it)
  && match snd it with
     | EDir => true
     | EFile _ =>
       match d !! item_target it with Some EDir => false | _ => true end
     end.

(** The disk with the item on it. *)
Definition store (d : gmap string entry) (it : item) : gmap string entry :=
  let d1 := ensure_dirs d (item_dirs it) in
  match snd it with
  | EDir => d1
  | EFile content => <[item_target it := EFile content]> d1
  end.

(** The disk with the items on it, one after the other; nothing when one of
    them finds something in its way. *)
Fixpoint store_all (d : gmap string entry) (items : list item)
  : option (gmap string entry) :=
  match items with
  | [] => Some d
  | it :: items' => if accepts d it then store_all (store d it) items' else None
  end.

(** The non-empty prefixes of a list, shortest first. *)
Fixpoint nonempty_prefixes {A : Type} (l : list A) : list (list A) :=
  match l with
  | [] => []
  | a :: l' => [a] :: map (cons a) (nonempty_prefixes l')
  end.

(** A file sent under a name of one element. *)
Definition file_item (f : string * list byte) : item := ([fst f], EFile (snd f)).

(** A name the receiving host can give a file, and a content the frame can
    carry. *)
Definition file_ok (f : string * list byte) : bool :=
  plain_name (fst f) && negb (has_nul (fst f))
  && (String.length (fst f) <=? 255)%nat
  && (Z.of_nat (length (snd f)) <? 2 ^ 63).

(** ** A directory as items *)

(** What the receiver is to hold for a node. *)
Definition entry_of (info : node) : entry :=
  match info with
  | RegFile content => EFile content
  | Directory _ => EDir
  end.

(** A node and what lies below it, each under the name [b] followed by the
    names that lead to it. *)
Definition items_of (b : string) (rel : list string) (info : node) : list item :=
  map (fun d => (b :: fst d, entry_of (snd d))) (descendants rel info).

(** The items of a directory sent under the name [b]: the directory itself
    and all that lies below it, in the order of the walk. *)
Definition tree_items (b : string) (entries : list (string * node)) : list item :=
  items_of b [] (Directory entries).

(** The directories above the item are items of [seen]. *)
Definition parents_in (seen : list item) (it : item) : Prop :=
  forall pre : list string,
    pre <> [] -> pre `prefix_of` fst it -> pre <> fst it -> (pre, EDir) ∈ seen.

(** In the list every item comes after the directories above it. *)
Fixpoint parents_first (seen items : list item) : Prop :=
  match items with
  | [] => True
  | it :: rest => parents_in seen it /\ parents_first (seen ++ [it]) rest
  end.

(** The disk holds the items of [seen] under the receive directory, and
    nothing else. *)
Definition holds (d : gmap string entry) (seen : list item) : Prop :=
  forall (p : string) (e : entry),
    d !! p = Some e
    <-> (p = receiveDir /\ e = EDir /\ seen <> [])
        \/ exists it : item, it ∈ seen /\ p = item_target it /\ e = snd it.

(** ** The tracker *)

(** The tracker after the buffers [ps] were written to it one after the
    other, [clock k] being the elapsed milliseconds at the write that follows
    [k] earlier ones. *)
Fixpoint write_all (clock : nat -> Z) (k : nat) (pw : ProgressWriter)
    (ps : list (list byte)) : ProgressWriter :=
  match ps with
  | [] => pw
  | p :: ps' =>
    write_all clock (S k) (snd (ProgressWriter_Write (clock k) pw p)) ps'
  end.

(** ** Sample inputs, continued *)

Definition sample_globals : Globals :=
  mkGlobals (NewProgressWriter 0 EmptyString) [].

(** A sender at the start of a connection that takes [space] bytes. *)
Definition sample_sender (space : nat) : Sender :=
  mkSender (mkWConn [] space (ErrMsg "broken pipe")) [] sample_globals.

(** A sending host with two files called [x.txt], a third file and the
    directory [oc]; [os.Stat] fails with "not a directory" below a file and
    with "no such file or directory" elsewhere. *)
Definition sample_Stat (p : string) : error + node :=
  if String.eqb p "a/x.txt" then inr (RegFile [x61])
  else if String.eqb p "b/x.txt" then inr (RegFile [x62; x63])
  else if String.eqb p "c/y.txt" then inr (RegFile [])
  else if String.eqb p "oc" then inr (Directory sample_tree)
  else if String.eqb p "a/x.txt/y"
  then inl (ErrMsg ("stat " +:+ p +:+ ": not a directory"))
  else inl (ErrMsg ("stat " +:+ p +:+ ": no such file or directory")).

(** No file matches a pattern. *)
Definition sample_Glob (pattern : string) : error + list string := inr [].

(** A name with a NUL byte in the middle. *)
Definition nul_name : string := String "a" (String "000" "b").

(** A receiving host that holds the file [x]. *)
Definition sample_disk : gmap string entry :=
  <["received/x" := EFile [x41]]> (<["received" := EDir]> ∅).

(** * Properties *)

(** ** Big-endian integers *)

Lemma Z_of_byte_range (b : byte) : 0 <= Z_of_byte b < 256.
Proof.
  unfold Z_of_byte. pose proof (Byte.to_N_bounded b). lia.
Qed.

Lemma Z_of_byte_of_Z (z : Z) : Z_of_byte (byte_of_Z z) = z mod 256.
Proof.
  unfold Z_of_byte, byte_of_Z.
  assert (Hr : 0 <= z mod 256 < 256) by (apply Z.mod_pos_bound; lia).
  destruct (Byte.of_N (Z.to_N (z mod 256))) as [b|] eqn:E.
  - apply Byte.to_of_N in E. rewrite E. lia.
  - apply Byte.of_N_None_iff in E. lia.
Qed.

Lemma byte_of_Z_of_byte (b : byte) : byte_of_Z (Z_of_byte b) = b.
Proof.
  unfold byte_of_Z. pose proof (Z_of_byte_range b) as Hr.
  rewrite Z.mod_small by lia. unfold Z_of_byte.
  rewrite N2Z.id, Byte.of_to_N. reflexivity.
Qed.

Lemma lor_shiftl_low (a b : Z) :
  0 <= b < 256 -> Z.lor (Z.shiftl a 8) b = a * 256 + b.
Proof.
  intros Hb.
  assert (Hland : Z.land (Z.shiftl a 8) b = 0).
  { apply Z.bits_inj'. intros n Hn.
    rewrite Z.land_spec, Z.bits_0.
    destruct (Z.lt_ge_cases n 8) as [Hlt|Hge].
    - rewrite Z.shiftl_spec_low by lia. reflexivity.
    - replace (Z.testbit b n) with false; [apply andb_false_r|].
      symmetry. destruct (Z.eq_dec b 0) as [->|Hnz]; [apply Z.bits_0|].
      apply Z.bits_above_log2; [lia|].
      apply Z.log2_lt_pow2; [lia|].
      apply Z.lt_le_trans with (2 ^ 8); [lia|].
      apply Z.pow_le_mono_r; lia. }
  rewrite <- Z.lxor_lor by exact Hland.
  rewrite <- Z.add_nocarry_lxor by exact Hland.
  rewrite Z.shiftl_mul_pow2 by lia. lia.
Qed.

Lemma be_value_snoc (bs : list byte) (b : byte) :
  be_value (bs ++ [b]) = be_value bs * 256 + Z_of_byte b.
Proof.
  unfold be_value. rewrite fold_left_app. simpl.
  apply lor_shiftl_low, Z_of_byte_range.
Qed.

Lemma length_be_bytes (n : nat) (v : Z) : length (be_bytes n v) = n.
Proof.
  revert v. induction n as [|n IH]; intros v; simpl; [reflexivity|].
  rewrite length_app, IH. simpl. lia.
Qed.

Lemma be_value_be_bytes (n : nat) (v : Z) :
  be_value (be_bytes n v) = v mod 256 ^ Z.of_nat n.
Proof.
  revert v. induction n as [|n IH]; intros v.
  - simpl. rewrite Z.mod_1_r. reflexivity.
  - cbn [be_bytes]. rewrite be_value_snoc, IH, Z_of_byte_of_Z.
    rewrite Z.shiftr_div_pow2 by lia.
    replace (2 ^ 8) with 256 by reflexivity.
    rewrite Nat2Z.inj_succ, Z.pow_succ_r by lia.
    assert (0 < 256 ^ Z.of_nat n) by (apply Z.pow_pos_nonneg; lia).
    rewrite Z.rem_mul_r by lia. lia.
Qed.

Lemma be_value_range (bs : list byte) :
  0 <= be_value bs < 256 ^ Z.of_nat (length bs).
Proof.
  induction bs as [|b bs IH] using rev_ind.
  - cbn. lia.
  - rewrite be_value_snoc, length_app. cbn [length].
    replace (Z.of_nat (length bs + 1)) with (Z.succ (Z.of_nat (length bs))) by lia.
    rewrite Z.pow_succ_r by lia.
    pose proof (Z_of_byte_range b). nia.
Qed.

Lemma to_int64_to_uint64 (z : Z) : int64_range z -> to_int64 (to_uint64 z) = z.
Proof.
  unfold int64_range, to_int64, to_uint64. intros Hz.
  rewrite Z.mod_mod by lia.
  destruct (Z_lt_le_dec z 0) as [Hneg|Hpos].
  - replace (z mod 2 ^ 64) with (z + 2 ^ 64).
    + destruct (Z.ltb_spec (z + 2 ^ 64) (2 ^ 63)); lia.
    + apply Z.mod_unique with (q := -1); lia.
  - rewrite Z.mod_small by lia.
    destruct (Z.ltb_spec z (2 ^ 63)); lia.
Qed.

(** ** Reading from the stream *)

Lemma ReadFull_exact (xs rest : list byte) (cl : error) :
  ReadFull (mkConn (xs ++ rest) cl) (length xs) = (xs, None, mkConn rest cl).
Proof.
  unfold ReadFull. cbn [pending closing].
  rewrite length_app.
  destruct (Nat.leb_spec (length xs) (length xs + length rest)); [|lia].
  rewrite take_app_length, drop_app_length. reflexivity.
Qed.

Lemma binary_Read_be (n : nat) (v : Z) (rest : list byte) (cl : error) :
  binary_Read (mkConn (be_bytes n v ++ rest) cl) n
  = (inr (v mod 256 ^ Z.of_nat n), mkConn rest cl).
Proof.
  unfold binary_Read.
  rewrite <- (length_be_bytes n v) at 2.
  rewrite ReadFull_exact, be_value_be_bytes. reflexivity.
Qed.

Lemma length_list_byte_of_string (s : string) :
  length (list_byte_of_string s) = String.length s.
Proof.
  unfold list_byte_of_string. rewrite length_map.
  induction s as [|c s IH]; simpl; congruence.
Qed.

Lemma ReadFull_error (c : Conn) (k : nat) (got : list byte) (e : error) (c' : Conn) :
  ReadFull c k = (got, Some e, c') ->
  (length (pending c) < k)%nat /\ got = pending c /\ c' = mkConn [] (closing c)
  /\ e = match pending c with
         | [] => closing c
         | _ :: _ => if is_EOF (closing c) then ErrUnexpectedEOF else closing c
         end.
Proof.
  unfold ReadFull.
  destruct (Nat.leb_spec k (length (pending c))) as [Hle|Hlt];
    intros Heq; inversion Heq; subst.
  repeat split; try reflexivity. lia.
Qed.

Lemma ReadFull_closing (c : Conn) (k : nat) :
  closing (snd (ReadFull c k)) = closing c.
Proof.
  unfold ReadFull. destruct (k <=? length (pending c))%nat; reflexivity.
Qed.

Lemma ReadFull_error_clean (c : Conn) (k : nat) (got : list byte) (e : error) (c' : Conn) :
  closing c = EOF ->
  ReadFull c k = (got, Some e, c') ->
  e = EOF \/ e = ErrUnexpectedEOF.
Proof.
  intros Hcl H. apply ReadFull_error in H as (_ & _ & _ & ->).
  rewrite Hcl. destruct (pending c); [left|right]; reflexivity.
Qed.

Lemma binary_Read_closing (c : Conn) (n : nat) :
  closing (snd (binary_Read c n)) = closing c.
Proof.
  unfold binary_Read. pose proof (ReadFull_closing c n) as H.
  destruct (ReadFull c n) as [[bs [e|]] c']; exact H.
Qed.

Lemma binary_Read_error_clean (c : Conn) (n : nat) (e : error) (c' : Conn) :
  closing c = EOF ->
  binary_Read c n = (inl e, c') ->
  e = EOF \/ e = ErrUnexpectedEOF.
Proof.
  intros Hcl. unfold binary_Read.
  destruct (ReadFull c n) as [[bs [e0|]] c0] eqn:E; intros H; inversion H; subst.
  exact (ReadFull_error_clean _ _ _ _ _ Hcl E).
Qed.

(** ** The frame codec *)

Lemma conn_Write_ok (c : WConn) (p : list byte) :
  (length p <= room c)%nat ->
  conn_Write c p = (None, mkWConn (sent c ++ p) (room c - length p) (werr c)).
Proof.
  intros H. unfold conn_Write.
  destruct (Nat.leb_spec (length p) (room c)); [reflexivity|lia].
Qed.

Lemma length_frame_bytes (fi : FileInfo) :
  length (frame_bytes fi) = (String.length (Filename fi) + 13)%nat.
Proof.
  unfold frame_bytes.
  rewrite !length_app, !length_be_bytes, length_list_byte_of_string.
  simpl. lia.
Qed.

(** A frame fits: [sendFileInfo] puts exactly [frame_bytes] on the wire. *)
Lemma sendFileInfo_ok (c : WConn) (fi : FileInfo) :
  (length (frame_bytes fi) <= room c)%nat ->
  sendFileInfo c fi
  = (None, mkWConn (sent c ++ frame_bytes fi)
                   (room c - length (frame_bytes fi)) (werr c)).
Proof.
  intros Hroom. rewrite length_frame_bytes in *.
  unfold sendFileInfo, binary_Write, frame_bytes.
  rewrite length_list_byte_of_string.
  rewrite conn_Write_ok by (rewrite length_be_bytes; lia).
  rewrite conn_Write_ok
    by (cbn [room]; rewrite length_be_bytes, length_list_byte_of_string; lia).
  rewrite conn_Write_ok
    by (cbn [room]; rewrite !length_be_bytes, length_list_byte_of_string; lia).
  rewrite conn_Write_ok
    by (cbn [room]; rewrite !length_be_bytes, length_list_byte_of_string;
        simpl; lia).
  cbn [sent room werr].
  rewrite !length_be_bytes, length_list_byte_of_string.
  rewrite <- !app_assoc. cbn [length].
  match goal with
  | |- (_, mkWConn _ ?a _) = (_, mkWConn _ ?b _) => replace a with b by lia
  end.
  reflexivity.
Qed.

(** Decoding the bytes of a frame whose name is within the cap gives the
    descriptor back and leaves what follows the frame. *)
Lemma receiveFileInfo_frame (fi : FileInfo) (rest : list byte) (cl : error) :
  (String.length (Filename fi) <= 255)%nat ->
  int64_range (FileSize fi) ->
  receiveFileInfo (mkConn (frame_bytes fi ++ rest) cl) = (inr fi, mkConn rest cl).
Proof.
  intros Hlen Hsize. destruct fi as [name size isdir]. cbn [Filename FileSize IsDirectory] in *.
  unfold receiveFileInfo, frame_bytes. cbn [Filename FileSize IsDirectory].
  rewrite <- !app_assoc.
  rewrite binary_Read_be.
  assert (Hn : to_uint32 (Z.of_nat (String.length name)) mod 256 ^ Z.of_nat 4
               = Z.of_nat (String.length name)).
  { unfold to_uint32. change (256 ^ Z.of_nat 4) with (2 ^ 32).
    rewrite Z.mod_mod by lia. apply Z.mod_small. lia. }
  rewrite Hn. unfold maxFilenameLen.
  destruct (Z.ltb_spec 255 (Z.of_nat (String.length name))); [lia|].
  rewrite Nat2Z.id, <- length_list_byte_of_string, ReadFull_exact.
  rewrite binary_Read_be.
  replace (to_uint64 size mod 256 ^ Z.of_nat 8) with (to_uint64 size)
    by (unfold to_uint64; change (256 ^ Z.of_nat 8) with (2 ^ 64);
        now rewrite Z.mod_mod by lia).
  rewrite to_int64_to_uint64 by assumption.
  change 1%nat with (length [if isdir then x01 else x00]).
  rewrite ReadFull_exact, string_of_list_byte_of_string.
  destruct isdir; reflexivity.
Qed.

(** C1. Round trip of the frame codec: for every descriptor whose name is 0
    to 255 bytes long and whose size is not negative, with either value of
    the directory flag, what [sendFileInfo] writes on a connection that takes
    the frame is decoded by [receiveFileInfo] into the same descriptor: same
    name, same size, same flag. *)
Theorem frame_round_trip (fi : FileInfo) (space : nat) (e cl : error) :
  (String.length (Filename fi) <= 255)%nat ->
  0 <= FileSize fi < 2 ^ 63 ->
  (String.length (Filename fi) + 13 <= space)%nat ->
  exists c : WConn,
    sendFileInfo (mkWConn [] space e) fi = (None, c)
    /\ receiveFileInfo (mkConn (sent c) cl) = (inr fi, mkConn [] cl).
Proof.
  intros Hlen Hsize Hroom.
  eexists. split.
  - apply sendFileInfo_ok. rewrite length_frame_bytes. exact Hroom.
  - cbn [sent app].
    rewrite <- (app_nil_r (frame_bytes fi)).
    apply receiveFileInfo_frame; [exact Hlen|unfold int64_range; lia].
Qed.

(** A file descriptor of 1000 bytes. *)
Lemma frame_round_trip_witness :
  exists c : WConn,
    sendFileInfo (mkWConn [] 100 (ErrMsg "broken pipe"))
                 (mkFileInfo "oc/config.json" 1000 false) = (None, c)
    /\ receiveFileInfo (mkConn (sent c) EOF)
       = (inr (mkFileInfo "oc/config.json" 1000 false), mkConn [] EOF).
Proof.
  apply (frame_round_trip (mkFileInfo "oc/config.json" 1000 false) 100);
    cbn; lia.
Defined.

(** The length is read, found above the cap, and nothing more is read. *)
Lemma receiveFileInfo_oversize (b1 b2 b3 b4 : byte) (rest : list byte) (cl : error) :
  255 < be_value [b1; b2; b3; b4] ->
  receiveFileInfo (mkConn (b1 :: b2 :: b3 :: b4 :: rest) cl)
  = (inl (filename_too_long (be_value [b1; b2; b3; b4])), mkConn rest cl).
Proof.
  intros Hbig. unfold receiveFileInfo.
  change (b1 :: b2 :: b3 :: b4 :: rest) with ([b1; b2; b3; b4] ++ rest).
  unfold binary_Read.
  change 4%nat with (length [b1; b2; b3; b4]).
  rewrite ReadFull_exact. unfold maxFilenameLen.
  destruct (Z.ltb_spec 255 (be_value [b1; b2; b3; b4])); [reflexivity|lia].
Qed.

(** C4. Rejection of an oversize name: on every stream whose first four bytes
    decode to a length above 255, [receiveFileInfo] fails with the error
    "filename too long" and has consumed these four bytes only: what follows
    them, name, size or flag, is still in the stream. *)
Theorem oversize_name_rejected (b1 b2 b3 b4 : byte) (rest : list byte) (cl : error) :
  255 < be_value [b1; b2; b3; b4] ->
  receiveFileInfo (mkConn (b1 :: b2 :: b3 :: b4 :: rest) cl)
  = (inl (filename_too_long (be_value [b1; b2; b3; b4])), mkConn rest cl)
  /\ Error (filename_too_long (be_value [b1; b2; b3; b4]))
     = "filename too long: " +:+ fmt_d (be_value [b1; b2; b3; b4]) +:+ " bytes".
Proof.
  intros Hbig. split; [exact (receiveFileInfo_oversize b1 b2 b3 b4 rest cl Hbig)|].
  reflexivity.
Qed.

(** A length of 256, then two more bytes. *)
Lemma oversize_name_rejected_witness :
  receiveFileInfo (mkConn [x00; x00; x01; x00; x61; x62] EOF)
  = (inl (ErrMsg "filename too long: 256 bytes"), mkConn [x61; x62] EOF).
Proof.
  apply (proj1 (oversize_name_rejected x00 x00 x01 x00 [x61; x62] EOF
                  ltac:(vm_compute; reflexivity))).
Defined.

(** C10. The encoder has no cap on the name: for a name longer than 255 bytes
    whose length fits 32 bits, [sendFileInfo] writes the whole frame, the
    oversize length in its first four bytes, and returns [nil]; it is the
    decoder that rejects the frame. *)
Theorem encoder_accepts_long_name (c : WConn) (fi : FileInfo) :
  255 < Z.of_nat (String.length (Filename fi)) < 2 ^ 32 ->
  (String.length (Filename fi) + 13 <= room c)%nat ->
  sendFileInfo c fi
  = (None, mkWConn (sent c ++ frame_bytes fi)
                   (room c - length (frame_bytes fi)) (werr c))
  /\ be_value (take 4 (frame_bytes fi)) = Z.of_nat (String.length (Filename fi))
  /\ forall (rest : list byte) (cl : error),
       fst (receiveFileInfo (mkConn (frame_bytes fi ++ rest) cl))
       = inl (filename_too_long (Z.of_nat (String.length (Filename fi)))).
Proof.
  intros Hlen Hroom.
  assert (Hfield : be_value (be_bytes 4 (to_uint32 (Z.of_nat (String.length (Filename fi)))))
                   = Z.of_nat (String.length (Filename fi))).
  { rewrite be_value_be_bytes. unfold to_uint32.
    change (256 ^ Z.of_nat 4) with (2 ^ 32).
    rewrite Z.mod_mod by lia. apply Z.mod_small. lia. }
  split; [|split].
  - apply sendFileInfo_ok. rewrite length_frame_bytes. exact Hroom.
  - unfold frame_bytes.
    rewrite take_app_length' by (symmetry; apply length_be_bytes). exact Hfield.
  - intros rest cl. unfold frame_bytes. rewrite <- !app_assoc.
    remember (be_bytes 4 (to_uint32 (Z.of_nat (String.length (Filename fi)))))
      as field eqn:Ef.
    assert (Hl : length field = 4%nat) by (subst; apply length_be_bytes).
    destruct field as [|b1 [|b2 [|b3 [|b4 [|? ?]]]]]; try discriminate Hl.
    cbn [app]. rewrite receiveFileInfo_oversize by lia.
    cbn [fst]. rewrite Hfield. reflexivity.
Qed.

(** The name of 300 bytes goes out. *)
Lemma encoder_accepts_long_name_witness :
  sendFileInfo (mkWConn [] 1000 (ErrMsg "broken pipe"))
               (mkFileInfo long_name 7 false)
  = (None, mkWConn (frame_bytes (mkFileInfo long_name 7 false)) 687
                   (ErrMsg "broken pipe")).
Proof.
  apply (proj1 (encoder_accepts_long_name
                  (mkWConn [] 1000 (ErrMsg "broken pipe"))
                  (mkFileInfo long_name 7 false)
                  ltac:(vm_compute; split; reflexivity)
                  ltac:(vm_compute; lia))).
Defined.

(** On a stream the peer closed, [receiveFileInfo] fails in three ways only. *)
Lemma receiveFileInfo_error_clean (c : Conn) (e : error) (c' : Conn) :
  closing c = EOF ->
  receiveFileInfo c = (inl e, c') ->
  e = EOF \/ e = ErrUnexpectedEOF
  \/ exists n : Z, 255 < n /\ e = filename_too_long n.
Proof.
  intros Hcl. unfold receiveFileInfo.
  destruct (binary_Read c 4) as [[e1|len] c1] eqn:E1.
  { intros H; inversion H; subst.
    destruct (binary_Read_error_clean _ _ _ _ Hcl E1); auto. }
  assert (Hcl1 : closing c1 = EOF).
  { pose proof (binary_Read_closing c 4) as H. rewrite E1 in H.
    cbn in H. congruence. }
  unfold maxFilenameLen. destruct (Z.ltb_spec 255 len).
  { intros H'; inversion H'; subst. right; right. eauto. }
  destruct (ReadFull c1 (Z.to_nat len)) as [[bs [e2|]] c2] eqn:E2.
  { intros H'; inversion H'; subst.
    destruct (ReadFull_error_clean _ _ _ _ _ Hcl1 E2); auto. }
  assert (Hcl2 : closing c2 = EOF).
  { pose proof (ReadFull_closing c1 (Z.to_nat len)) as H'. rewrite E2 in H'.
    cbn in H'. congruence. }
  destruct (binary_Read c2 8) as [[e3|u] c3] eqn:E3.
  { intros H'; inversion H'; subst.
    destruct (binary_Read_error_clean _ _ _ _ Hcl2 E3); auto. }
  assert (Hcl3 : closing c3 = EOF).
  { pose proof (binary_Read_closing c2 8) as H'. rewrite E3 in H'.
    cbn in H'. congruence. }
  destruct (ReadFull c3 1) as [[bs' [e4|]] c4] eqn:E4.
  { intros H'; inversion H'; subst.
    destruct (ReadFull_error_clean _ _ _ _ _ Hcl3 E4); auto. }
  intros H'; inversion H'.
Qed.

Lemma receiveFileInfo_closing (c : Conn) :
  closing (snd (receiveFileInfo c)) = closing c.
Proof.
  unfold receiveFileInfo.
  pose proof (binary_Read_closing c 4) as H1.
  destruct (binary_Read c 4) as [[e1|len] c1]; [exact H1|]. cbn in H1.
  destruct (maxFilenameLen <? len); [exact H1|].
  pose proof (ReadFull_closing c1 (Z.to_nat len)) as H2.
  destruct (ReadFull c1 (Z.to_nat len)) as [[bs [e2|]] c2]; cbn in H2;
    [cbn; congruence|].
  pose proof (binary_Read_closing c2 8) as H3.
  destruct (binary_Read c2 8) as [[e3|u] c3]; cbn in H3; [cbn; congruence|].
  pose proof (ReadFull_closing c3 1) as H4.
  destruct (ReadFull c3 1) as [[bs' [e4|]] c4]; cbn in H4; cbn; congruence.
Qed.

(** ** The text of errors *)

Lemma occurs_app (c : ascii) (s t : string) :
  occurs c (s +:+ t) = occurs c s || occurs c t.
Proof.
  induction s as [|a s IH]; simpl; [reflexivity|].
  rewrite IH. apply orb_assoc.
Qed.

Lemma prefix_occurs (c : ascii) (sub s : string) :
  String.prefix sub s = true -> occurs c sub = true -> occurs c s = true.
Proof.
  revert s. induction sub as [|a sub IH]; intros s Hp Hc; [discriminate Hc|].
  destruct s as [|b s]; simpl in Hp; [discriminate Hp|].
  destruct (ascii_dec a b) as [->|Hne]; [|discriminate Hp].
  simpl in Hc |- *. apply orb_true_iff in Hc. destruct Hc as [Hc|Hc].
  - rewrite Hc. reflexivity.
  - rewrite (IH s Hp Hc). apply orb_true_r.
Qed.

Lemma Contains_occurs (c : ascii) (s sub : string) :
  Contains s sub = true -> occurs c sub = true -> occurs c s = true.
Proof.
  induction s as [|a s IH]; intros Hin Hc.
  - change (String.prefix sub EmptyString || false = true) in Hin.
    rewrite orb_false_r in Hin. exact (prefix_occurs c sub _ Hin Hc).
  - change (String.prefix sub (String a s) || Contains s sub = true) in Hin.
    apply orb_true_iff in Hin. destruct Hin as [Hp|Hin].
    + exact (prefix_occurs c sub _ Hp Hc).
    + simpl. rewrite (IH Hin Hc). apply orb_true_r.
Qed.

Lemma not_Contains (c : ascii) (s sub : string) :
  occurs c sub = true -> occurs c s = false -> Contains s sub = false.
Proof.
  intros Hsub Hs. destruct (Contains s sub) eqn:E; [|reflexivity].
  rewrite (Contains_occurs c s sub E Hsub) in Hs. discriminate.
Qed.

Lemma occurs_digits (c : ascii) (d : Decimal.uint) :
  is_digit c = false -> occurs c (NilEmpty.string_of_uint d) = false.
Proof.
  intros Hc. induction d; simpl; try reflexivity;
    rewrite IHd, orb_false_r;
    destruct (Ascii.eqb_spec c "0"), (Ascii.eqb_spec c "1"),
             (Ascii.eqb_spec c "2"), (Ascii.eqb_spec c "3"),
             (Ascii.eqb_spec c "4"), (Ascii.eqb_spec c "5"),
             (Ascii.eqb_spec c "6"), (Ascii.eqb_spec c "7"),
             (Ascii.eqb_spec c "8"), (Ascii.eqb_spec c "9");
    subst; try discriminate; reflexivity.
Qed.

Lemma occurs_fmt_d (c : ascii) (n : Z) :
  is_digit c = false -> occurs c (fmt_d n) = false.
Proof.
  intros Hc. unfold fmt_d, NilZero.string_of_uint.
  destruct (N.to_uint (Z.to_N n)) eqn:E;
    try (rewrite <- E; apply occurs_digits; exact Hc).
  simpl. destruct (Ascii.eqb_spec c "0"); [subst; discriminate|reflexivity].
Qed.

(** The rejection of an oversize name is not taken for the end of the
    connection, whatever the length it reports. *)
Lemma too_long_not_termination (n : Z) : is_termination (filename_too_long n) = false.
Proof.
  unfold is_termination, filename_too_long. cbn [is_EOF Error orb].
  assert (H : forall c, is_digit c = false ->
            occurs c "filename too long: " = false ->
            occurs c " bytes" = false ->
            occurs c ("filename too long: " +:+ fmt_d n +:+ " bytes") = false).
  { intros c Hd H1 H2. rewrite !occurs_app, H1, H2, occurs_fmt_d by exact Hd.
    reflexivity. }
  rewrite (not_Contains "c" _ "closed"), (not_Contains "r" _ "reset"),
    (not_Contains "u" _ "unexpected EOF");
    try reflexivity; apply H; reflexivity.
Qed.

(** ** The receiver loop: how it ends *)

Lemma receiveFileRaw_decode_error (elapsed : nat -> Z) (fuel : nat)
    (st : Receiver) (e : error) (c' : Conn) :
  receiveFileInfo (conn st) = (inl e, c') ->
  receiveFileRaw elapsed (S fuel) st
  = Some (if is_termination e then None
          else Some (Wrap "failed to receive file info" e),
          set_conn c' st).
Proof.
  intros H. cbn [receiveFileRaw]. unfold receiveItem. rewrite H.
  destruct (is_termination e); reflexivity.
Qed.

(** C3, as the code has it. A clean end of the stream before any byte of a
    frame makes [receiveFileRaw] return [nil]. On a stream the peer closed,
    a failure of the decoder is either the end of the stream, at the frame
    boundary or inside a frame, and then [receiveFileRaw] returns [nil] all
    the same, or the rejection of an oversize name, and then it returns the
    error "failed to receive file info". *)
Theorem decode_failure_outcome (elapsed : nat -> Z) (fuel : nat) :
  (forall (d : gmap string entry) (g : Globals),
     receiveFileRaw elapsed (S fuel) (mkReceiver (mkConn [] EOF) d g)
     = Some (None, mkReceiver (mkConn [] EOF) d g))
  /\ (forall (st : Receiver) (e : error) (c' : Conn),
        closing (conn st) = EOF ->
        receiveFileInfo (conn st) = (inl e, c') ->
        ((e = EOF \/ e = ErrUnexpectedEOF)
         /\ receiveFileRaw elapsed (S fuel) st = Some (None, set_conn c' st))
        \/ ((exists n : Z, 255 < n /\ e = filename_too_long n)
            /\ receiveFileRaw elapsed (S fuel) st
               = Some (Some (Wrap "failed to receive file info" e),
                       set_conn c' st))).
Proof.
  split.
  - intros d g. reflexivity.
  - intros st e c' Hcl Hdec.
    rewrite (receiveFileRaw_decode_error elapsed fuel st e c' Hdec).
    destruct (receiveFileInfo_error_clean _ _ _ Hcl Hdec) as [->|[->|(n & Hn & ->)]].
    + left. split; [auto|reflexivity].
    + left. split; [auto|reflexivity].
    + right. split; [eauto|]. rewrite too_long_not_termination. reflexivity.
Qed.

(** Two bytes of a length field, then the end of the stream. *)
Lemma decode_failure_outcome_witness :
  receiveFileRaw (fun _ => 0) 1
    (mkReceiver (mkConn [x00; x00] EOF) ∅ (mkGlobals (NewProgressWriter 0 EmptyString) []))
  = Some (None,
          mkReceiver (mkConn [] EOF) ∅ (mkGlobals (NewProgressWriter 0 EmptyString) [])).
Proof.
  destruct (proj2 (decode_failure_outcome (fun _ => 0) 0)
              (mkReceiver (mkConn [x00; x00] EOF) ∅
                          (mkGlobals (NewProgressWriter 0 EmptyString) []))
              ErrUnexpectedEOF (mkConn [] EOF) eq_refl eq_refl)
    as [[_ H]|[[n [_ Hn]] _]].
  - exact H.
  - discriminate Hn.
Defined.

(** C3 as the claim states it fails: not every failure of the decoder other
    than the clean end of the stream makes [receiveFileRaw] return an error.
    After two bytes of a length field and the end of the stream it returns
    [nil]. *)
Lemma truncated_frame_taken_for_end :
  ~ (forall (elapsed : nat -> Z) (fuel : nat) (st : Receiver) (e : error)
            (c' : Conn),
        receiveFileInfo (conn st) = (inl e, c') ->
        pending (conn st) <> [] ->
        exists (err : error) (st' : Receiver),
          receiveFileRaw elapsed (S fuel) st = Some (Some err, st')).
Proof.
  intros H.
  destruct (H (fun _ => 0) 0%nat
              (mkReceiver (mkConn [x00; x00] EOF) ∅
                          (mkGlobals (NewProgressWriter 0 EmptyString) []))
              ErrUnexpectedEOF (mkConn [] EOF) eq_refl)
    as (err & st' & Hret); [discriminate|].
  vm_compute in Hret. discriminate Hret.
Qed.

(** ** The receiver loop: files *)

Ltac state_simpl :=
  cbn [set_conn set_disk set_rglobals conn disk rglobals pending closing].

Lemma os_Create_lookup (d d' : gmap string entry) (name : string) :
  os_Create d name = inr d' -> d' !! name = Some (EFile []).
Proof.
  unfold os_Create.
  destruct (stat d name) as [[|?]|]; [discriminate|..];
    (destruct (has_nul name); [discriminate|];
     destruct (stat d (Dir name)) as [[|?]|]; [|discriminate..];
     intros H; inversion H; apply lookup_insert_eq).
Qed.

Lemma create_target_lookup (d d' : gmap string entry) (name : string) :
  create_target d name = inr d' -> d' !! target_path name = Some (EFile []).
Proof.
  unfold create_target.
  destruct (os_MkdirAll d receiveDir) as [[?|] d1]; [discriminate|].
  match goal with
  | |- match ?x with _ => _ end = _ -> _ => destruct x as [[?|] d2]
  end; [discriminate|].
  apply os_Create_lookup.
Qed.

Lemma file_Write_lookup (d : gmap string entry) (name : string)
    (w p : list byte) :
  d !! name = Some (EFile w) ->
  file_Write d name p !! name = Some (EFile (w ++ p)).
Proof.
  intros H. unfold file_Write. rewrite H. apply lookup_insert_eq.
Qed.

(** A frame for a file whose target can be created: the turn of the loop is
    the content loop, then the last progress update. *)
Lemma receiveItem_file (elapsed : nat -> Z) (fuel : nat) (st : Receiver)
    (fi : FileInfo) (c' : Conn) (d' : gmap string entry) :
  receiveFileInfo (conn st) = (inr fi, c') ->
  IsDirectory fi = false ->
  create_target (disk st) (Filename fi) = inr d' ->
  receiveItem elapsed fuel st
  = match
      receiveContent elapsed fuel fi (target_path (Filename fi)) 0
        (mkReceiver c' d'
           (set_progressWriter
              (NewProgressWriter (FileSize fi) (Base (Filename fi)))
              (rglobals st)))
    with
    | None => None
    | Some (Return err, st') => Some (Return err, st')
    | Some (Continue, st') =>
      let g := observe elapsed (FileSize fi) (rglobals st') in
      Some (Continue,
            set_rglobals (set_progressWriter (Finalize (progressWriter g)) g) st')
    end.
Proof.
  intros Hdec Hfile Hcreate. unfold receiveItem. rewrite Hdec, Hfile.
  unfold create_target, target_path in Hcreate.
  state_simpl.
  destruct (os_MkdirAll (disk st) receiveDir) as [[?|] d1]; [discriminate|].
  state_simpl.
  match type of Hcreate with
  | match ?x with _ => _ end = _ => destruct x as [[?|] d2]
  end; [discriminate|].
  state_simpl.
  rewrite Hcreate. reflexivity.
Qed.

(** ** The content loop *)

(** The content loop never ends on a stream the peer closed before the
    declared size was reached: every read past the end reports [EOF] again
    and the count stays below the size. *)
Lemma receiveContent_spins (elapsed : nat -> Z) (fuel : nat) (fi : FileInfo)
    (fullPath : string) :
  forall (totalReceived : Z) (st : Receiver),
    closing (conn st) = EOF ->
    totalReceived + Z.of_nat (length (pending (conn st))) < FileSize fi ->
    receiveContent elapsed fuel fi fullPath totalReceived st = None.
Proof.
  induction fuel as [|fuel IH]; intros tot st Hcl Hshort; [reflexivity|].
  cbn [receiveContent].
  destruct (Z.ltb_spec tot (FileSize fi)) as [_|?]; [|lia].
  set (readSize := if FileSize fi - tot <? chunkSize
                   then FileSize fi - tot else chunkSize).
  assert (Hrs : 0 < readSize <= FileSize fi - tot).
  { unfold readSize, chunkSize.
    destruct (Z.ltb_spec (FileSize fi - tot) (32 * 1024)); lia. }
  unfold ReadFull.
  destruct (Nat.leb_spec (Z.to_nat readSize) (length (pending (conn st))))
    as [Hle|Hlt].
  - cbn [read_failed set_conn set_disk set_rglobals conn disk rglobals].
    rewrite length_take, Nat.min_l by exact Hle.
    destruct (Z.leb_spec (FileSize fi) (tot + Z.of_nat (Z.to_nat readSize)));
      [lia|].
    apply IH; state_simpl; [exact Hcl|].
    rewrite length_drop. lia.
  - assert (Herr : read_failed
              (Some match pending (conn st) with
                    | [] => closing (conn st)
                    | _ :: _ => if is_EOF (closing (conn st))
                                then ErrUnexpectedEOF else closing (conn st)
                    end) = None).
    { rewrite Hcl. destruct (pending (conn st)); reflexivity. }
    cbv zeta. rewrite Herr.
    state_simpl.
    destruct (Z.leb_spec (FileSize fi)
                (tot + Z.of_nat (length (pending (conn st))))); [lia|].
    apply IH; state_simpl; [exact Hcl|]. cbn [length]. lia.
Qed.

(** C2, what the code does where the claim asks for an error. A file
    descriptor declares more bytes than the stream holds and the peer closes
    the stream: for no amount of fuel does [receiveFileRaw] return. The
    content loop reads the end of the stream again and again. *)
Theorem truncated_content_never_returns (elapsed : nat -> Z) (fuel : nat)
    (fi : FileInfo) (content : list byte) (d d' : gmap string entry)
    (g : Globals) :
  (String.length (Filename fi) <= 255)%nat ->
  int64_range (FileSize fi) ->
  IsDirectory fi = false ->
  Z.of_nat (length content) < FileSize fi ->
  create_target d (Filename fi) = inr d' ->
  receiveFileRaw elapsed fuel
    (mkReceiver (mkConn (frame_bytes fi ++ content) EOF) d g) = None.
Proof.
  intros Hlen Hsize Hfile Hshort Hcreate.
  destruct fuel as [|fuel]; [reflexivity|].
  cbn [receiveFileRaw].
  rewrite (receiveItem_file elapsed fuel _ fi (mkConn content EOF) d');
    [|apply receiveFileInfo_frame; assumption|exact Hfile|exact Hcreate].
  rewrite receiveContent_spins; [reflexivity|reflexivity|].
  cbn [conn pending]. lia.
Qed.

(** A file of 1000 bytes declared, two bytes sent, the stream closed. *)
Lemma truncated_content_never_returns_witness :
  receiveFileRaw (fun _ => 0) 1000
    (mkReceiver
       (mkConn (frame_bytes (mkFileInfo "f" 1000 false) ++ [x61; x62]) EOF)
       ∅ (mkGlobals (NewProgressWriter 0 EmptyString) [])) = None.
Proof.
  apply (truncated_content_never_returns (fun _ => 0) 1000
           (mkFileInfo "f" 1000 false) [x61; x62] ∅
           (<["received/f" := EFile []]> (<["received" := EDir]> ∅)));
    [cbn; lia | unfold int64_range; cbn; lia | reflexivity | cbn; lia
    | vm_compute; reflexivity].
Defined.

(** When the connection breaks before the declared size is reached, the loop
    returns the error of the connection and leaves the file short. *)
Lemma receiveContent_broken (elapsed : nat -> Z) (fi : FileInfo)
    (fullPath : string) (e : error) (fuel : nat) :
  is_EOF e = false -> is_ErrUnexpectedEOF e = false ->
  forall (totalReceived : Z) (st : Receiver) (w : list byte),
    closing (conn st) = e ->
    totalReceived + Z.of_nat (length (pending (conn st))) < FileSize fi ->
    disk st !! fullPath = Some (EFile w) ->
    Z.of_nat (length w) = totalReceived ->
    (length (pending (conn st)) < fuel)%nat ->
    exists (st' : Receiver) (w' : list byte),
      receiveContent elapsed fuel fi fullPath totalReceived st
      = Some (Return (Some e), st')
      /\ disk st' !! fullPath = Some (EFile w')
      /\ Z.of_nat (length w') < FileSize fi.
Proof.
  intros He1 He2.
  induction fuel as [|fuel IH]; intros tot st w Hcl Hshort Hw Hlen Hfuel; [lia|].
  cbn [receiveContent].
  destruct (Z.ltb_spec tot (FileSize fi)) as [_|?]; [|lia].
  set (readSize := if FileSize fi - tot <? chunkSize
                   then FileSize fi - tot else chunkSize).
  assert (Hrs : 0 < readSize <= FileSize fi - tot).
  { unfold readSize, chunkSize.
    destruct (Z.ltb_spec (FileSize fi - tot) (32 * 1024)); lia. }
  unfold ReadFull.
  destruct (Nat.leb_spec (Z.to_nat readSize) (length (pending (conn st))))
    as [Hle|Hlt].
  - cbn [read_failed]. state_simpl.
    rewrite length_take, Nat.min_l by exact Hle.
    destruct (Z.leb_spec (FileSize fi) (tot + Z.of_nat (Z.to_nat readSize)));
      [lia|].
    apply (IH _ _ (w ++ take (Z.to_nat readSize) (pending (conn st))));
      state_simpl.
    + exact Hcl.
    + rewrite length_drop. lia.
    + apply file_Write_lookup, Hw.
    + rewrite length_app, length_take. lia.
    + rewrite length_drop. lia.
  - assert (Herr : read_failed
              (Some match pending (conn st) with
                    | [] => closing (conn st)
                    | _ :: _ => if is_EOF (closing (conn st))
                                then ErrUnexpectedEOF else closing (conn st)
                    end) = Some e).
    { rewrite Hcl, He1. destruct (pending (conn st)); cbn [read_failed];
        now rewrite He1, He2. }
    cbv zeta. rewrite Herr. eexists; exists w.
    split; [reflexivity|]. state_simpl. split; [exact Hw|lia].
Qed.

(** The same truncation on a connection that breaks instead of closing:
    [receiveFileRaw] returns the error and the short file stays on the disk. *)
Lemma truncated_content_broken_connection (elapsed : nat -> Z)
    (fi : FileInfo) (content : list byte) (e : error)
    (d d' : gmap string entry) (g : Globals) :
  (String.length (Filename fi) <= 255)%nat ->
  int64_range (FileSize fi) ->
  IsDirectory fi = false ->
  Z.of_nat (length content) < FileSize fi ->
  is_EOF e = false -> is_ErrUnexpectedEOF e = false ->
  create_target d (Filename fi) = inr d' ->
  exists (st' : Receiver) (w : list byte),
    receiveFileRaw elapsed (S (S (length content)))
      (mkReceiver (mkConn (frame_bytes fi ++ content) e) d g)
    = Some (Some e, st')
    /\ disk st' !! target_path (Filename fi) = Some (EFile w)
    /\ Z.of_nat (length w) < FileSize fi.
Proof.
  intros Hlen Hsize Hfile Hshort He1 He2 Hcreate.
  cbn [receiveFileRaw].
  rewrite (receiveItem_file elapsed _ _ fi (mkConn content e) d');
    [|apply receiveFileInfo_frame; assumption|exact Hfile|exact Hcreate].
  edestruct (receiveContent_broken elapsed fi (target_path (Filename fi)) e
               (S (length content)) He1 He2 0
               (mkReceiver (mkConn content e) d'
                  (set_progressWriter
                     (NewProgressWriter (FileSize fi) (Base (Filename fi))) g))
               []) as (st' & w & Hrun & Hdisk & Hw); state_simpl.
  - reflexivity.
  - lia.
  - exact (create_target_lookup _ _ _ Hcreate).
  - reflexivity.
  - lia.
  - cbn [rglobals]. rewrite Hrun. exists st', w. auto.
Qed.



(** C9. Negative sizes are accepted: [receiveFileInfo] decodes a frame that
    declares a negative size without complaint; for a file whose target can
    be created, the receiver creates the file, empty, takes no byte of
    content from the stream (the content loop does not start) and goes on to
    the next frame, no error returned. *)
Theorem negative_size_accepted (elapsed : nat -> Z) (fuel : nat)
    (fi : FileInfo) (rest : list byte) (cl : error)
    (d d' : gmap string entry) (g : Globals) :
  (String.length (Filename fi) <= 255)%nat ->
  - 2 ^ 63 <= FileSize fi < 0 ->
  IsDirectory fi = false ->
  create_target d (Filename fi) = inr d' ->
  let st := mkReceiver (mkConn (frame_bytes fi ++ rest) cl) d g in
  receiveFileInfo (conn st) = (inr fi, mkConn rest cl)
  /\ d' !! target_path (Filename fi) = Some (EFile [])
  /\ exists g' : Globals,
       receiveItem elapsed (S fuel) st
       = Some (Continue, mkReceiver (mkConn rest cl) d' g')
       /\ receiveFileRaw elapsed (S (S fuel)) st
          = receiveFileRaw elapsed (S fuel) (mkReceiver (mkConn rest cl) d' g').
Proof.
  intros Hlen Hneg Hfile Hcreate st.
  assert (Hdec : receiveFileInfo (conn st) = (inr fi, mkConn rest cl)).
  { apply receiveFileInfo_frame; [exact Hlen|unfold int64_range; lia]. }
  split; [exact Hdec|]. split; [exact (create_target_lookup _ _ _ Hcreate)|].
  assert (Hitem : forall k, exists g' : Globals,
            receiveItem elapsed (S k) st
            = Some (Continue, mkReceiver (mkConn rest cl) d' g')).
  { intros k.
    rewrite (receiveItem_file elapsed (S k) st fi (mkConn rest cl) d' Hdec Hfile Hcreate).
    cbn [receiveContent].
    destruct (Z.ltb_spec 0 (FileSize fi)); [lia|].
    eexists. reflexivity. }
  destruct (Hitem fuel) as [g' Hg']. exists g'. split; [exact Hg'|].
  change (receiveFileRaw elapsed (S (S fuel)) st)
    with (match receiveItem elapsed (S fuel) st with
          | None => None
          | Some (Return err, st') => Some (err, st')
          | Some (Continue, st') => receiveFileRaw elapsed (S fuel) st'
          end).
  rewrite Hg'. reflexivity.
Qed.

(** A file of size -5 on an empty disk, two bytes behind its frame. *)
Lemma negative_size_accepted_witness :
  exists g' : Globals,
    receiveItem (fun _ => 0) 1
      (mkReceiver
         (mkConn (frame_bytes (mkFileInfo "n" (-5) false) ++ [x00; x00]) EOF)
         ∅ (mkGlobals (NewProgressWriter 0 EmptyString) []))
    = Some (Continue,
            mkReceiver (mkConn [x00; x00] EOF)
              (<["received/n" := EFile []]> (<["received" := EDir]> ∅)) g').
Proof.
  destruct (negative_size_accepted (fun _ => 0) 0
              (mkFileInfo "n" (-5) false) [x00; x00] EOF ∅
              (<["received/n" := EFile []]> (<["received" := EDir]> ∅))
              (mkGlobals (NewProgressWriter 0 EmptyString) []))
    as (_ & _ & g' & Hitem & _);
    [cbn; lia | cbn; lia | reflexivity | vm_compute; reflexivity |].
  exists g'. exact Hitem.
Defined.

(** ** The progress tracker does not steer the transfer *)

Lemma receiveContent_same_transfer (e1 e2 : nat -> Z) (fuel : nat)
    (fi : FileInfo) (fullPath : string) :
  forall (totalReceived : Z) (s1 s2 : Receiver),
    conn s1 = conn s2 -> disk s1 = disk s2 ->
    same_transfer (receiveContent e1 fuel fi fullPath totalReceived s1)
                  (receiveContent e2 fuel fi fullPath totalReceived s2).
Proof.
  induction fuel as [|fuel IH]; intros tot s1 s2 Hc Hd; [exact I|].
  destruct s1 as [c1 d1 g1], s2 as [c2 d2 g2]. cbn in Hc, Hd. subst c2 d2.
  cbn [receiveContent]. state_simpl.
  destruct (tot <? FileSize fi); [|cbn; auto].
  destruct (ReadFull c1 _) as [[chunk err] c'].
  destruct (read_failed err); [cbn; auto|].
  destruct (FileSize fi <=? tot + Z.of_nat (length chunk)); [cbn; auto|].
  apply IH; reflexivity.
Qed.

Lemma receiveItem_same_transfer (e1 e2 : nat -> Z) (fuel : nat)
    (s1 s2 : Receiver) :
  conn s1 = conn s2 -> disk s1 = disk s2 ->
  same_transfer (receiveItem e1 fuel s1) (receiveItem e2 fuel s2).
Proof.
  intros Hc Hd.
  destruct s1 as [c1 d0 g1], s2 as [c2 d0' g2]. cbn in Hc, Hd. subst c2 d0'.
  unfold receiveItem. state_simpl.
  destruct (receiveFileInfo c1) as [[e|fi] c'].
  { destruct (is_termination e); cbn; auto. }
  state_simpl.
  destruct (os_MkdirAll d0 receiveDir) as [[e|] d1]; [cbn; auto|].
  state_simpl.
  destruct (IsDirectory fi).
  { destruct (os_MkdirAll d1 _) as [[e|] d2]; cbn; auto. }
  destruct (if _ : bool then os_MkdirAll d1 _ else _) as [[e|] d2]; [cbn; auto|].
  state_simpl.
  destruct (os_Create d2 _) as [e|d3]; [cbn; auto|].
  state_simpl.
  match goal with
  | |- same_transfer
         match receiveContent _ _ _ ?p ?t ?a with _ => _ end
         match receiveContent _ _ _ _ _ ?b with _ => _ end =>
    pose proof (receiveContent_same_transfer e1 e2 fuel fi p t a b
                  eq_refl eq_refl) as H;
    destruct (receiveContent e1 fuel fi p t a) as [[[?|] ?]|],
             (receiveContent e2 fuel fi p t b) as [[[?|] ?]|]
  end; cbn in H |- *; try tauto;
    destruct H as (H1 & H2 & H3); try discriminate H1; auto.
Qed.

Lemma receiveFileRaw_same_transfer (e1 e2 : nat -> Z) (fuel : nat) :
  forall s1 s2 : Receiver,
    conn s1 = conn s2 -> disk s1 = disk s2 ->
    same_transfer (receiveFileRaw e1 fuel s1) (receiveFileRaw e2 fuel s2).
Proof.
  induction fuel as [|fuel IH]; intros s1 s2 Hc Hd; [exact I|].
  cbn [receiveFileRaw].
  pose proof (receiveItem_same_transfer e1 e2 fuel s1 s2 Hc Hd) as H.
  destruct (receiveItem e1 fuel s1) as [[[?|] ?]|],
           (receiveItem e2 fuel s2) as [[[?|] ?]|];
    cbn in H |- *; try tauto; destruct H as (H1 & H2 & H3);
    try discriminate H1.
  - inversion H1; subst. auto.
  - apply IH; assumption.
Qed.

(** ** The receive directory *)

(** C5. The receive directory does not confine the receiver: there is a
    directory descriptor, and there is a file descriptor, whose name has [..]
    among its elements and which the receiver, starting from an empty disk,
    creates at a path outside [received]. *)
Theorem receive_root_not_enforced (elapsed : nat -> Z) (g : Globals) :
  (exists (fi : FileInfo) (st' : Receiver),
      In ".." (split_path (Filename fi))
      /\ IsDirectory fi = true
      /\ receiveFileRaw elapsed 2 (mkReceiver (mkConn (frame_bytes fi) EOF) ∅ g)
         = Some (None, st')
      /\ disk st' !! target_path (Filename fi) = Some EDir
      /\ inside_root (target_path (Filename fi)) = false)
  /\ (exists (fi : FileInfo) (content : list byte) (st' : Receiver),
        In ".." (split_path (Filename fi))
        /\ IsDirectory fi = false
        /\ receiveFileRaw elapsed 3
             (mkReceiver (mkConn (frame_bytes fi ++ content) EOF) ∅ g)
           = Some (None, st')
        /\ disk st' !! target_path (Filename fi) = Some (EFile content)
        /\ inside_root (target_path (Filename fi)) = false).
Proof.
  split.
  - exists (mkFileInfo "../evil" 0 true). eexists.
    split; [cbn; tauto|]. split; [reflexivity|].
    split; [vm_compute; reflexivity|]. split; vm_compute; reflexivity.
  - exists (mkFileInfo "../../home/user/.profile" 2 false), [x61; x62].
    pose proof (receiveFileRaw_same_transfer elapsed (fun _ => 0) 3
      (mkReceiver
         (mkConn (frame_bytes (mkFileInfo "../../home/user/.profile" 2 false)
                  ++ [x61; x62]) EOF) ∅ g)
      (mkReceiver
         (mkConn (frame_bytes (mkFileInfo "../../home/user/.profile" 2 false)
                  ++ [x61; x62]) EOF) ∅ (mkGlobals (NewProgressWriter 0 EmptyString) []))
      eq_refl eq_refl) as H.
    destruct (receiveFileRaw elapsed 3 _) as [[r st']|];
      destruct (receiveFileRaw (fun _ => 0) 3 _) as [[r0 st0]|] eqn:E0;
      vm_compute in E0; try discriminate E0; [|contradiction H].
    destruct H as (Hr & _ & Hd). inversion E0; subst r0 st0. subst r.
    exists st'. split; [cbn; tauto|]. split; [reflexivity|].
    split; [reflexivity|]. rewrite Hd. split; vm_compute; reflexivity.
Qed.

(** ** Progress *)

Lemma non_decreasing_cons (v : Z) (l : list Z) :
  Forall (fun w => v <= w) l -> non_decreasing l -> non_decreasing (v :: l).
Proof.
  intros Hall Hl. destruct l as [|w l]; [exact I|].
  split; [|exact Hl]. inversion Hall; assumption.
Qed.

Lemma non_decreasing_snoc (l : list Z) (v : Z) :
  Forall (fun w => w <= v) l -> non_decreasing l -> non_decreasing (l ++ [v]).
Proof.
  induction l as [|a l IH]; intros Hall Hl; [exact I|].
  inversion Hall as [|? ? Ha Hall']; subst.
  destruct l as [|b l]; [cbn; split; [exact Ha|exact I]|].
  destruct Hl as [Hab Hl]. split; [exact Hab|]. exact (IH Hall' Hl).
Qed.

Lemma observed_observe (elapsed : nat -> Z) (v : Z) (g : Globals) :
  observed (observe elapsed v g) = observed g ++ [v].
Proof. reflexivity. Qed.

Lemma total_printProgress (ms : Z) (pw : ProgressWriter) :
  total (printProgress ms pw) = total pw.
Proof.
  unfold printProgress.
  destruct (_ && _); [reflexivity|].
  destruct (_ && _); reflexivity.
Qed.

Lemma total_observe (elapsed : nat -> Z) (v : Z) (g : Globals) :
  total (progressWriter (observe elapsed v g)) = total (progressWriter g).
Proof.
  unfold observe. cbn [progressWriter]. now rewrite total_printProgress.
Qed.

(** An update with the total leaves the total in [current], printed or not. *)
Lemma current_printProgress_total (ms : Z) (pw : ProgressWriter) :
  current pw = total pw -> current (printProgress ms pw) = total pw.
Proof.
  intros H. unfold printProgress.
  destruct (_ && _); [exact H|].
  destruct (_ && _); cbn; [reflexivity|exact H].
Qed.

Lemma current_Finalize_total (pw : ProgressWriter) :
  current pw = total pw -> current (Finalize pw) = total pw.
Proof.
  intros H. unfold Finalize. destruct (0 <? total pw); [reflexivity|exact H].
Qed.

(** The last update of an item, [current = size; printProgress(); Finalize()]:
    the tracker holds the size. *)
Lemma current_final (elapsed : nat -> Z) (g : Globals) :
  current (Finalize (progressWriter (observe elapsed (total (progressWriter g)) g)))
  = total (progressWriter g).
Proof.
  set (t := total (progressWriter g)).
  assert (Ht : total (progressWriter (observe elapsed t g)) = t)
    by apply total_observe.
  rewrite <- Ht at 2. apply current_Finalize_total. rewrite Ht.
  unfold observe. cbn [progressWriter].
  now rewrite current_printProgress_total.
Qed.





Ltac sender_simpl :=
  cbn [set_out set_sglobals finalize out emitted sglobals set_progressWriter
       observed progressWriter].

Lemma sendChunks_observed (elapsed : nat -> Z) (fuel : nat) :
  forall (file : list byte) (totalSent : Z) (st : Sender) (o : outcome)
         (st' : Sender),
    sendChunks elapsed fuel file totalSent st = (o, st') ->
    emitted st' = emitted st
    /\ (o <> Return None)
    /\ total (progressWriter (sglobals st')) = total (progressWriter (sglobals st))
    /\ exists obs : list Z,
         observed (sglobals st') = observed (sglobals st) ++ obs
         /\ non_decreasing obs
         /\ Forall (fun v => totalSent <= v <= totalSent + Z.of_nat (length file))
                   obs.
Proof.
  induction fuel as [|fuel IH]; intros file tot st o st' H.
  { inversion H; subst. split; [reflexivity|]. split; [discriminate|].
    split; [reflexivity|].
    exists []. rewrite app_nil_r. repeat split; constructor. }
  cbn [sendChunks] in H.
  set (n := Z.min chunkSize (Z.of_nat (length file))) in H.
  assert (Hn : 0 <= n <= Z.of_nat (length file)) by (unfold n, chunkSize; lia).
  destruct (Z.eqb_spec n 0) as [Hz|Hnz].
  { inversion H; subst. split; [reflexivity|]. split; [discriminate|].
    split; [reflexivity|].
    exists []. rewrite app_nil_r. repeat split; constructor. }
  destruct (conn_Write (out st) (take (Z.to_nat n) file)) as [[e|] c].
  { inversion H; subst. split; [reflexivity|]. split; [discriminate|].
    split; [reflexivity|].
    exists []. rewrite app_nil_r. repeat split; constructor. }
  apply IH in H. destruct H as (Hem & Ho & Htotal & obs & Hobs & Hnd & Hall).
  revert Hem Htotal Hobs Hall. sender_simpl.
  rewrite observed_observe, total_observe, <- app_assoc, length_drop.
  intros Hem Htotal Hobs Hall. split; [exact Hem|]. split; [exact Ho|].
  split; [exact Htotal|].
  exists (tot + n :: obs). split; [exact Hobs|]. split.
  - apply non_decreasing_cons; [|exact Hnd].
    eapply Forall_impl; [exact Hall|]. cbn. intros; lia.
  - constructor; [lia|]. eapply Forall_impl; [exact Hall|]. cbn. intros; lia.
Qed.

(** The fuel [sendSingleFile] gives the loop is enough: when the loop is left
    without an error the whole file is on the wire. *)
Lemma sendChunks_sends_all (elapsed : nat -> Z) (fuel : nat) :
  forall (file : list byte) (totalSent : Z) (st st' : Sender),
    (length file < fuel)%nat ->
    sendChunks elapsed fuel file totalSent st = (Continue, st') ->
    sent (out st') = sent (out st) ++ file.
Proof.
  induction fuel as [|fuel IH]; intros file tot st st' Hfuel H; [lia|].
  cbn [sendChunks] in H.
  set (n := Z.min chunkSize (Z.of_nat (length file))) in H.
  assert (Hn : 0 <= n <= Z.of_nat (length file)) by (unfold n, chunkSize; lia).
  destruct (Z.eqb_spec n 0) as [Hz|Hnz].
  { inversion H; subst. destruct file; [now rewrite app_nil_r|].
    unfold n, chunkSize in Hz. cbn [length] in Hz. lia. }
  unfold conn_Write in H.
  destruct (length (take (Z.to_nat n) file) <=? room (out st))%nat;
    [|discriminate H].
  apply IH in H.
  - rewrite H. sender_simpl. cbn [sent]. rewrite <- app_assoc.
    now rewrite take_drop.
  - rewrite length_drop. lia.
Qed.

Lemma emit_emitted (fi : FileInfo) (st : Sender) :
  emitted (snd (emit fi st)) = emitted st ++ [fi]
  /\ observed (sglobals (snd (emit fi st))) = observed (sglobals st).
Proof.
  unfold emit. destruct (sendFileInfo (out st) fi). split; reflexivity.
Qed.

Lemma sendSingleFile_trace (elapsed : nat -> Z) (st st' : Sender) (size : Z)
    (file : list byte) (name : string) (err : option error) :
  sendSingleFile elapsed st size file name = (err, st') ->
  emitted st' = emitted st ++ [mkFileInfo name size false]
  /\ exists obs : list Z,
       observed (sglobals st') = observed (sglobals st) ++ obs
       /\ (Z.of_nat (length file) <= size -> non_decreasing obs)
       /\ (err = None ->
           last obs = Some size
           /\ current (progressWriter (sglobals st')) = size).
Proof.
  unfold sendSingleFile. cbn [FileSize].
  pose proof (emit_emitted (mkFileInfo name size false) st) as [Hem Hob].
  destruct (emit _ st) as [[e|] st1]; cbn [snd] in Hem, Hob.
  { intros H; inversion H; subst. split; [exact Hem|].
    exists []. rewrite app_nil_r. split; [congruence|].
    split; [intros _; exact I|discriminate]. }
  destruct (sendChunks elapsed (S (length file)) file 0 _) as [[e|] st2] eqn:Ec;
    intros H; inversion H; subst; clear H;
    apply sendChunks_observed in Ec;
    destruct Ec as (Hem2 & Ho & Htotal & obs & Hobs & Hnd & Hall);
    revert Hem2 Htotal Hobs; sender_simpl; cbn [total NewProgressWriter];
    intros Hem2 Htotal Hobs.
  - split; [congruence|]. exists obs. rewrite Hobs, Hob.
    split; [reflexivity|]. split; [intros _; exact Hnd|].
    intros ->. contradiction Ho. reflexivity.
  - split; [congruence|]. exists (obs ++ [size]).
    split; [rewrite observed_observe, Hobs, Hob, <- app_assoc; reflexivity|].
    split.
    + intros Hsize. apply non_decreasing_snoc; [|exact Hnd].
      eapply Forall_impl; [exact Hall|]. cbn. intros; lia.
    + intros _. split; [apply last_snoc|].
      rewrite <- Htotal. exact (current_final elapsed (sglobals st2)).
Qed.





(** ** The walk *)

Lemma visit_all_app (fn : string -> node -> Sender -> option error * Sender)
    (l1 l2 : list (string * node)) (st : Sender) :
  visit_all fn (l1 ++ l2) st
  = match visit_all fn l1 st with
    | (Some err, st') => (Some err, st')
    | (None, st') => visit_all fn l2 st'
    end.
Proof.
  revert st. induction l1 as [|[p n] l1 IH]; intros st; [reflexivity|].
  cbn [visit_all app]. destruct (fn p n st) as [[e|] st1]; [reflexivity|].
  apply IH.
Qed.

Lemma walk_path_snoc (root : string) (rel : list string) (name : string) :
  walk_path root (rel ++ [name]) = Join [walk_path root rel; name].
Proof. unfold walk_path. rewrite fold_left_app. reflexivity. Qed.

(** [filepath.Walk] calls the function on the descendants in order. *)
Lemma walk_descendants (fn : string -> node -> Sender -> option error * Sender)
    (root : string) :
  forall (info : node) (rel : list string) (st : Sender),
    walk fn (walk_path root rel) info st
    = visit_all fn (map (located root) (descendants rel info)) st.
Proof.
  fix IH 1. intros [file|entries] rel st.
  - cbn. destruct (fn _ _ st) as [[e|] st1]; reflexivity.
  - cbn [walk descendants map visit_all located fst snd].
    destruct (fn (walk_path root rel) (Directory entries) st) as [[e|] st1];
      [reflexivity|].
    clear st. revert st1.
    induction entries as [|[name child] entries IHe]; intros st; [reflexivity|].
    rewrite map_app, visit_all_app.
    rewrite <- (IH child (rel ++ [name]) st), walk_path_snoc.
    destruct (walk fn _ child st) as [[e|] st1]; [reflexivity|].
    apply IHe.
Qed.

(** What lies below a node has a longer way from the root of the walk. *)
Lemma descendants_below :
  forall (info : node) (rel : list string),
  exists ds : list (list string * node),
    descendants rel info = (rel, info) :: ds
    /\ Forall (fun d => exists s, s <> [] /\ fst d = rel ++ s) ds.
Proof.
  fix IH 1. intros [file|entries] rel.
  - exists []. split; [reflexivity|constructor].
  - cbn [descendants]. eexists. split; [reflexivity|].
    induction entries as [|[name child] entries IHe]; [constructor|].
    apply Forall_app. split; [|exact IHe].
    destruct (IH child (rel ++ [name])) as (ds & -> & Hds).
    constructor.
    + exists [name]. split; [discriminate|reflexivity].
    + eapply Forall_impl; [exact Hds|].
      intros d (s & Hs & ->). exists (name :: s).
      split; [discriminate|]. now rewrite <- app_assoc.
Qed.

(** ** What the sender emits *)

Lemma walkFn_emitted (elapsed : nat -> Z) (cwd dirPath absDirPath path : string)
    (info : node) (st : Sender) :
  exists new : list FileInfo,
    emitted (snd (walkFn elapsed cwd dirPath absDirPath path info st))
    = emitted st ++ new
    /\ Forall dir_size_zero new.
Proof.
  unfold walkFn.
  destruct (String.eqb path dirPath).
  { exists []. rewrite app_nil_r. split; [reflexivity|constructor]. }
  destruct (Rel absDirPath (Abs cwd path)) as [e|relPath].
  { exists []. rewrite app_nil_r. split; [reflexivity|constructor]. }
  destruct info as [file|entries].
  - destruct (sendSingleFile elapsed st _ file _) as [err st1] eqn:Es.
    apply sendSingleFile_trace in Es. destruct Es as (Hem & _).
    eexists. split.
    + destruct err; exact Hem.
    + constructor; [discriminate|constructor].
  - match goal with |- context [emit ?fi st] =>
      pose proof (proj1 (emit_emitted fi st)) as Hem;
      destruct (emit fi st) as [[e|] st1]
    end; cbn [snd] in Hem |- *; eexists; (split; [exact Hem|]);
      (constructor; [intros _; reflexivity|constructor]).
Qed.

Lemma visit_all_emitted
    (fn : string -> node -> Sender -> option error * Sender)
    (P : FileInfo -> Prop) :
  (forall path info st, exists new : list FileInfo,
      emitted (snd (fn path info st)) = emitted st ++ new /\ Forall P new) ->
  forall (visits : list (string * node)) (st : Sender),
  exists new : list FileInfo,
    emitted (snd (visit_all fn visits st)) = emitted st ++ new /\ Forall P new.
Proof.
  intros Hfn visits. induction visits as [|[p n] visits IH]; intros st.
  { exists []. rewrite app_nil_r. split; [reflexivity|constructor]. }
  cbn [visit_all]. destruct (Hfn p n st) as (new1 & H1 & HP1).
  destruct (fn p n st) as [[e|] st1]; cbn [snd] in H1.
  - exists new1. split; assumption.
  - destruct (IH st1) as (new2 & H2 & HP2). exists (new1 ++ new2).
    rewrite H2, H1, <- app_assoc. split; [reflexivity|].
    apply Forall_app; split; assumption.
Qed.

(** C7. Every descriptor the sender emits for a directory, the marker of the
    root and the markers of the directories below it, has size 0. *)
Theorem directory_descriptors_have_size_zero (elapsed : nat -> Z) (cwd : string)
    (st : Sender) (filePath : string) (info : node) :
  exists new : list FileInfo,
    emitted (snd (sendFileRaw elapsed cwd st filePath info)) = emitted st ++ new
    /\ Forall (fun fi => IsDirectory fi = true -> FileSize fi = 0) new.
Proof.
  destruct info as [file|entries]; cbn [sendFileRaw].
  - destruct (sendSingleFile elapsed st _ file _) as [err st1] eqn:Es.
    apply sendSingleFile_trace in Es. destruct Es as (Hem & _).
    eexists. split; [exact Hem|]. constructor; [discriminate|constructor].
  - unfold sendDirectoryRaw.
    pose proof (proj1 (emit_emitted (mkFileInfo (Base filePath) 0 true) st)) as Hem.
    destruct (emit _ st) as [[e|] st1]; cbn [snd] in Hem |- *.
    + eexists. split; [exact Hem|].
      constructor; [intros _; reflexivity|constructor].
    + change filePath with (walk_path filePath []) at 3.
      rewrite walk_descendants.
      destruct (visit_all_emitted (walkFn elapsed cwd filePath (Abs cwd filePath))
                  dir_size_zero
                  (walkFn_emitted elapsed cwd filePath (Abs cwd filePath))
                  (map (located filePath) (descendants [] (Directory entries)))
                  st1) as (new & Hnew & HP).
      exists (mkFileInfo (Base filePath) 0 true :: new).
      rewrite Hnew, Hem, <- app_assoc. split; [reflexivity|].
      constructor; [intros _; reflexivity|exact HP].
Qed.

(** ** Paths: splitting and joining *)

Lemma split_path_nonempty (s : string) : split_path s <> [].
Proof.
  destruct s as [|c s]; cbn [split_path]; [discriminate|].
  destruct (is_sep c); [discriminate|].
  destruct (split_path s); discriminate.
Qed.

Lemma split_path_no_sep (e : string) : has_sep e = false -> split_path e = [e].
Proof.
  induction e as [|c e IH]; intros H; [reflexivity|].
  cbn [has_sep] in H. apply orb_false_iff in H as [Hc He].
  cbn [split_path]. rewrite Hc, (IH He). reflexivity.
Qed.

Lemma split_path_app_sep (a b : string) :
  split_path (a +:+ String Separator b) = split_path a ++ split_path b.
Proof.
  induction a as [|c a IH].
  - reflexivity.
  - change (String c a +:+ String Separator b)
      with (String c (a +:+ String Separator b)).
    cbn [split_path]. rewrite IH.
    destruct (is_sep c); [reflexivity|].
    pose proof (split_path_nonempty a) as Hne.
    destruct (split_path a); [contradiction|reflexivity].
Qed.

Lemma split_path_sep_free (s : string) :
  Forall (fun e => has_sep e = false) (split_path s).
Proof.
  induction s as [|c s IH]; [repeat constructor|].
  cbn [split_path]. destruct (is_sep c) eqn:Hc.
  - constructor; [reflexivity|exact IH].
  - destruct (split_path s) as [|e es]; [repeat constructor; cbn; now rewrite Hc|].
    inversion IH; subst. constructor; [|assumption].
    cbn [has_sep]. rewrite Hc. assumption.
Qed.

Lemma join_path_cons (e : string) (es : list string) :
  es <> [] -> join_path (e :: es) = e +:+ String Separator (join_path es).
Proof. destruct es; [contradiction|reflexivity]. Qed.

Lemma split_join_path (es : list string) :
  es <> [] -> Forall (fun e => has_sep e = false) es ->
  split_path (join_path es) = es.
Proof.
  induction es as [|e es IH]; intros Hne Hall; [contradiction|].
  inversion Hall as [|? ? He Hes]; subst.
  destruct es as [|e' es]; [exact (split_path_no_sep e He)|].
  rewrite join_path_cons by discriminate.
  rewrite split_path_app_sep, split_path_no_sep by exact He.
  rewrite IH by (discriminate || assumption). reflexivity.
Qed.

Lemma plain_name_spec (e : string) :
  plain_name e = true ->
  String.eqb e EmptyString = false /\ String.eqb e "." = false
  /\ String.eqb e ".." = false /\ has_sep e = false.
Proof.
  unfold plain_name. rewrite !andb_true_iff, !negb_true_iff. tauto.
Qed.

Lemma plain_sep_free (es : list string) :
  Forall (fun e => plain_name e = true) es ->
  Forall (fun e => has_sep e = false) es.
Proof.
  intros H. eapply Forall_impl; [exact H|].
  intros e He. apply plain_name_spec in He. tauto.
Qed.

Lemma kept_name_spec (e : string) :
  kept_name e = true ->
  String.eqb e EmptyString = false /\ String.eqb e "." = false /\ has_sep e = false.
Proof.
  unfold kept_name. rewrite !andb_true_iff, !negb_true_iff. tauto.
Qed.

Lemma plain_kept (e : string) : plain_name e = true -> kept_name e = true.
Proof.
  intros H. apply plain_name_spec in H as (H1 & H2 & _ & H4).
  unfold kept_name. now rewrite H1, H2, H4.
Qed.

Lemma filter_plain (out : list string) :
  Forall (fun e => plain_name e = true) out ->
  List.filter (fun e => negb (String.eqb e EmptyString)) out = out.
Proof.
  induction out as [|e out IH]; intros H; [reflexivity|].
  inversion H as [|? ? He Hout]; subst. cbn [List.filter].
  apply plain_name_spec in He as (-> & _). cbn [negb]. now rewrite IH.
Qed.

Lemma plain_last (out : list string) (x : string) :
  Forall (fun e => plain_name e = true) out ->
  last out = Some x -> plain_name x = true.
Proof.
  intros H Hl. apply last_Some in Hl as [l' ->].
  apply Forall_app in H as [_ H]. now inversion H.
Qed.

(** ** Paths: cleaning *)

Lemma clean_elems_stack (r : bool) (stack elems : list string) :
  clean_elems r stack elems = rev (clean_stack r stack elems).
Proof.
  revert stack. induction elems as [|e es IH]; intros stack; [reflexivity|].
  cbn [clean_elems clean_stack].
  destruct (String.eqb e EmptyString || String.eqb e "."); [apply IH|].
  destruct (String.eqb e "..").
  - destruct stack as [|top below]; [destruct r; apply IH|].
    destruct (String.eqb top ".."); apply IH.
  - apply IH.
Qed.

Lemma clean_stack_app (r : bool) (stack xs ys : list string) :
  clean_stack r stack (xs ++ ys) = clean_stack r (clean_stack r stack xs) ys.
Proof.
  revert stack. induction xs as [|e es IH]; intros stack; [reflexivity|].
  cbn [clean_stack app].
  destruct (String.eqb e EmptyString || String.eqb e "."); [apply IH|].
  destruct (String.eqb e "..").
  - destruct stack as [|top below]; [destruct r; apply IH|].
    destruct (String.eqb top ".."); apply IH.
  - apply IH.
Qed.

Lemma clean_stack_plain_cons (r : bool) (stack : list string) (e : string)
    (es : list string) :
  plain_name e = true ->
  clean_stack r stack (e :: es) = clean_stack r (e :: stack) es.
Proof.
  intros He. apply plain_name_spec in He as (H1 & H2 & H3 & _).
  cbn [clean_stack]. rewrite H1, H2, H3. reflexivity.
Qed.

Lemma clean_stack_plain (r : bool) (stack cs : list string) :
  Forall (fun e => plain_name e = true) cs ->
  clean_stack r stack cs = rev cs ++ stack.
Proof.
  revert stack. induction cs as [|c cs IH]; intros stack H; [reflexivity|].
  inversion H; subst. rewrite clean_stack_plain_cons by assumption.
  rewrite IH by assumption. cbn [rev]. now rewrite <- app_assoc.
Qed.

Lemma clean_elems_plain (r : bool) (out : list string) :
  Forall (fun e => plain_name e = true) out -> clean_elems r [] out = out.
Proof.
  intros H. rewrite clean_elems_stack, clean_stack_plain by exact H.
  rewrite app_nil_r. apply rev_involutive.
Qed.

(** At the root the stack holds plain names only. *)
Lemma clean_stack_rooted_plain (stack elems : list string) :
  Forall (fun e => plain_name e = true) stack ->
  Forall (fun e => has_sep e = false) elems ->
  Forall (fun e => plain_name e = true) (clean_stack true stack elems).
Proof.
  revert stack. induction elems as [|e es IH]; intros stack Hst Hel; [exact Hst|].
  inversion Hel as [|? ? He Hes]; subst. cbn [clean_stack].
  destruct (String.eqb e EmptyString) eqn:E1; [apply IH; assumption|].
  destruct (String.eqb e ".") eqn:E2; [apply IH; assumption|].
  cbn [orb].
  destruct (String.eqb e "..") eqn:E3.
  - destruct stack as [|top below]; [apply IH; assumption|].
    inversion Hst as [|? ? Htop Hbelow]; subst.
    apply plain_name_spec in Htop as Htop'.
    destruct Htop' as (_ & _ & -> & _). apply IH; assumption.
  - apply IH; [|assumption]. constructor; [|assumption].
    unfold plain_name. now rewrite E1, E2, E3, He.
Qed.

Lemma clean_stack_kept (r : bool) (stack elems : list string) :
  Forall (fun e => kept_name e = true) stack ->
  Forall (fun e => has_sep e = false) elems ->
  Forall (fun e => kept_name e = true) (clean_stack r stack elems).
Proof.
  revert stack. induction elems as [|e es IH]; intros stack Hst Hel; [exact Hst|].
  inversion Hel as [|? ? He Hes]; subst. cbn [clean_stack].
  destruct (String.eqb e EmptyString) eqn:E1; [apply IH; assumption|].
  destruct (String.eqb e ".") eqn:E2; [apply IH; assumption|].
  cbn [orb].
  assert (Hk : kept_name e = true) by (unfold kept_name; now rewrite E1, E2, He).
  destruct (String.eqb e "..") eqn:E3.
  - destruct stack as [|top below].
    + destruct r; apply IH; try assumption. repeat constructor. exact Hk.
    + inversion Hst; subst.
      destruct (String.eqb top ".."); apply IH; try assumption.
      constructor; assumption.
  - apply IH; [|assumption]. constructor; assumption.
Qed.

(** Cleaning below the root first changes nothing to cleaning at the root:
    one element, then any number. *)
Lemma clean_stack_relative_step (S T : list string) (e : string) :
  Forall (fun e => kept_name e = true) T ->
  clean_stack true (clean_stack true S (rev T)) [e]
  = clean_stack true S (rev (clean_stack false T [e])).
Proof.
  intros HT. cbn [clean_stack].
  destruct (String.eqb e EmptyString || String.eqb e ".") eqn:E12; [reflexivity|].
  destruct (String.eqb e "..") eqn:E3.
  - apply String.eqb_eq in E3. subst e.
    destruct T as [|top below]; [reflexivity|].
    inversion HT as [|? ? Htop Hbelow]; subst.
    destruct (String.eqb top "..") eqn:Et.
    + change (rev (".." :: top :: below)) with (rev (top :: below) ++ [".."]).
      rewrite (clean_stack_app true S). reflexivity.
    + cbn [rev]. rewrite clean_stack_app.
      apply kept_name_spec in Htop as (T1 & T2 & T3).
      rewrite (clean_stack_plain_cons true _ top [])
        by (unfold plain_name; now rewrite T1, T2, Et, T3).
      cbn [clean_stack]. rewrite Et. reflexivity.
  - cbn [rev]. rewrite (clean_stack_app true S). cbn [clean_stack].
    rewrite E12, E3. reflexivity.
Qed.

Lemma clean_stack_relative_first (xs : list string) :
  forall S T : list string,
    Forall (fun e => kept_name e = true) T ->
    Forall (fun e => has_sep e = false) xs ->
    clean_stack true (clean_stack true S (rev T)) xs
    = clean_stack true S (rev (clean_stack false T xs)).
Proof.
  induction xs as [|e es IH]; intros S T HT Hxs; [reflexivity|].
  inversion Hxs as [|? ? He Hes]; subst.
  change (e :: es) with ([e] ++ es).
  rewrite !clean_stack_app, clean_stack_relative_step by exact HT.
  apply IH; [|exact Hes].
  apply clean_stack_kept; [exact HT|]. constructor; [exact He|constructor].
Qed.

Lemma Clean_rooted (p : string) :
  rooted p = true ->
  Clean p = "/" +:+ join_path (clean_elems true [] (split_path p)).
Proof. intros H. unfold Clean. rewrite H. reflexivity. Qed.

Lemma Clean_relative (p : string) (e : string) (out : list string) :
  rooted p = false ->
  clean_elems false [] (split_path p) = e :: out ->
  Clean p = join_path (e :: out).
Proof. intros H Hout. unfold Clean. rewrite H, Hout. reflexivity. Qed.

Lemma rooted_app (a b : string) :
  a <> EmptyString -> rooted (a +:+ b) = rooted a.
Proof. destruct a; [contradiction|reflexivity]. Qed.

Lemma rooted_not_empty (s : string) : rooted s = true -> String.eqb s EmptyString = false.
Proof. destruct s; [discriminate|reflexivity]. Qed.

Lemma kept_not_rooted (e : string) : kept_name e = true -> rooted e = false.
Proof.
  intros H. apply kept_name_spec in H as (H1 & _ & H3).
  destruct e as [|c e]; [reflexivity|].
  cbn [has_sep] in H3. apply orb_false_iff in H3 as [Hc _]. exact Hc.
Qed.

Lemma rooted_join_path (e : string) (es : list string) :
  kept_name e = true -> rooted (join_path (e :: es)) = false.
Proof.
  intros H. pose proof (kept_not_rooted e H) as Hr.
  destruct es as [|e' es]; [exact Hr|].
  rewrite join_path_cons by discriminate.
  rewrite rooted_app; [exact Hr|].
  apply kept_name_spec in H as (H1 & _). intros ->. discriminate H1.
Qed.

Lemma Clean_plain (c : string) : plain_name c = true -> Clean c = c.
Proof.
  intros H.
  rewrite (Clean_relative c c []); [reflexivity|..].
  - apply kept_not_rooted, plain_kept, H.
  - rewrite split_path_no_sep by (apply plain_name_spec in H; tauto).
    rewrite clean_elems_stack, clean_stack_plain by (repeat constructor; exact H).
    reflexivity.
Qed.

(** ** Paths: absolute forms *)

Lemma abs_elems_plain (cwd p : string) :
  Forall (fun e => plain_name e = true) (abs_elems cwd p).
Proof.
  unfold abs_elems. rewrite clean_elems_stack. apply Forall_rev.
  apply clean_stack_rooted_plain; [constructor|].
  apply Forall_app. split; [|apply split_path_sep_free].
  destruct (rooted p); [constructor|apply split_path_sep_free].
Qed.

(** The absolute form of a path, by its elements. *)
Lemma Abs_elems (cwd p : string) :
  rooted cwd = true ->
  Abs cwd p = "/" +:+ join_path (abs_elems cwd p).
Proof.
  intros Hcwd. unfold Abs, IsAbs, abs_elems.
  destruct (rooted p) eqn:Hp.
  - apply Clean_rooted, Hp.
  - cbn [Join]. rewrite (rooted_not_empty cwd Hcwd).
    change (join_path [cwd; p]) with (cwd +:+ String Separator p).
    rewrite Clean_rooted, split_path_app_sep; [reflexivity|].
    rewrite rooted_app; [exact Hcwd|]. intros ->. discriminate Hcwd.
Qed.

Lemma split_abs (out : list string) :
  Forall (fun e => plain_name e = true) out ->
  split_path ("/" +:+ join_path out)
  = EmptyString :: match out with [] => [EmptyString] | _ :: _ => out end.
Proof.
  intros H. change ("/" +:+ join_path out) with (String Separator (join_path out)).
  cbn [split_path]. change (is_sep Separator) with true. cbv iota.
  destruct out as [|e out]; [reflexivity|].
  rewrite split_join_path; [reflexivity|discriminate|apply plain_sep_free, H].
Qed.

Lemma abs_elems_abs (cwd : string) (out : list string) :
  Forall (fun e => plain_name e = true) out ->
  abs_elems cwd ("/" +:+ join_path out) = out.
Proof.
  intros H. unfold abs_elems.
  change (rooted ("/" +:+ join_path out)) with true. cbv iota.
  rewrite app_nil_l, split_abs by exact H.
  destruct out as [|e out]; [reflexivity|].
  change (clean_elems true [] (EmptyString :: e :: out))
    with (clean_elems true [] (e :: out)).
  apply clean_elems_plain, H.
Qed.

Lemma Clean_abs (out : list string) :
  Forall (fun e => plain_name e = true) out ->
  Clean ("/" +:+ join_path out) = "/" +:+ join_path out.
Proof.
  intros H. rewrite Clean_rooted by reflexivity. rewrite split_abs by exact H.
  destruct out as [|e out]; [reflexivity|].
  change (clean_elems true [] (EmptyString :: e :: out))
    with (clean_elems true [] (e :: out)).
  now rewrite clean_elems_plain.
Qed.

(** One more name below a path: one more element in its absolute form. *)
Lemma abs_elems_Join (cwd P c : string) :
  rooted cwd = true -> plain_name c = true ->
  abs_elems cwd (Join [P; c]) = abs_elems cwd P ++ [c].
Proof.
  intros Hcwd Hc.
  assert (Hc' := plain_name_spec c Hc). destruct Hc' as (C1 & C2 & C3 & C4).
  destruct P as [|a P].
  - (* the empty path: the name alone *)
    cbn [Join String.eqb]. rewrite C1.
    change (join_path [c]) with c. rewrite Clean_plain by exact Hc.
    unfold abs_elems. rewrite (kept_not_rooted c (plain_kept c Hc)).
    cbn [rooted]. rewrite (split_path_no_sep c) by exact C4.
    rewrite !clean_elems_stack, !clean_stack_app.
    rewrite (clean_stack_plain_cons true _ c []) by exact Hc.
    reflexivity.
  - cbn [Join]. change (String.eqb (String a P) EmptyString) with false. cbv iota.
    change (join_path [String a P; c]) with (String a P +:+ String Separator c).
    set (X := String a P +:+ String Separator c).
    assert (HX : split_path X = split_path (String a P) ++ [c]).
    { unfold X. now rewrite split_path_app_sep, (split_path_no_sep c). }
    assert (HrX : rooted X = rooted (String a P)) by reflexivity.
    destruct (rooted (String a P)) eqn:Hr.
    + rewrite Clean_rooted by exact HrX. rewrite HX.
      assert (Hout : clean_elems true [] (split_path (String a P) ++ [c])
                     = abs_elems cwd (String a P) ++ [c]).
      { unfold abs_elems. rewrite Hr, app_nil_l.
        rewrite !clean_elems_stack, clean_stack_app.
        rewrite (clean_stack_plain_cons true _ c []) by exact Hc.
        reflexivity. }
      rewrite Hout. apply abs_elems_abs.
      apply Forall_app. split; [apply abs_elems_plain|].
      constructor; [exact Hc|constructor].
    + set (T := clean_stack false [] (split_path (String a P))).
      assert (HT : Forall (fun e => kept_name e = true) T).
      { apply clean_stack_kept; [constructor|apply split_path_sep_free]. }
      assert (Hout : clean_elems false [] (split_path X) = rev T ++ [c]).
      { rewrite HX, clean_elems_stack, clean_stack_app.
        rewrite (clean_stack_plain_cons false _ c []) by exact Hc.
        reflexivity. }
      assert (Hk : Forall (fun e => kept_name e = true) (rev T ++ [c])).
      { apply Forall_app. split; [apply Forall_rev, HT|].
        constructor; [apply plain_kept, Hc|constructor]. }
      destruct (rev T ++ [c]) as [|e out] eqn:Eo.
      { destruct (rev T); discriminate Eo. }
      rewrite (Clean_relative X e out HrX Hout).
      inversion Hk as [|? ? Hke Hkout]; subst.
      unfold abs_elems. rewrite (rooted_join_path e out Hke), Hr.
      rewrite split_join_path;
        [|discriminate
         |eapply Forall_impl; [exact Hk|];
          intros x Hx; apply kept_name_spec in Hx; tauto].
      rewrite <- Eo.
      rewrite !clean_elems_stack, !clean_stack_app.
      rewrite (clean_stack_plain_cons true _ c []) by exact Hc.
      cbn [clean_stack rev].
      pose proof (clean_stack_relative_first (split_path (String a P))
                    (clean_stack true [] (split_path cwd)) []
                    ltac:(constructor) (split_path_sep_free _)) as Hsim.
      cbn [rev clean_stack] in Hsim. fold T in Hsim. rewrite Hsim.
      reflexivity.
Qed.

Lemma abs_elems_walk_path (cwd root : string) (rel : list string) :
  rooted cwd = true ->
  Forall (fun e => plain_name e = true) rel ->
  abs_elems cwd (walk_path root rel) = abs_elems cwd root ++ rel.
Proof.
  intros Hcwd. induction rel as [|c rel IH] using rev_ind; intros H.
  - now rewrite app_nil_r.
  - apply Forall_app in H as [Hrel Hc]. inversion Hc; subst.
    rewrite walk_path_snoc, abs_elems_Join, IH by assumption.
    now rewrite app_assoc.
Qed.

(** ** Paths: relative forms and base names *)

Lemma strip_common_app (l cs : list string) :
  strip_common l (l ++ cs) = ([], cs).
Proof.
  induction l as [|e l IH]; [destruct cs; reflexivity|].
  cbn [strip_common app]. rewrite String.eqb_refl. exact IH.
Qed.

Lemma rel_elems_abs (out : list string) :
  Forall (fun e => plain_name e = true) out ->
  rel_elems ("/" +:+ join_path out) = EmptyString :: out.
Proof.
  intros H. unfold rel_elems. rewrite split_abs by exact H.
  destruct out as [|e out]; [reflexivity|].
  change (last (EmptyString :: e :: out)) with (last (e :: out)).
  destruct (last (e :: out)) as [x|] eqn:El; [|reflexivity].
  pose proof (plain_last _ _ H El) as Hx.
  destruct x; [discriminate Hx|reflexivity].
Qed.

Lemma abs_inj (out1 out2 : list string) :
  Forall (fun e => plain_name e = true) out1 ->
  Forall (fun e => plain_name e = true) out2 ->
  "/" +:+ join_path out1 = "/" +:+ join_path out2 -> out1 = out2.
Proof.
  intros H1 H2 Heq. apply (f_equal rel_elems) in Heq.
  rewrite !rel_elems_abs in Heq by assumption. now inversion Heq.
Qed.

(** The path of [rel] below a directory, relative to the directory. *)
Lemma Rel_below (D cs : list string) :
  Forall (fun e => plain_name e = true) D ->
  Forall (fun e => plain_name e = true) cs ->
  cs <> [] ->
  Rel ("/" +:+ join_path D) ("/" +:+ join_path (D ++ cs)) = inr (join_path cs).
Proof.
  intros HD Hcs Hne.
  assert (HDcs : Forall (fun e => plain_name e = true) (D ++ cs))
    by (apply Forall_app; split; assumption).
  unfold Rel. rewrite !Clean_abs by assumption.
  destruct (String.eqb_spec ("/" +:+ join_path (D ++ cs)) ("/" +:+ join_path D))
    as [Heq|_].
  { apply abs_inj in Heq; try assumption.
    apply (f_equal (@length string)) in Heq. rewrite length_app in Heq.
    destruct cs; [contradiction|cbn in Heq; lia]. }
  change (String.eqb ("/" +:+ join_path D) ".") with false. cbv iota.
  change (rooted ("/" +:+ join_path D)) with true.
  change (rooted ("/" +:+ join_path (D ++ cs))) with true.
  cbn [Bool.eqb negb].
  rewrite !rel_elems_abs by assumption.
  change (EmptyString :: D ++ cs) with ((EmptyString :: D) ++ cs).
  rewrite strip_common_app. reflexivity.
Qed.

Lemma Base_abs (out : list string) :
  Forall (fun e => plain_name e = true) out ->
  Base ("/" +:+ join_path out) = match last out with Some e => e | None => "/" end.
Proof.
  intros H. unfold Base.
  change (String.eqb ("/" +:+ join_path out) EmptyString) with false. cbv iota.
  rewrite split_abs by exact H.
  destruct out as [|e out]; [reflexivity|].
  change (List.filter (fun e => negb (String.eqb e EmptyString)) (EmptyString :: e :: out))
    with (List.filter (fun e => negb (String.eqb e EmptyString)) (e :: out)).
  now rewrite filter_plain.
Qed.

(** A plain name joined with a path of plain names. *)
Lemma Join_plain (b : string) (cs : list string) :
  plain_name b = true ->
  Forall (fun e => plain_name e = true) cs ->
  cs <> [] ->
  Join [b; join_path cs] = join_path (b :: cs).
Proof.
  intros Hb Hcs Hne.
  assert (Hall : Forall (fun e => plain_name e = true) (b :: cs))
    by (constructor; assumption).
  cbn [Join]. apply plain_name_spec in Hb as Hb'. destruct Hb' as (-> & _).
  change (join_path [b; join_path cs]) with (b +:+ String Separator (join_path cs)).
  rewrite <- join_path_cons by exact Hne.
  apply Clean_relative.
  - apply rooted_join_path, plain_kept, Hb.
  - rewrite split_join_path by (discriminate || apply plain_sep_free, Hall).
    apply clean_elems_plain, Hall.
Qed.

Lemma Join_root (cs : list string) :
  Forall (fun e => plain_name e = true) cs ->
  cs <> [] ->
  Join ["/"; join_path cs] = "/" +:+ join_path cs.
Proof.
  intros Hcs Hne. cbn [Join]. change (String.eqb "/" EmptyString) with false. cbv iota.
  change (join_path ["/"; join_path cs])
    with (String Separator (String Separator (join_path cs))).
  rewrite Clean_rooted by reflexivity.
  cbn [split_path]. change (is_sep Separator) with true. cbv iota.
  rewrite split_join_path by (assumption || apply plain_sep_free, Hcs).
  change (clean_elems true [] (EmptyString :: EmptyString :: cs))
    with (clean_elems true [] cs).
  now rewrite clean_elems_plain.
Qed.

(** ** The names of the descendants *)

(** Below a directory other than the root, the name is the base name of the
    directory and the names that lead to the descendant, slashes between. *)
Lemma wire_name_explicit (cwd dirPath : string) (rel : list string) :
  rooted cwd = true ->
  Forall (fun e => plain_name e = true) rel ->
  rel <> [] ->
  Abs cwd dirPath <> "/" ->
  wire_name cwd dirPath rel = join_path (Base (Abs cwd dirPath) :: rel).
Proof.
  intros Hcwd Hrel Hne Hroot. unfold wire_name, ToSlash.
  change (Ascii.eqb Separator "/") with true. cbv iota.
  rewrite Abs_elems in * by exact Hcwd.
  pose proof (abs_elems_plain cwd dirPath) as HD.
  rewrite Base_abs by exact HD.
  destruct (last (abs_elems cwd dirPath)) as [b|] eqn:El.
  - apply Join_plain; [exact (plain_last _ _ HD El)|exact Hrel|exact Hne].
  - apply last_None in El. rewrite El in Hroot. contradiction Hroot. reflexivity.
Qed.

Lemma walk_path_not_root (cwd dirPath : string) (rel : list string) :
  rooted cwd = true ->
  Forall (fun e => plain_name e = true) rel ->
  rel <> [] ->
  String.eqb (walk_path dirPath rel) dirPath = false.
Proof.
  intros Hcwd Hrel Hne. apply String.eqb_neq. intros Heq.
  apply (f_equal (abs_elems cwd)) in Heq.
  rewrite abs_elems_walk_path in Heq by assumption.
  apply (f_equal (@length string)) in Heq. rewrite length_app in Heq.
  destruct rel; [contradiction|cbn in Heq; lia].
Qed.

(** What the walk function does at a descendant. *)
Lemma walkFn_descendant (elapsed : nat -> Z) (cwd dirPath : string)
    (rel : list string) (info : node) (st : Sender) :
  rooted cwd = true ->
  Forall (fun e => plain_name e = true) rel ->
  rel <> [] ->
  walkFn elapsed cwd dirPath (Abs cwd dirPath) (walk_path dirPath rel) info st
  = match info with
    | Directory _ =>
      match emit (mkFileInfo (wire_name cwd dirPath rel) 0 true) st with
      | (Some err, st') =>
        (Some (Wrap "failed to send subdirectory info" err), st')
      | (None, st') => (None, st')
      end
    | RegFile file =>
      match sendSingleFile elapsed st (Z.of_nat (length file)) file
              (wire_name cwd dirPath rel) with
      | (Some err, st') =>
        (Some (Wrap ("failed to send file " +:+ walk_path dirPath rel) err), st')
      | (None, st') => (None, st')
      end
    end.
Proof.
  intros Hcwd Hrel Hne. unfold walkFn.
  rewrite (walk_path_not_root cwd) by assumption.
  rewrite (Abs_elems cwd (walk_path dirPath rel)) by exact Hcwd.
  rewrite (Abs_elems cwd dirPath) at 1 by exact Hcwd.
  rewrite abs_elems_walk_path by assumption.
  rewrite Rel_below by (assumption || apply abs_elems_plain).
  reflexivity.
Qed.

Lemma walkFn_descendant_emitted (elapsed : nat -> Z) (cwd dirPath : string)
    (rel : list string) (info : node) (st : Sender) :
  rooted cwd = true ->
  Forall (fun e => plain_name e = true) rel ->
  rel <> [] ->
  emitted (snd (walkFn elapsed cwd dirPath (Abs cwd dirPath)
                       (walk_path dirPath rel) info st))
  = emitted st ++ [descriptor_of (wire_name cwd dirPath rel) info].
Proof.
  intros Hcwd Hrel Hne. rewrite walkFn_descendant by assumption.
  destruct info as [file|entries]; cbn [descriptor_of].
  - destruct (sendSingleFile elapsed st _ file _) as [err st1] eqn:Es.
    apply sendSingleFile_trace in Es. destruct Es as (Hem & _).
    destruct err; exact Hem.
  - match goal with |- context [emit ?fi st] =>
      pose proof (proj1 (emit_emitted fi st)) as Hem;
      destruct (emit fi st) as [[e|] st1]
    end; exact Hem.
Qed.

Lemma visit_all_descendants (elapsed : nat -> Z) (cwd dirPath : string) :
  rooted cwd = true ->
  forall (ds : list (list string * node)) (st : Sender),
    Forall (fun d => fst d <> [] /\ Forall (fun e => plain_name e = true) (fst d))
           ds ->
    let r := visit_all (walkFn elapsed cwd dirPath (Abs cwd dirPath))
                       (map (located dirPath) ds) st in
    let expected :=
      map (fun d => descriptor_of (wire_name cwd dirPath (fst d)) (snd d)) ds in
    exists new : list FileInfo,
      emitted (snd r) = emitted st ++ new
      /\ new `prefix_of` expected
      /\ (fst r = None -> new = expected).
Proof.
  intros Hcwd ds. induction ds as [|[rel info] ds IH]; intros st Hds.
  { exists []. rewrite app_nil_r. cbn. repeat split. apply prefix_nil. }
  inversion Hds as [|? ? [Hne Hrel] Hds']; subst. cbn [fst snd] in Hne, Hrel.
  cbn [map visit_all located fst snd].
  pose proof (walkFn_descendant_emitted elapsed cwd dirPath rel info st
                Hcwd Hrel Hne) as Hem.
  destruct (walkFn elapsed cwd dirPath _ _ info st) as [[e|] st1];
    cbn [snd] in Hem.
  - exists [descriptor_of (wire_name cwd dirPath rel) info].
    split; [exact Hem|]. split; [|discriminate].
    apply prefix_cons, prefix_nil.
  - destruct (IH st1 Hds') as (new & Hnew & Hpre & Hall).
    exists (descriptor_of (wire_name cwd dirPath rel) info :: new).
    cbn zeta in Hnew |- *. rewrite Hnew, Hem, <- app_assoc.
    split; [reflexivity|]. split; [apply prefix_cons, Hpre|].
    intros Hok. f_equal. exact (Hall Hok).
Qed.

(** On the host whose separator is the slash: what lies below the directory
    is sent in the order of the walk, each under the base name of the
    directory joined with the path from the directory to it; unless the
    directory is the root of the file system, that is the base name and the
    names on the way with forward slashes between. *)
Lemma sendDirectoryRaw_names (elapsed : nat -> Z) (cwd : string) (st : Sender)
    (dirPath : string) (entries : list (string * node)) :
  rooted cwd = true ->
  well_named (Directory entries) = true ->
  let r := sendDirectoryRaw elapsed cwd st dirPath entries in
  let below := tail (descendants [] (Directory entries)) in
  let expected :=
    map (fun d => descriptor_of
                    (ToSlash (Join [Base (Abs cwd dirPath); join_path (fst d)]))
                    (snd d)) below in
  (exists sentFrames : list FileInfo,
      emitted (snd r)
      = emitted st ++ mkFileInfo (Base dirPath) 0 true :: sentFrames
      /\ sentFrames `prefix_of` expected
      /\ (fst r = None -> sentFrames = expected))
  /\ (Abs cwd dirPath <> "/" ->
      Forall (fun d => ToSlash (Join [Base (Abs cwd dirPath); join_path (fst d)])
                       = join_path (Base (Abs cwd dirPath) :: fst d)) below).
Proof.
  intros Hcwd Hnamed. cbv zeta.
  destruct (descendants_below (Directory entries) []) as (ds & Hds & Hrel).
  unfold well_named in Hnamed. rewrite Hds in Hnamed |- *.
  cbn [tail forallb] in Hnamed |- *.
  assert (Hbelow : Forall (fun d => fst d <> []
                     /\ Forall (fun e => plain_name e = true) (fst d)) ds).
  { apply andb_true_iff in Hnamed as [_ Hnamed].
    rewrite forallb_forall in Hnamed.
    apply Forall_forall. intros d Hd. split.
    - rewrite Forall_forall in Hrel. destruct (Hrel d Hd) as (s & Hs & ->).
      exact Hs.
    - apply Forall_forall. intros e He.
      apply list_elem_of_In in Hd.
      specialize (Hnamed d Hd). rewrite forallb_forall in Hnamed.
      apply Hnamed. apply list_elem_of_In. exact He. }
  split.
  - unfold sendDirectoryRaw.
    pose proof (proj1 (emit_emitted (mkFileInfo (Base dirPath) 0 true) st)) as Hem.
    destruct (emit _ st) as [[e|] st1]; cbn [snd fst] in Hem |- *.
    + exists []. split; [exact Hem|]. split; [apply prefix_nil|discriminate].
    + destruct (visit_all_descendants elapsed cwd dirPath Hcwd ds st1 Hbelow)
        as (new & Hnew & Hpre & Hall).
      cbv zeta in Hnew, Hall. unfold wire_name in Hpre, Hall.
      pose proof (walk_descendants (walkFn elapsed cwd dirPath (Abs cwd dirPath))
                    dirPath (Directory entries) [] st1) as Hw.
      rewrite Hds in Hw.
      assert (Hskip : walkFn elapsed cwd dirPath (Abs cwd dirPath) dirPath
                             (Directory entries) st1 = (None, st1)).
      { unfold walkFn. now rewrite String.eqb_refl. }
      cbn [map visit_all located fst snd walk_path fold_left] in Hw.
      rewrite Hskip in Hw. rewrite Hw.
      exists new. rewrite Hnew, Hem, <- app_assoc.
      split; [reflexivity|]. split; [exact Hpre|exact Hall].
  - intros Hroot. eapply Forall_impl; [exact Hbelow|].
    intros d [Hne Hrel'].
    exact (wire_name_explicit cwd dirPath (fst d) Hcwd Hrel' Hne Hroot).
Qed.

(** ** The names of the descendants, on any host *)

Lemma replace_char_same (c : ascii) (s : string) : replace_char c c s = s.
Proof.
  induction s as [|a s IH]; [reflexivity|].
  cbn [replace_char]. rewrite IH.
  destruct (Ascii.eqb_spec a c) as [->|_]; reflexivity.
Qed.

Lemma occurs_replace_char (old new : ascii) (s : string) :
  old <> new -> occurs old (replace_char old new s) = false.
Proof.
  intros Hne. induction s as [|a s IH]; [reflexivity|].
  cbn [replace_char occurs]. rewrite IH, orb_false_r.
  destruct (Ascii.eqb_spec a old) as [->|Ha]; apply Ascii.eqb_neq; congruence.
Qed.

(** [ToSlash] replaces the separators of the host, all of them. *)
Lemma Host_ToSlash_replaces (h : Host.filepath) (path : string) :
  Host.ToSlash h path = replace_char (Host.Separator h) "/" path
  /\ (Host.Separator h <> "/"%char ->
      occurs (Host.Separator h) (Host.ToSlash h path) = false).
Proof.
  unfold Host.ToSlash.
  destruct (Ascii.eqb_spec (Host.Separator h) "/") as [->|Hne].
  - split; [symmetry; apply replace_char_same|contradiction].
  - split; [reflexivity|]. intros _. apply occurs_replace_char, Hne.
Qed.

Lemma Host_walk_path_snoc (h : Host.filepath) (root : string)
    (rel : list string) (name : string) :
  Host.walk_path h root (rel ++ [name])
  = Host.Join h [Host.walk_path h root rel; name].
Proof. unfold Host.walk_path. rewrite fold_left_app. reflexivity. Qed.

(** [filepath.Walk] calls the function on the descendants in order, on any
    host. *)
Lemma Host_walk_descendants (h : Host.filepath)
    (fn : string -> node -> Sender -> option error * Sender) (root : string) :
  forall (info : node) (rel : list string) (st : Sender),
    Host.walk h fn (Host.walk_path h root rel) info st
    = visit_all fn (map (Host.located h root) (descendants rel info)) st.
Proof.
  fix IH 1. intros [file|entries] rel st.
  - cbn. destruct (fn _ _ st) as [[e|] st1]; reflexivity.
  - cbn [Host.walk descendants map visit_all Host.located fst snd].
    destruct (fn (Host.walk_path h root rel) (Directory entries) st)
      as [[e|] st1]; [reflexivity|].
    clear st. revert st1.
    induction entries as [|[name child] entries IHe]; intros st; [reflexivity|].
    rewrite map_app, visit_all_app.
    rewrite <- (IH child (rel ++ [name]) st), Host_walk_path_snoc.
    destruct (Host.walk h fn _ child st) as [[e|] st1]; [reflexivity|].
    apply IHe.
Qed.

Lemma Host_sendSingleFile_emitted (elapsed : nat -> Z) (h : Host.filepath)
    (st : Sender) (size : Z) (file : list byte) (name : string) :
  emitted (snd (Host.sendSingleFile elapsed h st size file name))
  = emitted st ++ [mkFileInfo name size false].
Proof.
  unfold Host.sendSingleFile.
  pose proof (emit_emitted (mkFileInfo name size false) st) as [Hem _].
  destruct (emit _ st) as [[e|] st1]; cbn [snd] in Hem |- *; [exact Hem|].
  cbn [FileSize].
  destruct (sendChunks elapsed (S (length file)) file 0 _) as [[e|] st2] eqn:Ec;
    apply sendChunks_observed in Ec; destruct Ec as (Hem2 & _);
    revert Hem2; sender_simpl; cbn [snd]; sender_simpl; congruence.
Qed.

(** What the walk function does at one visit: nothing at the path of the
    directory itself; elsewhere it fails before anything is sent, or the
    descriptor of the descendant goes out under its name. *)
Lemma Host_walkFn_visit (elapsed : nat -> Z) (h : Host.filepath)
    (dirPath absDirPath : string) (d : list string * node) (st : Sender) :
  let r := Host.walkFn elapsed h dirPath absDirPath
             (Host.walk_path h dirPath (fst d)) (snd d) st in
  if String.eqb (Host.walk_path h dirPath (fst d)) dirPath
  then r = (None, st)
  else (fst r <> None /\ emitted (snd r) = emitted st)
       \/ exists fi : FileInfo,
            Host.sent_as h dirPath absDirPath d fi
            /\ emitted (snd r) = emitted st ++ [fi].
Proof.
  cbv zeta. unfold Host.walkFn.
  destruct (String.eqb (Host.walk_path h dirPath (fst d)) dirPath);
    [reflexivity|].
  destruct (Host.Abs h (Host.walk_path h dirPath (fst d))) as [e|absPath] eqn:Ea.
  { left. split; [discriminate|reflexivity]. }
  destruct (Host.Rel h absDirPath absPath) as [e|relPath] eqn:Er.
  { left. split; [discriminate|reflexivity]. }
  right.
  exists (descriptor_of
            (Host.ToSlash h (Host.Join h [Host.Base h absDirPath; relPath]))
            (snd d)).
  split; [exists absPath, relPath; auto|].
  destruct (snd d) as [file|entries]; cbn [descriptor_of].
  - pose proof (Host_sendSingleFile_emitted elapsed h st
                  (Z.of_nat (length file)) file
                  (Host.ToSlash h (Host.Join h [Host.Base h absDirPath; relPath])))
      as Hem.
    destruct (Host.sendSingleFile elapsed h st _ file _) as [[e|] st1];
      exact Hem.
  - match goal with |- context [emit ?fi st] =>
      pose proof (proj1 (emit_emitted fi st)) as Hem;
      destruct (emit fi st) as [[e|] st1]
    end; exact Hem.
Qed.

Lemma Host_visit_all_descendants (elapsed : nat -> Z) (h : Host.filepath)
    (dirPath absDirPath : string) :
  forall (ds : list (list string * node)) (st : Sender),
    let r := visit_all (Host.walkFn elapsed h dirPath absDirPath)
                       (map (Host.located h dirPath) ds) st in
    let kept :=
      List.filter
        (fun d => negb (String.eqb (Host.walk_path h dirPath (fst d)) dirPath))
        ds in
    exists (visited : list (list string * node)) (new : list FileInfo),
      emitted (snd r) = emitted st ++ new
      /\ visited `prefix_of` kept
      /\ (fst r = None -> visited = kept)
      /\ Forall2 (Host.sent_as h dirPath absDirPath) visited new.
Proof.
  induction ds as [|d ds IH]; intros st; cbv zeta.
  { exists [], []. rewrite app_nil_r. cbn.
    split; [reflexivity|]. split; [apply prefix_nil|].
    split; [reflexivity|constructor]. }
  cbn [map visit_all Host.located List.filter].
  pose proof (Host_walkFn_visit elapsed h dirPath absDirPath d st) as Hv.
  cbv zeta in Hv.
  destruct (String.eqb (Host.walk_path h dirPath (fst d)) dirPath);
    cbn [negb].
  - rewrite Hv. apply IH.
  - destruct Hv as [[Hf Hem]|(fi & Hfi & Hem)].
    + destruct (Host.walkFn elapsed h dirPath absDirPath _ (snd d) st)
        as [[e|] st1]; [|contradiction Hf; reflexivity].
      cbn [fst snd] in *. exists [], []. rewrite app_nil_r.
      split; [exact Hem|]. split; [apply prefix_nil|].
      split; [discriminate|constructor].
    + destruct (Host.walkFn elapsed h dirPath absDirPath _ (snd d) st)
        as [[e|] st1]; cbn [fst snd] in *.
      * exists [d], [fi]. split; [exact Hem|].
        split; [apply prefix_cons, prefix_nil|].
        split; [discriminate|]. constructor; [exact Hfi|constructor].
      * destruct (IH st1) as (visited & new & Hnew & Hpre & Hall & Hsent).
        cbv zeta in Hnew, Hall.
        exists (d :: visited), (fi :: new).
        rewrite Hnew, Hem, <- app_assoc.
        split; [reflexivity|]. split; [apply prefix_cons, Hpre|].
        split; [intros Hok; f_equal; exact (Hall Hok)|].
        constructor; [exact Hfi|exact Hsent].
Qed.

Lemma sent_as_normalized (h : Host.filepath) (dirPath absDirPath : string)
    (d : list string * node) (fi : FileInfo) :
  Host.sent_as h dirPath absDirPath d fi ->
  Host.Separator h <> "/"%char ->
  occurs (Host.Separator h) (Filename fi) = false.
Proof.
  intros (absPath & relPath & _ & _ & ->) Hne.
  replace (Filename (descriptor_of _ (snd d)))
    with (Host.ToSlash h (Host.Join h [Host.Base h absDirPath; relPath]))
    by (destruct (snd d); reflexivity).
  apply Host_ToSlash_replaces, Hne.
Qed.

(** [sendDirectoryRaw] on any host: the marker of the directory, then the
    descriptors of what lies below, in the order of the walk. *)
Lemma Host_sendDirectoryRaw_names (elapsed : nat -> Z) (h : Host.filepath)
    (st : Sender) (dirPath absDirPath : string)
    (entries : list (string * node)) :
  Host.Abs h dirPath = inr absDirPath ->
  let r := Host.sendDirectoryRaw elapsed h st dirPath entries in
  exists (visited : list (list string * node)) (sentFrames : list FileInfo),
    emitted (snd r)
    = emitted st ++ mkFileInfo (Host.Base h dirPath) 0 true :: sentFrames
    /\ visited `prefix_of` Host.sent_below h dirPath entries
    /\ (fst r = None -> visited = Host.sent_below h dirPath entries)
    /\ Forall2 (Host.sent_as h dirPath absDirPath) visited sentFrames
    /\ Forall (fun fi => Host.Separator h <> "/"%char ->
                         occurs (Host.Separator h) (Filename fi) = false)
              sentFrames.
Proof.
  intros Habs. cbv zeta. unfold Host.sendDirectoryRaw. rewrite Habs.
  pose proof (proj1 (emit_emitted (mkFileInfo (Host.Base h dirPath) 0 true) st))
    as Hem.
  destruct (emit _ st) as [[e|] st1]; cbn [snd fst] in Hem |- *.
  { exists [], []. split; [exact Hem|]. split; [apply prefix_nil|].
    split; [discriminate|]. split; constructor. }
  pose proof (Host_walk_descendants h (Host.walkFn elapsed h dirPath absDirPath)
                dirPath (Directory entries) [] st1) as Hw.
  change (Host.walk_path h dirPath []) with dirPath in Hw. rewrite Hw. clear Hw.
  destruct (Host_visit_all_descendants elapsed h dirPath absDirPath
              (descendants [] (Directory entries)) st1)
    as (visited & new & Hnew & Hpre & Hall & Hsent).
  cbv zeta in Hnew, Hall.
  exists visited, new. rewrite Hnew, Hem, <- app_assoc.
  split; [reflexivity|]. split; [exact Hpre|]. split; [exact Hall|].
  split; [exact Hsent|].
  clear Hnew Hpre Hall. induction Hsent as [|d fi ds fis Hd _ IH]; constructor.
  - exact (sent_as_normalized h dirPath absDirPath d fi Hd).
  - exact IH.
Qed.

(** On the host whose separator is the slash, this is [sendDirectoryRaw] as
    above. *)
Lemma slash_host_walk (cwd : string)
    (fn : string -> node -> Sender -> option error * Sender) :
  forall (info : node) (path : string) (st : Sender),
    Host.walk (slash_host cwd) fn path info st = walk fn path info st.
Proof.
  fix IH 1. intros [file|entries] path st; [reflexivity|].
  cbn [Host.walk walk]. destruct (fn path (Directory entries) st) as [[e|] st1];
    [reflexivity|].
  clear st. revert st1.
  induction entries as [|[name child] entries IHe]; intros st; [reflexivity|].
  rewrite (IH child).
  change (Host.Join (slash_host cwd) [path; name]) with (Join [path; name]).
  destruct (walk fn _ child st) as [[e|] st1]; [reflexivity|]. apply IHe.
Qed.

Lemma slash_host_sendDirectoryRaw (elapsed : nat -> Z) (cwd : string)
    (st : Sender) (dirPath : string) (entries : list (string * node)) :
  Host.sendDirectoryRaw elapsed (slash_host cwd) st dirPath entries
  = sendDirectoryRaw elapsed cwd st dirPath entries.
Proof.
  unfold Host.sendDirectoryRaw, sendDirectoryRaw.
  cbn [Host.Abs Host.Base slash_host].
  destruct (emit _ st) as [[e|] st1]; [reflexivity|].
  apply slash_host_walk.
Qed.

(** C8. Names of the descendants. On any host, [sendDirectoryRaw] sends the
    marker of the directory and then what lies below it, file or directory,
    in the order of the walk, each under the base name of the directory
    joined with the path from the directory to it, every separator of the
    host turned into a forward slash: no other separator of the host is left
    in a name. When the sending fails the descendants sent so far have these
    names. On the host whose separator is the slash, unless the directory is
    the root of the file system, the name is the base name and the names on
    the way with forward slashes between. *)
Theorem descendant_names (elapsed : nat -> Z) :
  (forall (h : Host.filepath) (st : Sender) (dirPath absDirPath : string)
          (entries : list (string * node)),
      Host.Abs h dirPath = inr absDirPath ->
      let r := Host.sendDirectoryRaw elapsed h st dirPath entries in
      exists (visited : list (list string * node)) (sentFrames : list FileInfo),
        emitted (snd r)
        = emitted st ++ mkFileInfo (Host.Base h dirPath) 0 true :: sentFrames
        /\ visited `prefix_of` Host.sent_below h dirPath entries
        /\ (fst r = None -> visited = Host.sent_below h dirPath entries)
        /\ Forall2 (Host.sent_as h dirPath absDirPath) visited sentFrames
        /\ Forall (fun fi => Host.Separator h <> "/"%char ->
                             occurs (Host.Separator h) (Filename fi) = false)
                  sentFrames)
  /\ (forall (h : Host.filepath) (path : string),
        Host.ToSlash h path = replace_char (Host.Separator h) "/" path)
  /\ (forall (cwd : string) (st : Sender) (dirPath : string)
             (entries : list (string * node)),
        Host.sendDirectoryRaw elapsed (slash_host cwd) st dirPath entries
        = sendDirectoryRaw elapsed cwd st dirPath entries)
  /\ (forall (cwd : string) (st : Sender) (dirPath : string)
             (entries : list (string * node)),
        rooted cwd = true ->
        well_named (Directory entries) = true ->
        let r := sendDirectoryRaw elapsed cwd st dirPath entries in
        let below := tail (descendants [] (Directory entries)) in
        let expected :=
          map (fun d => descriptor_of
                          (ToSlash (Join [Base (Abs cwd dirPath);
                                          join_path (fst d)]))
                          (snd d)) below in
        (exists sentFrames : list FileInfo,
            emitted (snd r)
            = emitted st ++ mkFileInfo (Base dirPath) 0 true :: sentFrames
            /\ sentFrames `prefix_of` expected
            /\ (fst r = None -> sentFrames = expected))
        /\ (Abs cwd dirPath <> "/" ->
            Forall (fun d => ToSlash (Join [Base (Abs cwd dirPath);
                                            join_path (fst d)])
                             = join_path (Base (Abs cwd dirPath) :: fst d))
                   below)).
Proof.
  split; [|split; [|split]].
  - intros h st dirPath absDirPath entries.
    apply Host_sendDirectoryRaw_names.
  - intros h path. apply Host_ToSlash_replaces.
  - intros cwd st dirPath entries. apply slash_host_sendDirectoryRaw.
  - intros cwd st dirPath entries.
    exact (sendDirectoryRaw_names elapsed cwd st dirPath entries).
Qed.

(** The directory [oc] sent from [/home/u]: on a host whose separator is the
    backslash, and on the host whose separator is the slash. *)
Lemma descendant_names_witness :
  (exists (visited : list (list string * node)) (sentFrames : list FileInfo),
      emitted (snd (Host.sendDirectoryRaw (fun _ => 0) (backslash_host "/home/u")
                      (sample_sender 1000) "oc" sample_tree))
      = [] ++ mkFileInfo "oc" 0 true :: sentFrames
      /\ visited = Host.sent_below (backslash_host "/home/u") "oc" sample_tree
      /\ Forall2 (Host.sent_as (backslash_host "/home/u") "oc"
                    (to_backslash "/home/u/oc")) visited sentFrames
      /\ Forall (fun fi => occurs backslash (Filename fi) = false) sentFrames)
  /\ emitted (snd (Host.sendDirectoryRaw (fun _ => 0) (backslash_host "/home/u")
                     (sample_sender 1000) "oc" sample_tree))
     = [mkFileInfo "oc" 0 true; mkFileInfo "oc/a.txt" 3 false;
        mkFileInfo "oc/sub" 0 true; mkFileInfo "oc/sub/b" 0 false]
  /\ emitted (snd (sendDirectoryRaw (fun _ => 0) "/home/u"
                     (mkSender (mkWConn [] 1000 (ErrMsg "broken pipe")) []
                               (mkGlobals (NewProgressWriter 0 EmptyString) []))
                     "oc/" sample_tree))
     = [mkFileInfo "oc" 0 true; mkFileInfo "oc/a.txt" 3 false;
        mkFileInfo "oc/sub" 0 true; mkFileInfo "oc/sub/b" 0 false].
Proof.
  pose proof (descendant_names (fun _ => 0)) as (Hany & _ & _ & Hslash).
  split; [|split].
  - destruct (Hany (backslash_host "/home/u") (sample_sender 1000) "oc"%string
                   (to_backslash "/home/u/oc") sample_tree
                   ltac:(vm_compute; reflexivity))
      as (visited & frames & Hem & _ & Hall & Hsent & Hnorm).
    exists visited, frames. split; [exact Hem|].
    split; [apply Hall; vm_compute; reflexivity|]. split; [exact Hsent|].
    eapply Forall_impl; [exact Hnorm|]. cbn beta. intros fi Hfi.
    apply Hfi. discriminate.
  - vm_compute. reflexivity.
  - destruct (Hslash "/home/u"%string
                (mkSender (mkWConn [] 1000 (ErrMsg "broken pipe")) []
                          (mkGlobals (NewProgressWriter 0 EmptyString) []))
                "oc/"%string sample_tree eq_refl eq_refl)
      as [(frames & Hem & _ & Hall) _].
    rewrite Hem, (Hall ltac:(vm_compute; reflexivity)).
    vm_compute. reflexivity.
Defined.

(** * Properties of the rest of the program *)

(** ** Durations *)

Lemma to_int64_id (z : Z) : int64_range z -> to_int64 z = z.
Proof.
  intros Hz. rewrite <- (to_int64_to_uint64 z Hz) at 2.
  unfold to_int64, to_uint64. now rewrite Z.mod_mod by lia.
Qed.

(** Up to the last duration whose nearest second fits 64 bits, rounding to
    the second is adding half a second and cutting. *)
Lemma Duration_Round_Second (d : Z) :
  0 <= d < 9223372036500000000 ->
  Duration_Round d Second = (d + 500000000) / Second * Second.
Proof.
  intros Hd. unfold Duration_Round, Second in *.
  change (1000000000 <=? 0) with false. cbv iota.
  destruct (Z.ltb_spec d 0) as [?|_]; [lia|].
  rewrite Z.rem_mod_nonneg by lia.
  pose proof (Z.mod_pos_bound d 1000000000 ltac:(lia)) as Hr.
  pose proof (Z.div_mod d 1000000000 ltac:(lia)) as Hdm.
  set (q := d / 1000000000) in *. set (r := d mod 1000000000) in *.
  assert (Hq : 0 <= q) by (apply Z.div_pos; lia).
  unfold lessThanHalf, to_uint64.
  rewrite (Z.mod_small r), (Z.mod_small (r + r)), (Z.mod_small 1000000000) by lia.
  destruct (Z.ltb_spec (r + r) 1000000000) as [Hlt|Hge].
  - rewrite to_int64_id by (unfold int64_range; lia).
    replace (d + 500000000) with (q * 1000000000 + (r + 500000000)) by lia.
    rewrite Z.div_add_l, (Z.div_small (r + 500000000)) by lia. lia.
  - rewrite to_int64_id by (unfold int64_range; lia).
    destruct (Z.ltb_spec d (d + 1000000000 - r)) as [_|?]; [|lia].
    replace (d + 500000000)
      with ((q + 1) * 1000000000 + (r - 500000000)) by lia.
    rewrite Z.div_add_l, (Z.div_small (r - 500000000)) by lia. lia.
Qed.

(** The fields of a whole number of seconds. *)
Lemma formatDuration_seconds (t : Z) :
  0 <= t -> t * Second < 2 ^ 63 ->
  let h := t / 3600 in
  let m := t mod 3600 / 60 in
  let s := t mod 60 in
  Z.quot (t * Second) Hour = h
  /\ Z.quot (t * Second - h * Hour) Minute = m
  /\ Z.quot (t * Second - h * Hour - m * Minute) Second = s
  /\ 0 <= h * Hour <= t * Second
  /\ 0 <= m * Minute <= t * Second - h * Hour.
Proof.
  intros Ht Hmax h m s. unfold Hour, Minute, Second in *.
  pose proof (Z.div_mod t 3600 ltac:(lia)) as H1.
  pose proof (Z.mod_pos_bound t 3600 ltac:(lia)) as B1.
  pose proof (Z.div_mod (t mod 3600) 60 ltac:(lia)) as H2.
  pose proof (Z.mod_pos_bound (t mod 3600) 60 ltac:(lia)) as B2.
  assert (Hs : t mod 60 = (t mod 3600) mod 60).
  { symmetry. apply Z.mod_mod_divide. exists 60. lia. }
  fold h in H1. fold m in H2. fold s in Hs.
  assert (Hh : 0 <= h) by (apply Z.div_pos; lia).
  assert (Hm : 0 <= m) by (apply Z.div_pos; lia).
  rewrite <- Hs in H2.
  assert (Bs : 0 <= s < 60) by (apply Z.mod_pos_bound; lia).
  assert (E1 : t * 1000000000 = h * (60 * (60 * 1000000000))
               + (m * 60 + s) * 1000000000) by lia.
  repeat split; try lia.
  - rewrite Z.quot_div_nonneg by lia. symmetry.
    apply (Z.div_unique _ _ h ((m * 60 + s) * 1000000000)); lia.
  - rewrite Z.quot_div_nonneg by lia. symmetry.
    apply (Z.div_unique _ _ m (s * 1000000000)); lia.
  - rewrite Z.quot_div_nonneg by lia. symmetry.
    apply (Z.div_unique _ _ s 0); lia.
Qed.

(** Above that, rounding yields the largest duration. *)
Lemma Duration_Round_overflow (d : Z) :
  9223372036500000000 <= d < 2 ^ 63 ->
  Duration_Round d Second = maxDuration.
Proof.
  intros Hd. unfold Duration_Round, Second in *.
  change (1000000000 <=? 0) with false. cbv iota.
  destruct (Z.ltb_spec d 0) as [?|_]; [lia|].
  rewrite Z.rem_mod_nonneg by lia.
  assert (Hr : d mod 1000000000 = d - 9223372036000000000).
  { symmetry. apply (Z.mod_unique_pos _ _ 9223372036); lia. }
  rewrite Hr.
  unfold lessThanHalf, to_uint64.
  rewrite (Z.mod_small (d - 9223372036000000000)),
          (Z.mod_small (_ + _)), (Z.mod_small 1000000000) by lia.
  destruct (Z.ltb_spec (d - 9223372036000000000 + (d - 9223372036000000000))
                       1000000000) as [?|_]; [lia|].
  replace (d + 1000000000 - (d - 9223372036000000000))
    with 9223372037000000000 by lia.
  change (to_int64 9223372037000000000) with (-9223372036709551616).
  destruct (Z.ltb_spec d (-9223372036709551616)) as [?|_]; [lia|reflexivity].
Qed.

Lemma formatDuration_shown (d : Z) :
  0 <= d < 9223372036500000000 ->
  let t := (d + 500000000) / Second in
  formatDuration d
  = if 3600 <=? t
    then fmt_02d (t / 3600) +:+ ":" +:+ fmt_02d (t mod 3600 / 60) +:+ ":"
         +:+ fmt_02d (t mod 60)
    else fmt_02d (t mod 3600 / 60) +:+ ":" +:+ fmt_02d (t mod 60).
Proof.
  intros Hd t. unfold formatDuration.
  rewrite Duration_Round_Second by exact Hd. fold t.
  assert (Ht : 0 <= t) by (apply Z.div_pos; unfold Second; lia).
  assert (Hmax : t * Second < 2 ^ 63).
  { unfold t, Second in *.
    pose proof (Z.mul_div_le (d + 500000000) 1000000000 ltac:(lia)). lia. }
  destruct (formatDuration_seconds t Ht Hmax) as (Eh & Em & Es & Bh & Bm).
  rewrite Eh.
  rewrite (to_int64_id (t / 3600 * Hour)) by (unfold int64_range; lia).
  rewrite (to_int64_id (t * Second - t / 3600 * Hour))
    by (unfold int64_range; lia).
  rewrite Em.
  rewrite (to_int64_id (t mod 3600 / 60 * Minute)) by (unfold int64_range; lia).
  rewrite (to_int64_id (_ - _ - _)) by (unfold int64_range; lia).
  rewrite Es.
  destruct (Z.leb_spec 3600 t) as [Hge|Hlt].
  - destruct (Z.ltb_spec 0 (t / 3600)) as [_|Hz]; [reflexivity|].
    pose proof (Z.div_le_mono 3600 t 3600 ltac:(lia) Hge) as Hq.
    rewrite Z.div_same in Hq by lia. lia.
  - rewrite (Z.div_small t 3600) by lia. reflexivity.
Qed.

(** X1. [formatDuration] on a duration that is not negative. Below
    9223372036.5 seconds (some 292 years) it shows the duration rounded to
    the nearest second, a half counting up: [t] being that number of
    seconds, the text is the hours, the minutes and the seconds of [t] as
    HH:MM:SS when [t] is an hour or more, and the minutes and the seconds as
    MM:SS otherwise. From 9223372036.5 seconds on, where the nearest second
    does not fit 64 bits, it shows the largest duration cut to the second,
    2562047:47:16. *)
Theorem formatDuration_fields (d : Z) :
  (0 <= d < 9223372036500000000 ->
   let t := (d + 500000000) / Second in
   formatDuration d
   = if 3600 <=? t
     then fmt_02d (t / 3600) +:+ ":" +:+ fmt_02d (t mod 3600 / 60) +:+ ":"
          +:+ fmt_02d (t mod 60)
     else fmt_02d (t mod 3600 / 60) +:+ ":" +:+ fmt_02d (t mod 60))
  /\ (9223372036500000000 <= d < 2 ^ 63 ->
      formatDuration d = "2562047:47:16").
Proof.
  split.
  - intros Hd. exact (formatDuration_shown d Hd).
  - intros Hd. unfold formatDuration.
    rewrite Duration_Round_overflow by exact Hd.
    vm_compute. reflexivity.
Qed.

(** One hour, two minutes and 5.6 seconds; and the largest duration. *)
Lemma formatDuration_fields_witness :
  formatDuration 3725600000000 = "01:02:06"
  /\ formatDuration 9223372036854775807 = "2562047:47:16".
Proof.
  split.
  - exact (proj1 (formatDuration_fields 3725600000000) ltac:(lia)).
  - exact (proj2 (formatDuration_fields 9223372036854775807) ltac:(lia)).
Defined.

Lemma length_string_app (a b : string) :
  String.length (a +:+ b) = (String.length a + String.length b)%nat.
Proof.
  induction a as [|c a IH]; [reflexivity|].
  change (String c a +:+ b) with (String c (a +:+ b)).
  cbn [String.length]. now rewrite IH.
Qed.

Lemma fmt_02d_width (n : Z) :
  0 <= n < 100 -> String.length (fmt_02d n) = 2%nat.
Proof.
  intros Hn.
  assert (H : forallb (fun k => Nat.eqb (String.length (fmt_02d (Z.of_nat k))) 2)
                      (seq 0 100) = true) by (vm_compute; reflexivity).
  rewrite forallb_forall in H.
  specialize (H (Z.to_nat n)). rewrite Z2Nat.id in H by lia.
  apply Nat.eqb_eq, H, in_seq. lia.
Qed.

Lemma formatDuration_shape (d : Z) :
  (0 <= d < 3599500000000 ->
   String.length (formatDuration d) = 5%nat
   /\ String.get 2 (formatDuration d) = Some ":"%char)
  /\ (3599500000000 <= d < 359999500000000 ->
      String.length (formatDuration d) = 8%nat
      /\ String.get 2 (formatDuration d) = Some ":"%char
      /\ String.get 5 (formatDuration d) = Some ":"%char).
Proof.
  set (t := (d + 500000000) / Second).
  assert (Hget : forall a b : string,
             String.length a = 2%nat ->
             String.get 2 (a +:+ ":" +:+ b) = Some ":"%char).
  { intros [|c1 [|c2 [|c3 a]]] b Ha; try discriminate Ha. reflexivity. }
  assert (Hm : 0 <= t mod 3600 / 60 < 100).
  { pose proof (Z.mod_pos_bound t 3600 ltac:(lia)).
    split; [apply Z.div_pos; lia|].
    apply Z.div_lt_upper_bound; lia. }
  assert (Hs : 0 <= t mod 60 < 100)
    by (pose proof (Z.mod_pos_bound t 60 ltac:(lia)); lia).
  split.
  - intros Hd. rewrite formatDuration_shown by lia. fold t.
    assert (Hlt : t < 3600)
      by (apply Z.div_lt_upper_bound; unfold Second; lia).
    destruct (Z.leb_spec 3600 t); [lia|].
    split.
    + rewrite !length_string_app, !fmt_02d_width by assumption. reflexivity.
    + apply Hget, fmt_02d_width, Hm.
  - intros Hd. rewrite formatDuration_shown by lia. fold t.
    assert (Hge : 3600 <= t)
      by (apply Z.div_le_lower_bound; unfold Second; lia).
    assert (Hlt : t < 360000)
      by (apply Z.div_lt_upper_bound; unfold Second; lia).
    destruct (Z.leb_spec 3600 t); [|lia].
    assert (Hh : 0 <= t / 3600 < 100).
    { split; [apply Z.div_pos; lia|apply Z.div_lt_upper_bound; lia]. }
    pose proof (fmt_02d_width _ Hh) as Lh.
    pose proof (fmt_02d_width _ Hm) as Lm.
    pose proof (fmt_02d_width _ Hs) as Ls.
    split; [|split].
    + rewrite !length_string_app, Lh, Lm, Ls. reflexivity.
    + apply Hget, Lh.
    + destruct (fmt_02d (t / 3600)) as [|c1 [|c2 [|c3 a]]]; try discriminate Lh.
      destruct (fmt_02d (t mod 3600 / 60)) as [|e1 [|e2 [|e3 b]]];
        try discriminate Lm.
      reflexivity.
Qed.

(** X2. The shape of the text of [formatDuration], [d] being the duration
    in nanoseconds: from zero to less than 59 minutes and 59.5 seconds the
    text is five characters long with a colon in the middle (MM:SS); from
    there to less than 99 hours, 59 minutes and 59.5 seconds it is eight
    characters long with colons after the hours and after the minutes
    (HH:MM:SS). *)
Theorem formatDuration_width (d : Z) :
  (0 <= d < 3599500000000 ->
   String.length (formatDuration d) = 5%nat
   /\ String.get 2 (formatDuration d) = Some ":"%char)
  /\ (3599500000000 <= d < 359999500000000 ->
      String.length (formatDuration d) = 8%nat
      /\ String.get 2 (formatDuration d) = Some ":"%char
      /\ String.get 5 (formatDuration d) = Some ":"%char).
Proof.
  exact (formatDuration_shape d).
Qed.

(** One minute and 1.4 seconds; the last duration shown as MM:SS and the
    first shown as HH:MM:SS. *)
Lemma formatDuration_width_witness :
  (String.length (formatDuration 61400000000) = 5%nat
   /\ String.get 2 (formatDuration 61400000000) = Some ":"%char)
  /\ formatDuration 3599499999999 = "59:59"
  /\ (String.length (formatDuration 3599500000000) = 8%nat
      /\ String.get 2 (formatDuration 3599500000000) = Some ":"%char
      /\ String.get 5 (formatDuration 3599500000000) = Some ":"%char)
  /\ formatDuration 3599500000000 = "01:00:00".
Proof.
  split; [exact (proj1 (formatDuration_width 61400000000) ltac:(lia))|].
  split; [vm_compute; reflexivity|].
  split; [exact (proj2 (formatDuration_width 3599500000000) ltac:(lia))|].
  vm_compute. reflexivity.
Defined.

(** ** The items to send *)

Lemma is_seen_insert (seen : gmap string bool) (item x : string) :
  is_seen (<[item := true]> seen) x = true <-> x = item \/ is_seen seen x = true.
Proof.
  unfold is_seen. destruct (decide (item = x)) as [->|Hne].
  - rewrite lookup_insert_eq. cbn. tauto.
  - rewrite lookup_insert_ne by exact Hne. split; [auto|].
    intros [->|H]; [contradiction|exact H].
Qed.

Lemma uniqueItems_elem (items : list string) :
  forall (seen : gmap string bool) (x : string),
    x ∈ uniqueItems seen items <-> x ∈ items /\ is_seen seen x = false.
Proof.
  induction items as [|item rest IH]; intros seen x; cbn [uniqueItems].
  - split; [intros H; inversion H|intros [H _]; inversion H].
  - fold (is_seen seen item). destruct (is_seen seen item) eqn:Es.
    + rewrite IH, elem_of_cons. split; [tauto|].
      intros [[->|H] Hx]; [congruence|tauto].
    + rewrite !elem_of_cons, IH. split.
      * intros [->|[H Hx]]; [tauto|]. split; [tauto|].
        destruct (is_seen seen x) eqn:Ex; [|reflexivity].
        rewrite <- Hx. symmetry. apply is_seen_insert. tauto.
      * intros [[->|H] Hx]; [tauto|].
        destruct (decide (x = item)) as [->|Hne]; [tauto|]. right.
        split; [exact H|].
        destruct (is_seen (<[item:=true]> seen) x) eqn:Ex; [|reflexivity].
        apply is_seen_insert in Ex. destruct Ex; congruence.
Qed.

Lemma uniqueItems_NoDup (items : list string) :
  forall seen : gmap string bool, NoDup (uniqueItems seen items).
Proof.
  induction items as [|item rest IH]; intros seen; cbn [uniqueItems].
  - constructor.
  - fold (is_seen seen item). destruct (is_seen seen item); [apply IH|].
    constructor; [|apply IH].
    rewrite uniqueItems_elem. intros [_ H].
    assert (is_seen (<[item:=true]> seen) item = true)
      by (apply is_seen_insert; tauto).
    congruence.
Qed.

Lemma uniqueItems_sublist (items : list string) :
  forall seen : gmap string bool, sublist (uniqueItems seen items) items.
Proof.
  induction items as [|item rest IH]; intros seen; cbn [uniqueItems].
  - constructor.
  - destruct (default false (seen !! item)).
    + apply sublist_cons, IH.
    + apply sublist_skip, IH.
Qed.

Lemma uniqueItems_id (items : list string) :
  forall seen : gmap string bool,
    NoDup items -> Forall (fun x => is_seen seen x = false) items ->
    uniqueItems seen items = items.
Proof.
  induction items as [|item rest IH]; intros seen Hnd Hall; [reflexivity|].
  inversion Hnd as [|? ? Hin Hnd']; subst.
  inversion Hall as [|? ? Hi Hall']; subst.
  cbn [uniqueItems]. fold (is_seen seen item). rewrite Hi. f_equal.
  apply IH; [exact Hnd'|].
  rewrite Forall_forall in Hall' |- *. intros x Hx.
  destruct (is_seen (<[item:=true]> seen) x) eqn:Ex; [|reflexivity].
  apply is_seen_insert in Ex. destruct Ex as [->|Ex]; [contradiction|].
  rewrite (Hall' x Hx) in Ex. discriminate.
Qed.

(** X3. The loop that removes duplicates (lines 560-567): the items kept
    have no duplicate, they are the items of the input, no more and no
    fewer, they come in the order of the input, and a list without
    duplicates is kept as it is. *)
Theorem uniqueItems_spec (items : list string) :
  NoDup (uniqueItems ∅ items)
  /\ (forall x : string, x ∈ uniqueItems ∅ items <-> x ∈ items)
  /\ sublist (uniqueItems ∅ items) items
  /\ (NoDup items -> uniqueItems ∅ items = items).
Proof.
  split; [apply uniqueItems_NoDup|]. split; [|split].
  - intros x. rewrite uniqueItems_elem. unfold is_seen.
    rewrite lookup_empty. cbn. tauto.
  - apply uniqueItems_sublist.
  - intros Hnd. apply uniqueItems_id; [exact Hnd|].
    apply Forall_forall. intros x _. unfold is_seen. now rewrite lookup_empty.
Qed.

Lemma uniqueItems_spec_witness :
  uniqueItems ∅ ["a.txt"; "dir"; "b.txt"]%string = ["a.txt"; "dir"; "b.txt"]%string.
Proof.
  apply (proj2 (proj2 (proj2 (uniqueItems_spec ["a.txt"; "dir"; "b.txt"]%string)))).
  repeat constructor; rewrite ?elem_of_cons, ?elem_of_nil; intuition discriminate.
Defined.

(** ** The address of the receiver *)

Lemma before_colon_app (host rest : string) :
  occurs ":" host = false ->
  before_colon (host +:+ String ":" rest) = host /\ before_colon host = host.
Proof.
  induction host as [|c host IH]; intros H; [split; reflexivity|].
  cbn [occurs] in H. apply orb_false_iff in H as [Hc Hh].
  change (String c host +:+ String ":" rest)
    with (String c (host +:+ String ":" rest)).
  cbn [before_colon]. rewrite Ascii.eqb_sym, Hc.
  destruct (IH Hh) as [-> ->]. split; reflexivity.
Qed.

(** X4. The address dialed is the host followed by the port 8000: the
    target is cut at its first colon, so a port the user gives after the
    host is dropped. *)
Theorem fullTarget_port (host rest : string) :
  occurs ":" host = false ->
  fullTarget host = host +:+ ":8000"
  /\ fullTarget (host +:+ ":" +:+ rest) = host +:+ ":8000".
Proof.
  intros H. unfold fullTarget, port.
  change (host +:+ ":" +:+ rest) with (host +:+ String ":" rest).
  destruct (before_colon_app host rest H) as [-> ->]. split; reflexivity.
Qed.

Lemma fullTarget_port_witness :
  fullTarget "abcdef.onion:9999" = "abcdef.onion:8000".
Proof.
  exact (proj2 (fullTarget_port "abcdef.onion" "9999" eq_refl)).
Defined.

(** ** The drivers *)

Lemma collectItems_literal (Glob : string -> error + list string)
    (filePatterns : list string) :
  Forall (fun p => has_wildcard p = false) filePatterns ->
  forall acc : list string,
    collectItems Glob acc filePatterns = inr (acc ++ filePatterns).
Proof.
  induction 1 as [|p ps Hp _ IH]; intros acc; cbn [collectItems].
  - now rewrite app_nil_r.
  - rewrite Hp, IH, <- app_assoc. reflexivity.
Qed.

(** X5. Patterns without a wildcard character are taken as paths:
    [filepath.Glob] is not consulted, the result is the same whatever it
    would answer, and when there is a pattern at all [sendFilesRaw] goes on
    to send the patterns, duplicates removed, without checking first that
    anything is there. *)
Theorem sendFilesRaw_literal (elapsed : nat -> Z) (cwd : string)
    (Glob1 Glob2 : string -> error + list string) (Stat : string -> error + node)
    (st : Sender) (filePatterns : list string) :
  Forall (fun p => has_wildcard p = false) filePatterns ->
  sendFilesRaw elapsed cwd Glob1 Stat st filePatterns
  = sendFilesRaw elapsed cwd Glob2 Stat st filePatterns
  /\ (filePatterns <> [] ->
      sendFilesRaw elapsed cwd Glob1 Stat st filePatterns
      = sendItems elapsed cwd Stat (uniqueItems ∅ filePatterns) st).
Proof.
  intros Hlit. unfold sendFilesRaw.
  rewrite !collectItems_literal by exact Hlit. cbn [app].
  split; [reflexivity|]. intros Hne.
  destruct filePatterns as [|p ps]; [contradiction|].
  cbn [uniqueItems]. rewrite lookup_empty. reflexivity.
Qed.

(** Two paths, with a [filepath.Glob] that matches nothing and one that
    fails. *)
Lemma sendFilesRaw_literal_witness :
  sendFilesRaw (fun _ => 0) "/home/u" sample_Glob sample_Stat (sample_sender 100)
    ["a/x.txt"; "c/y.txt"]
  = sendFilesRaw (fun _ => 0) "/home/u" (fun _ => inl (ErrMsg "no glob"))
      sample_Stat (sample_sender 100) ["a/x.txt"; "c/y.txt"]
  /\ (["a/x.txt"; "c/y.txt"]%string <> [] ->
      sendFilesRaw (fun _ => 0) "/home/u" sample_Glob sample_Stat
        (sample_sender 100) ["a/x.txt"; "c/y.txt"]
      = sendItems (fun _ => 0) "/home/u" sample_Stat
          (uniqueItems ∅ ["a/x.txt"; "c/y.txt"]%string) (sample_sender 100)).
Proof.
  apply (sendFilesRaw_literal (fun _ => 0) "/home/u" sample_Glob
           (fun _ => inl (ErrMsg "no glob")) sample_Stat (sample_sender 100)
           ["a/x.txt"; "c/y.txt"]).
  repeat constructor.
Defined.

Lemma sendItems_app (elapsed : nat -> Z) (cwd : string)
    (Stat : string -> error + node) (l1 l2 : list string) :
  forall st : Sender,
    sendItems elapsed cwd Stat (l1 ++ l2) st
    = match sendItems elapsed cwd Stat l1 st with
      | (Some err, st') => (Some err, st')
      | (None, st') => sendItems elapsed cwd Stat l2 st'
      end.
Proof.
  induction l1 as [|x l1 IH]; intros st; [reflexivity|].
  cbn [sendItems app].
  destruct (sendFileRaw_stat elapsed cwd Stat st x) as [[e|] st1];
    [reflexivity|apply IH].
Qed.

(** X6. The items are sent in order and the first failure ends the
    sending: when the items before [itemPath] were sent and [itemPath] fails,
    the error comes back wrapped as "failed to send <itemPath>", the state is
    the one the failure left, and the items after it are not sent. *)
Theorem sendItems_fail_fast (elapsed : nat -> Z) (cwd : string)
    (Stat : string -> error + node) (done : list string) (itemPath : string)
    (later : list string) (st st1 st2 : Sender) (err : error) :
  sendItems elapsed cwd Stat done st = (None, st1) ->
  sendFileRaw_stat elapsed cwd Stat st1 itemPath = (Some err, st2) ->
  sendItems elapsed cwd Stat (done ++ itemPath :: later) st
  = (Some (Wrap ("failed to send " +:+ itemPath) err), st2).
Proof.
  intros Hdone Hfail. rewrite sendItems_app, Hdone.
  cbn [sendItems]. rewrite Hfail. reflexivity.
Qed.

(** A path at which there is nothing, between two files. *)
Lemma sendItems_fail_fast_witness :
  sendItems (fun _ => 0) "/home/u" sample_Stat
    (["a/x.txt"] ++ "missing" :: ["b/x.txt"]) (sample_sender 100)
  = (Some (Wrap ("failed to send " +:+ "missing")
             (ErrMsg "stat missing: no such file or directory")),
     snd (sendItems (fun _ => 0) "/home/u" sample_Stat ["a/x.txt"]
            (sample_sender 100))).
Proof.
  apply (sendItems_fail_fast (fun _ => 0) "/home/u" sample_Stat ["a/x.txt"]
           "missing" ["b/x.txt"] (sample_sender 100)
           (snd (sendItems (fun _ => 0) "/home/u" sample_Stat ["a/x.txt"]
                   (sample_sender 100)))).
  - vm_compute. reflexivity.
  - vm_compute. reflexivity.
Defined.

(** X7. When every pattern has a wildcard and matches nothing,
    [sendFilesRaw] fails with "no files or directories found matching
    patterns" followed by the patterns, and nothing is written to the
    connection. *)
Theorem sendFilesRaw_nothing_found (elapsed : nat -> Z) (cwd : string)
    (Glob : string -> error + list string) (Stat : string -> error + node)
    (st : Sender) (filePatterns : list string) :
  Forall (fun p => has_wildcard p = true /\ Glob p = inr []) filePatterns ->
  sendFilesRaw elapsed cwd Glob Stat st filePatterns
  = (Some (ErrMsg ("no files or directories found matching patterns: "
                   +:+ fmt_v filePatterns)), st).
Proof.
  intros H. unfold sendFilesRaw.
  assert (Hc : collectItems Glob [] filePatterns = inr []).
  { induction H as [|p ps [Hw Hg] _ IH]; [reflexivity|].
    cbn [collectItems]. rewrite Hw, Hg. exact IH. }
  rewrite Hc. reflexivity.
Qed.

(** Two patterns that match nothing. *)
Lemma sendFilesRaw_nothing_found_witness :
  sendFilesRaw (fun _ => 0) "/home/u" sample_Glob sample_Stat (sample_sender 100)
    ["*.txt"; "img?.png"]
  = (Some (ErrMsg ("no files or directories found matching patterns: "
                   +:+ fmt_v ["*.txt"; "img?.png"])), sample_sender 100).
Proof.
  apply (sendFilesRaw_nothing_found (fun _ => 0) "/home/u" sample_Glob
           sample_Stat (sample_sender 100) ["*.txt"; "img?.png"]).
  repeat constructor.
Defined.

(** ** The frame codec, on any connection *)

Lemma conn_Write_spec (c : WConn) (p : list byte) :
  conn_Write c p
  = (if (length p <=? room c)%nat then None else Some (werr c),
     mkWConn (sent c ++ take (room c) p) (room c - length p) (werr c)).
Proof.
  unfold conn_Write. destruct (Nat.leb_spec (length p) (room c)) as [H|H].
  - rewrite take_ge by exact H. reflexivity.
  - replace (room c - length p)%nat with 0%nat by lia. reflexivity.
Qed.

(** Two writes in a row, the second one made only when the first succeeded,
    are one write of the two buffers. *)
Lemma conn_Write_then (c : WConn) (p q : list byte) :
  (let (err, c1) := conn_Write c p in
   match err with
   | Some e => (Some e, c1)
   | None => conn_Write c1 q
   end)
  = conn_Write c (p ++ q).
Proof.
  rewrite !conn_Write_spec.
  destruct (Nat.leb_spec (length p) (room c)) as [Hp|Hp].
  - cbn [sent room werr].
    rewrite length_app, take_app, (take_ge p) by exact Hp.
    rewrite <- app_assoc.
    replace (room c - (length p + length q))%nat
      with (room c - length p - length q)%nat by lia.
    destruct (Nat.leb_spec (length q) (room c - length p)),
             (Nat.leb_spec (length p + length q) (room c)); try lia; reflexivity.
  - cbn [sent room werr]. rewrite length_app, take_app.
    replace (room c - length p)%nat with 0%nat by lia.
    replace (room c - (length p + length q))%nat with 0%nat by lia.
    rewrite take_0, app_nil_r.
    destruct (Nat.leb_spec (length p + length q) (room c)); [lia|reflexivity].
Qed.

Lemma sendFileInfo_one_write (c : WConn) (fi : FileInfo) :
  sendFileInfo c fi = conn_Write c (frame_bytes fi).
Proof.
  unfold sendFileInfo, frame_bytes, binary_Write.
  rewrite length_list_byte_of_string.
  set (p1 := be_bytes 4 _). set (p2 := list_byte_of_string _).
  set (p3 := be_bytes 8 _). set (p4 := [_]).
  rewrite <- (conn_Write_then c p1 (p2 ++ p3 ++ p4)).
  destruct (conn_Write c p1) as [[e|] c1]; [reflexivity|].
  rewrite <- (conn_Write_then c1 p2 (p3 ++ p4)).
  destruct (conn_Write c1 p2) as [[e|] c2]; [reflexivity|].
  rewrite <- (conn_Write_then c2 p3 p4).
  destruct (conn_Write c2 p3) as [[e|] c3]; [reflexivity|].
  destruct (conn_Write c3 p4) as [[e|] c4]; reflexivity.
Qed.

(** X8. On any connection [sendFileInfo] hands the bytes of the frame to it
    in order and does not take back what a failed write left on the wire: the
    wire holds as much of the frame as the connection took. It returns [nil]
    when the connection takes the whole frame, the length of the name and 13
    bytes, and the error of the connection otherwise. *)
Theorem sendFileInfo_no_rollback (c : WConn) (fi : FileInfo) :
  let r := sendFileInfo c fi in
  sent (snd r) = sent c ++ take (room c) (frame_bytes fi)
  /\ room (snd r) = (room c - length (frame_bytes fi))%nat
  /\ fst r = if (String.length (Filename fi) + 13 <=? room c)%nat
             then None else Some (werr c).
Proof.
  cbv zeta. rewrite sendFileInfo_one_write, conn_Write_spec, length_frame_bytes.
  cbn [fst snd sent room]. auto.
Qed.

(** ** What the decoder accepts *)

Lemma ReadFull_ok (c : Conn) (k : nat) (bs : list byte) (c' : Conn) :
  ReadFull c k = (bs, None, c') ->
  pending c = bs ++ pending c' /\ length bs = k /\ closing c' = closing c.
Proof.
  unfold ReadFull. destruct (Nat.leb_spec k (length (pending c))) as [H|H];
    intros E; inversion E; subst; clear E. cbn [pending closing].
  rewrite take_drop, length_take. split; [reflexivity|]. split; [lia|reflexivity].
Qed.

Lemma binary_Read_ok (c : Conn) (n : nat) (v : Z) (c' : Conn) :
  binary_Read c n = (inr v, c') ->
  exists bs : list byte,
    pending c = bs ++ pending c' /\ length bs = n /\ v = be_value bs
    /\ closing c' = closing c.
Proof.
  unfold binary_Read. destruct (ReadFull c n) as [[bs [e|]] c1] eqn:E;
    intros H; inversion H; subst.
  apply ReadFull_ok in E as (Hp & Hl & Hc). exists bs. auto.
Qed.

Lemma byte_of_Z_mod (z : Z) : byte_of_Z (z mod 256) = byte_of_Z z.
Proof. unfold byte_of_Z. rewrite Z.mod_mod by lia. reflexivity. Qed.

(** The bytes of a value read big-endian are the bytes read. *)
Lemma be_bytes_be_value (bs : list byte) :
  be_bytes (length bs) (be_value bs) = bs.
Proof.
  induction bs as [|b bs IH] using rev_ind; [reflexivity|].
  rewrite length_app, Nat.add_comm. cbn [length Nat.add be_bytes].
  rewrite be_value_snoc. pose proof (Z_of_byte_range b) as Hb.
  rewrite Z.shiftr_div_pow2 by lia. change (2 ^ 8) with 256.
  replace ((be_value bs * 256 + Z_of_byte b) / 256) with (be_value bs)
    by (apply Z.div_unique with (r := Z_of_byte b); lia).
  rewrite IH. f_equal. f_equal.
  rewrite <- byte_of_Z_mod.
  replace ((be_value bs * 256 + Z_of_byte b) mod 256) with (Z_of_byte b)
    by (apply Z.mod_unique with (q := be_value bs); lia).
  apply byte_of_Z_of_byte.
Qed.

Lemma to_uint64_to_int64 (u : Z) : 0 <= u < 2 ^ 64 -> to_uint64 (to_int64 u) = u.
Proof.
  intros Hu. unfold to_uint64, to_int64. rewrite (Z.mod_small u) by lia.
  destruct (Z.ltb_spec u (2 ^ 63)).
  - apply Z.mod_small. lia.
  - symmetry. apply Z.mod_unique with (q := -1); lia.
Qed.

Lemma to_int64_range (z : Z) : int64_range (to_int64 z).
Proof.
  unfold int64_range, to_int64.
  pose proof (Z.mod_pos_bound z (2 ^ 64) ltac:(lia)).
  destruct (Z.ltb_spec (z mod 2 ^ 64) (2 ^ 63)); lia.
Qed.

Lemma length_string_of_list_byte (bs : list byte) :
  String.length (string_of_list_byte bs) = length bs.
Proof.
  rewrite <- (length_list_byte_of_string (string_of_list_byte bs)).
  now rewrite list_byte_of_string_of_list_byte.
Qed.

(** X9. What [receiveFileInfo] accepts: whenever it returns a descriptor,
    the name is 255 bytes long at most, the size is in the range of [int64],
    and the bytes it took from the stream are the length of the name on four
    bytes, the name, the size on eight bytes and one flag byte. The
    descriptor is a directory exactly when that byte is 1: any other value
    stands for a file. When the byte is 0 or 1 the bytes taken are the frame
    [sendFileInfo] writes for the descriptor. *)
Theorem receiveFileInfo_accepted (c c' : Conn) (fi : FileInfo) :
  receiveFileInfo c = (inr fi, c') ->
  (String.length (Filename fi) <= 255)%nat
  /\ int64_range (FileSize fi)
  /\ closing c' = closing c
  /\ exists flag : byte,
       IsDirectory fi = Byte.eqb flag x01
       /\ pending c
          = be_bytes 4 (Z.of_nat (String.length (Filename fi)))
            ++ list_byte_of_string (Filename fi)
            ++ be_bytes 8 (to_uint64 (FileSize fi))
            ++ flag :: pending c'
       /\ (flag = x00 \/ flag = x01 -> pending c = frame_bytes fi ++ pending c').
Proof.
  unfold receiveFileInfo.
  destruct (binary_Read c 4) as [[e1|len] c1] eqn:E1; [discriminate|].
  apply binary_Read_ok in E1 as (l4 & Hp1 & Hl4 & Hlen & Hc1).
  unfold maxFilenameLen. destruct (Z.ltb_spec 255 len) as [|Hcap]; [discriminate|].
  destruct (ReadFull c1 (Z.to_nat len)) as [[name [e2|]] c2] eqn:E2;
    [discriminate|].
  apply ReadFull_ok in E2 as (Hp2 & Hln & Hc2).
  destruct (binary_Read c2 8) as [[e3|u] c3] eqn:E3; [discriminate|].
  apply binary_Read_ok in E3 as (l8 & Hp3 & Hl8 & Hu & Hc3).
  destruct (ReadFull c3 1) as [[fl [e4|]] c4] eqn:E4; [discriminate|].
  apply ReadFull_ok in E4 as (Hp4 & Hlf & Hc4).
  intros H. inversion H; subst fi c4. clear H.
  cbn [Filename FileSize IsDirectory].
  destruct fl as [|flag [|? ?]]; try discriminate Hlf.
  pose proof (be_value_range l4) as Hr4. rewrite Hl4 in Hr4.
  pose proof (be_value_range l8) as Hr8. rewrite Hl8 in Hr8.
  change (256 ^ Z.of_nat 8) with (2 ^ 64) in Hr8.
  rewrite length_string_of_list_byte, Hln.
  split; [lia|]. split; [apply to_int64_range|].
  split; [congruence|].
  assert (Hbytes : pending c
                   = be_bytes 4 (Z.of_nat (Z.to_nat len))
                     ++ list_byte_of_string (string_of_list_byte name)
                     ++ be_bytes 8 (to_uint64 (to_int64 u))
                     ++ flag :: pending c').
  { rewrite Z2Nat.id by lia.
    rewrite list_byte_of_string_of_list_byte, to_uint64_to_int64 by lia.
    rewrite Hlen, Hu, <- Hl4 at 1. rewrite <- Hl8 at 1.
    rewrite !be_bytes_be_value.
    rewrite Hp1, Hp2, Hp3, Hp4. reflexivity. }
  exists flag. split; [reflexivity|]. split; [exact Hbytes|].
  intros Hflag. rewrite Hbytes. unfold frame_bytes.
  cbn [Filename FileSize IsDirectory].
  rewrite length_string_of_list_byte, Hln.
  unfold to_uint32. rewrite (Z.mod_small (Z.of_nat (Z.to_nat len))) by lia.
  rewrite <- !app_assoc. do 3 f_equal.
  destruct Hflag as [->| ->]; reflexivity.
Qed.

(** A frame whose flag byte is 2: it is taken for a file. *)
Lemma receiveFileInfo_accepted_witness :
  (String.length "a" <= 255)%nat
  /\ int64_range 5
  /\ EOF = EOF
  /\ exists flag : byte,
       false = Byte.eqb flag x01
       /\ [x00; x00; x00; x01; x61; x00; x00; x00; x00; x00; x00; x00; x05; x02;
           xff]
          = be_bytes 4 (Z.of_nat (String.length "a"))
            ++ list_byte_of_string "a"
            ++ be_bytes 8 (to_uint64 5)
            ++ flag :: [xff]
       /\ (flag = x00 \/ flag = x01 ->
           [x00; x00; x00; x01; x61; x00; x00; x00; x00; x00; x00; x00; x05; x02;
            xff]
           = frame_bytes (mkFileInfo "a" 5 false) ++ [xff]).
Proof.
  exact (receiveFileInfo_accepted
           (mkConn [x00; x00; x00; x01; x61; x00; x00; x00; x00; x00; x00;
                    x00; x05; x02; xff] EOF)
           (mkConn [xff] EOF) (mkFileInfo "a" 5 false) eq_refl).
Defined.

(** ** What the sender puts on the wire *)

Lemma wire_after_app (c : WConn) (p q : list byte) :
  wire_after (wire_after c p) q = wire_after c (p ++ q).
Proof.
  unfold wire_after. cbn [sent room werr].
  rewrite length_app, take_app, <- app_assoc. f_equal. lia.
Qed.

Lemma wire_after_take (c : WConn) (p : list byte) (k : nat) :
  (room c < k)%nat -> wire_after c (take k p) = wire_after c p.
Proof.
  intros H. unfold wire_after. rewrite take_take, length_take.
  f_equal; [f_equal; f_equal; lia|lia].
Qed.

Lemma sendChunks_wire (elapsed : nat -> Z) (fuel : nat) :
  forall (file : list byte) (totalSent : Z) (st : Sender),
    (length file < fuel)%nat ->
    let r := sendChunks elapsed fuel file totalSent st in
    out (snd r) = wire_after (out st) file
    /\ fst r = (if (length file <=? room (out st))%nat then Continue
                else Return (Some (werr (out st))))
    /\ emitted (snd r) = emitted st
    /\ total (progressWriter (sglobals (snd r)))
       = total (progressWriter (sglobals st)).
Proof.
  induction fuel as [|fuel IH]; intros file tot st Hfuel; [lia|].
  cbn [sendChunks].
  set (n := Z.min chunkSize (Z.of_nat (length file))).
  assert (Hn : 0 <= n <= Z.of_nat (length file)) by (unfold n, chunkSize; lia).
  destruct (Z.eqb_spec n 0) as [Hz|Hnz].
  { assert (file = []) as ->
      by (destruct file; [reflexivity|unfold n, chunkSize in Hz; cbn [length] in Hz; lia]).
    cbn [fst snd length Nat.leb]. unfold wire_after.
    rewrite take_nil, app_nil_r, Nat.sub_0_r. destruct (out st); auto. }
  rewrite conn_Write_spec. fold (wire_after (out st) (take (Z.to_nat n) file)).
  rewrite length_take.
  assert (Hk : (0 < Z.to_nat n <= length file)%nat) by lia.
  rewrite Nat.min_l by lia.
  destruct (Nat.leb_spec (Z.to_nat n) (room (out st))) as [Hfit|Hshort].
  - cbv zeta.
    match goal with |- context [sendChunks elapsed fuel ?f ?t ?s] =>
      destruct (IH f t s) as (Ho & Hf & He & Ht); [rewrite length_drop; lia|]
    end.
    revert Ho Hf He Ht. sender_simpl. rewrite total_observe.
    intros -> -> -> ->.
    rewrite <- (take_drop (Z.to_nat n) file) at 3.
    rewrite wire_after_app. split; [reflexivity|].
    split; [|split; reflexivity].
    unfold wire_after. cbn [room werr]. rewrite length_take, length_drop.
    rewrite Nat.min_l by lia.
    destruct (Nat.leb_spec (length file - Z.to_nat n) (room (out st) - Z.to_nat n)),
             (Nat.leb_spec (length file) (room (out st))); try lia; reflexivity.
  - cbn [fst snd]. sender_simpl.
    rewrite wire_after_take by exact Hshort.
    destruct (Nat.leb_spec (length file) (room (out st))); [lia|]. auto.
Qed.

Lemma emit_wire (fi : FileInfo) (st : Sender) :
  emit fi st
  = (if (String.length (Filename fi) + 13 <=? room (out st))%nat then None
     else Some (werr (out st)),
     mkSender (wire_after (out st) (frame_bytes fi)) (emitted st ++ [fi])
              (sglobals st)).
Proof.
  unfold emit, wire_after.
  rewrite sendFileInfo_one_write, conn_Write_spec, length_frame_bytes.
  reflexivity.
Qed.

Lemma sendSingleFile_out (elapsed : nat -> Z) (st : Sender) (size : Z)
    (file : list byte) (name : string) :
  let fi := mkFileInfo name size false in
  let r := sendSingleFile elapsed st size file name in
  out (snd r) = wire_after (out st) (frame_bytes fi ++ file)
  /\ fst r
     = if (String.length name + 13 + length file <=? room (out st))%nat
       then None
       else if (String.length name + 13 <=? room (out st))%nat
            then Some (werr (out st))
            else Some (Wrap "failed to send file info" (werr (out st))).
Proof.
  cbv zeta. unfold sendSingleFile. rewrite emit_wire. cbn [Filename FileSize].
  set (fi := mkFileInfo name size false).
  assert (Hlen : length (frame_bytes fi) = (String.length name + 13)%nat)
    by apply length_frame_bytes.
  destruct (Nat.leb_spec (String.length name + 13) (room (out st))) as [Hfit|Hshort].
  - match goal with |- context [sendChunks elapsed _ file 0 ?s] =>
      destruct (sendChunks_wire elapsed (S (length file)) file 0 s)
        as (Ho & Hf & _); [lia|];
      destruct (sendChunks elapsed (S (length file)) file 0 s) as [o st2]
    end.
    cbn [fst snd] in Ho, Hf. revert Ho Hf. sender_simpl.
    rewrite wire_after_app. unfold wire_after at 2. cbn [room werr].
    rewrite Hlen. intros Ho Hf.
    destruct (Nat.leb_spec (length file) (room (out st) - (String.length name + 13))),
             (Nat.leb_spec (String.length name + 13 + length file) (room (out st)));
      try lia; subst o; cbn [fst snd]; sender_simpl; rewrite Ho; auto.
  - cbn [fst snd out].
    destruct (Nat.leb_spec (String.length name + 13 + length file) (room (out st)));
      [lia|].
    split; [|reflexivity].
    unfold wire_after. rewrite length_app, take_app, Hlen.
    replace (room (out st) - (String.length name + 13))%nat with 0%nat by lia.
    replace (room (out st) - (String.length name + 13 + length file))%nat
      with 0%nat by lia.
    now rewrite take_0, app_nil_r.
Qed.


(** X11. When the connection takes the frame but breaks before the end of
    the content, [sendSingleFile] returns the error and part of the file is
    missing on the wire, yet the deferred [Finalize] leaves the tracker at
    the full size of the file. *)
Theorem failed_send_reported_complete (elapsed : nat -> Z) (st : Sender)
    (file : list byte) (name : string) :
  (String.length name + 13 <= room (out st))%nat ->
  (room (out st) < String.length name + 13 + length file)%nat ->
  let r := sendSingleFile elapsed st (Z.of_nat (length file)) file name in
  fst r = Some (werr (out st))
  /\ (length (sent (out (snd r)))
      < length (sent (out st)) + String.length name + 13 + length file)%nat
  /\ current (progressWriter (sglobals (snd r))) = Z.of_nat (length file).
Proof.
  intros Hfit Hshort. cbv zeta.
  destruct (sendSingleFile_out elapsed st (Z.of_nat (length file)) file name)
    as (Hs & He).
  cbv zeta in Hs, He. rewrite Hs, He. cbn [wire_after sent].
  destruct (Nat.leb_spec (String.length name + 13 + length file) (room (out st)));
    [lia|].
  destruct (Nat.leb_spec (String.length name + 13) (room (out st))); [|lia].
  split; [reflexivity|]. split.
  { rewrite length_app, length_take, length_app, length_frame_bytes.
    cbn [Filename]. lia. }
  clear Hs He. unfold sendSingleFile. rewrite emit_wire. cbn [Filename FileSize].
  destruct (Nat.leb_spec (String.length name + 13) (room (out st))); [|lia].
  match goal with |- context [sendChunks elapsed _ file 0 ?s] =>
    destruct (sendChunks_wire elapsed (S (length file)) file 0 s)
      as (_ & Hf & _ & Ht); [lia|];
    destruct (sendChunks elapsed (S (length file)) file 0 s) as [o st2]
  end.
  cbn [fst snd] in Hf, Ht. revert Hf Ht. sender_simpl.
  unfold wire_after. cbn [room werr total NewProgressWriter].
  rewrite length_frame_bytes. cbn [Filename].
  destruct (Nat.leb_spec (length file) (room (out st) - (String.length name + 13)));
    [lia|].
  intros -> Ht. cbn [snd]. sender_simpl. unfold Finalize. rewrite Ht.
  destruct (Z.ltb_spec 0 (Z.of_nat (length file))); [|lia].
  reflexivity.
Qed.

(** A connection that takes 15 bytes, a frame of 14 and a file of 3. *)
Lemma failed_send_reported_complete_witness :
  let r := sendSingleFile (fun _ => 0)
             (mkSender (mkWConn [] 15 (ErrMsg "broken pipe")) []
                       (mkGlobals (NewProgressWriter 0 EmptyString) []))
             3 [x61; x62; x63] "a" in
  fst r = Some (ErrMsg "broken pipe")
  /\ (length (sent (out (snd r))) < 0 + 1 + 13 + 3)%nat
  /\ current (progressWriter (sglobals (snd r))) = 3.
Proof.
  apply (failed_send_reported_complete (fun _ => 0)
           (mkSender (mkWConn [] 15 (ErrMsg "broken pipe")) []
                     (mkGlobals (NewProgressWriter 0 EmptyString) []))
           [x61; x62; x63] "a"); cbn; lia.
Defined.

(** X12. [sendStdinRaw] refuses an empty input with "no data received from
    stdin" and writes nothing; any other input is sent exactly as
    [sendSingleFile] sends a file called [data.bin] that holds it. *)
Theorem sendStdinRaw_as_file (elapsed : nat -> Z) (st : Sender) (data : list byte) :
  sendStdinRaw elapsed st data
  = match data with
    | [] => (Some (ErrMsg "no data received from stdin"), st)
    | _ :: _ => sendSingleFile elapsed st (Z.of_nat (length data)) data "data.bin"
    end.
Proof.
  destruct data as [|b data]; reflexivity.
Qed.

(** ** The receiver never removes what is on the disk *)

Lemma same_kind_refl (e : entry) : same_kind e e = true.
Proof. destruct e; reflexivity. Qed.

Lemma same_kind_trans (e1 e2 e3 : entry) :
  same_kind e1 e2 = true -> same_kind e2 e3 = true -> same_kind e1 e3 = true.
Proof. destruct e1, e2, e3; cbn; congruence. Qed.

Lemma keeps_refl (d : gmap string entry) : keeps d d.
Proof. intros p e H. exists e. split; [exact H|apply same_kind_refl]. Qed.

Lemma keeps_trans (d1 d2 d3 : gmap string entry) :
  keeps d1 d2 -> keeps d2 d3 -> keeps d1 d3.
Proof.
  intros H12 H23 p e H. destruct (H12 p e H) as (e2 & H2 & K2).
  destruct (H23 p e2 H2) as (e3 & H3 & K3). exists e3.
  split; [exact H3|exact (same_kind_trans _ _ _ K2 K3)].
Qed.

Lemma keeps_insert_new (d : gmap string entry) (p : string) (e : entry) :
  d !! p = None -> keeps d (<[p := e]> d).
Proof.
  intros Hnone q e0 H. destruct (decide (p = q)) as [->|Hne]; [congruence|].
  exists e0. rewrite lookup_insert_ne by exact Hne.
  split; [exact H|apply same_kind_refl].
Qed.

Lemma keeps_insert_file (d : gmap string entry) (p : string) (w : list byte) :
  d !! p <> Some EDir -> keeps d (<[p := EFile w]> d).
Proof.
  intros Hnd q e0 H. destruct (decide (p = q)) as [->|Hne].
  - exists (EFile w). rewrite lookup_insert_eq. split; [reflexivity|].
    destruct e0; [contradiction|reflexivity].
  - exists e0. rewrite lookup_insert_ne by exact Hne.
    split; [exact H|apply same_kind_refl].
Qed.

Lemma stat_None (d : gmap string entry) (p : string) :
  stat d p = None -> d !! p = None.
Proof. unfold stat. destruct (implicit_dir p); [discriminate|auto]. Qed.

Lemma stat_not_dir (d : gmap string entry) (p : string) :
  stat d p <> Some EDir -> d !! p <> Some EDir.
Proof. unfold stat. destruct (implicit_dir p); congruence. Qed.

Lemma mkdir_chain_keeps (dirs : list string) :
  forall d : gmap string entry, keeps d (snd (mkdir_chain d dirs)).
Proof.
  induction dirs as [|p dirs IH]; intros d; cbn [mkdir_chain].
  - apply keeps_refl.
  - destruct (stat d p) as [[|w]|] eqn:Es; [apply IH|apply keeps_refl|].
    destruct (has_nul p); [apply keeps_refl|].
    eapply keeps_trans; [|apply IH].
    apply keeps_insert_new, stat_None, Es.
Qed.

Lemma os_MkdirAll_keeps (d d' : gmap string entry) (path : string)
    (err : option error) :
  os_MkdirAll d path = (err, d') -> keeps d d'.
Proof.
  intros H. pose proof (mkdir_chain_keeps (ancestors path) d) as K.
  unfold os_MkdirAll in H. now rewrite H in K.
Qed.

Lemma os_Create_keeps (d d' : gmap string entry) (name : string) :
  os_Create d name = inr d' -> keeps d d'.
Proof.
  unfold os_Create. intros H.
  assert (Hnd : d !! name <> Some EDir).
  { apply stat_not_dir. destruct (stat d name) as [[|?]|]; congruence. }
  destruct (stat d name) as [[|?]|]; [discriminate|..];
    (destruct (has_nul name); [discriminate|];
     destruct (stat d (Dir name)) as [[|?]|]; [|discriminate..];
     inversion H; apply keeps_insert_file, Hnd).
Qed.

Lemma file_Write_keeps (d : gmap string entry) (name : string) (p : list byte) :
  keeps d (file_Write d name p).
Proof.
  unfold file_Write. destruct (d !! name) as [[|w]|] eqn:E;
    try apply keeps_refl.
  apply keeps_insert_file. congruence.
Qed.

Lemma receiveContent_keeps (elapsed : nat -> Z) (fi : FileInfo)
    (fullPath : string) (fuel : nat) :
  forall (totalReceived : Z) (st st' : Receiver) (o : outcome),
    receiveContent elapsed fuel fi fullPath totalReceived st = Some (o, st') ->
    keeps (disk st) (disk st').
Proof.
  induction fuel as [|fuel IH]; intros tot st st' o H; [discriminate|].
  cbn [receiveContent] in H.
  destruct (tot <? FileSize fi); [|inversion H; apply keeps_refl].
  destruct (ReadFull (conn st) _) as [[chunk err] c1].
  destruct (read_failed err); [inversion H; apply keeps_refl|].
  revert H. state_simpl.
  destruct (FileSize fi <=? tot + Z.of_nat (length chunk)); intros H.
  - inversion H. state_simpl. apply file_Write_keeps.
  - apply IH in H. revert H. state_simpl. intros H.
    eapply keeps_trans; [apply file_Write_keeps|exact H].
Qed.

Lemma receiveItem_keeps (elapsed : nat -> Z) (fuel : nat) (st st' : Receiver)
    (o : outcome) :
  receiveItem elapsed fuel st = Some (o, st') -> keeps (disk st) (disk st').
Proof.
  unfold receiveItem.
  destruct (receiveFileInfo (conn st)) as [[e|fi] c1].
  { destruct (is_termination e); intros H; inversion H; apply keeps_refl. }
  state_simpl.
  destruct (os_MkdirAll (disk st) receiveDir) as [oe d1] eqn:E1.
  apply os_MkdirAll_keeps in E1.
  destruct oe as [e|]; [intros H; inversion H; exact E1|].
  state_simpl.
  destruct (IsDirectory fi).
  { destruct (os_MkdirAll d1 _) as [[e|] d2] eqn:E2; intros H; inversion H;
      state_simpl;
      (eapply keeps_trans; [exact E1|exact (os_MkdirAll_keeps _ _ _ _ E2)]). }
  match goal with
  | |- match ?x with _ => _ end = _ -> _ => destruct x as [oe d2] eqn:E2
  end.
  assert (K2 : keeps d1 d2).
  { destruct (_ && _) in E2; [exact (os_MkdirAll_keeps _ _ _ _ E2)|].
    inversion E2. apply keeps_refl. }
  destruct oe as [e|];
    [intros H; inversion H; state_simpl; exact (keeps_trans _ _ _ E1 K2)|].
  state_simpl.
  destruct (os_Create d2 _) as [e|d3] eqn:E3;
    [intros H; inversion H; state_simpl;
     exact (keeps_trans _ _ _ E1 K2)|].
  apply os_Create_keeps in E3. state_simpl.
  destruct (receiveContent elapsed fuel fi _ 0 _) as [[[err|] st2]|] eqn:Ec;
    [| |discriminate];
    apply receiveContent_keeps in Ec; revert Ec; state_simpl; intros Ec H;
    inversion H; subst; state_simpl;
    exact (keeps_trans _ _ _ E1 (keeps_trans _ _ _ K2 (keeps_trans _ _ _ E3 Ec))).
Qed.

(** X13. The receiver removes nothing: whatever the stream, when
    [receiveFileRaw] returns, all that was on the disk is still there, a
    directory as a directory and a file as a file. *)
Theorem receiver_keeps_entries (elapsed : nat -> Z) (fuel : nat) :
  forall (st st' : Receiver) (err : option error),
    receiveFileRaw elapsed fuel st = Some (err, st') ->
    forall (p : string) (e : entry),
      disk st !! p = Some e ->
      exists e' : entry, disk st' !! p = Some e' /\ same_kind e e' = true.
Proof.
  induction fuel as [|fuel IH]; intros st st' err H; [discriminate|].
  cbn [receiveFileRaw] in H.
  destruct (receiveItem elapsed fuel st) as [[[e|] st1]|] eqn:Ei;
    [| |discriminate]; apply receiveItem_keeps in Ei.
  - inversion H; subst. exact Ei.
  - exact (keeps_trans _ _ _ Ei (IH _ _ _ H)).
Qed.

(** The file [x] is sent again, with another content. *)
Lemma receiver_keeps_entries_witness :
  match
    receiveFileRaw (fun _ => 0) 5
      (mkReceiver
         (mkConn (frame_bytes (mkFileInfo "x" 2 false) ++ [x42; x43]) EOF)
         sample_disk sample_globals)
  with
  | Some (_, st') =>
    exists e' : entry,
      disk st' !! "received/x"%string = Some e'
      /\ same_kind (EFile [x41]) e' = true
  | None => False
  end.
Proof.
  destruct (receiveFileRaw (fun _ => 0) 5
              (mkReceiver
                 (mkConn (frame_bytes (mkFileInfo "x" 2 false) ++ [x42; x43]) EOF)
                 sample_disk sample_globals))
    as [[err st']|] eqn:E.
  - exact (receiver_keeps_entries (fun _ => 0) 5 _ st' err E
             "received/x"%string (EFile [x41]) eq_refl).
  - vm_compute in E. discriminate E.
Defined.

(** ** Paths under the receive directory *)

Lemma FromSlash_id (p : string) : FromSlash p = p.
Proof. reflexivity. Qed.

Lemma plain_receiveDir : plain_name receiveDir = true.
Proof. reflexivity. Qed.

Lemma join_path_snoc (xs : list string) (x : string) :
  xs <> [] -> join_path (xs ++ [x]) = join_path xs +:+ String Separator x.
Proof.
  induction xs as [|a xs IH]; intros Hne; [contradiction|].
  destruct xs as [|b xs]; [reflexivity|].
  change ((a :: b :: xs) ++ [x]) with (a :: ((b :: xs) ++ [x])).
  rewrite join_path_cons by (cbn; discriminate).
  rewrite IH by discriminate.
  rewrite (join_path_cons a (b :: xs)) by discriminate.
  generalize (join_path (b :: xs)). intros s.
  induction a as [|c a IHa]; [reflexivity|].
  change (String c a +:+ ?t) with (String c (a +:+ t)). now rewrite IHa.
Qed.

Lemma target_path_join (es : list string) :
  es <> [] -> Forall (fun e => plain_name e = true) es ->
  target_path (join_path es) = join_path (receiveDir :: es).
Proof.
  intros Hne Hes. unfold target_path. rewrite FromSlash_id.
  apply Join_plain; [reflexivity|exact Hes|exact Hne].
Qed.

Lemma join_path_inj (xs ys : list string) :
  xs <> [] -> ys <> [] ->
  Forall (fun e => plain_name e = true) xs ->
  Forall (fun e => plain_name e = true) ys ->
  join_path xs = join_path ys -> xs = ys.
Proof.
  intros Hx Hy Px Py H. apply (f_equal split_path) in H.
  rewrite !split_join_path in H by (assumption || apply plain_sep_free; assumption).
  exact H.
Qed.

Lemma has_sep_app (a b : string) : has_sep (a +:+ b) = has_sep a || has_sep b.
Proof.
  induction a as [|c a IH]; [reflexivity|].
  change (String c a +:+ b) with (String c (a +:+ b)).
  cbn [has_sep]. rewrite IH. apply orb_assoc.
Qed.

Lemma upto_last_sep_app (a x : string) :
  has_sep x = false ->
  upto_last_sep (a +:+ String Separator x) = a +:+ String Separator EmptyString.
Proof.
  intros Hx. induction a as [|c a IH].
  - change (upto_last_sep (EmptyString +:+ String Separator x))
      with (String Separator (upto_last_sep x)).
    destruct x as [|c x]; [reflexivity|].
    cbn [upto_last_sep]. now rewrite Hx.
  - change (String c a +:+ String Separator ?s)
      with (String c (a +:+ String Separator s)).
    cbn [upto_last_sep]. rewrite IH.
    replace (has_sep (String c (a +:+ String Separator x))) with true;
      [reflexivity|].
    cbn [has_sep]. rewrite has_sep_app. cbn [has_sep].
    change (is_sep Separator) with true. cbn [orb].
    now rewrite !orb_true_r.
Qed.

Lemma join_path_not_empty (xs : list string) :
  xs <> [] -> Forall (fun e => plain_name e = true) xs ->
  String.eqb (join_path xs) EmptyString = false.
Proof.
  intros Hne Hxs. apply String.eqb_neq. intros H.
  assert (Hsp : split_path (join_path xs) = xs)
    by (apply split_join_path; [assumption|apply plain_sep_free; assumption]).
  rewrite H in Hsp. cbn in Hsp. subst xs.
  inversion Hxs; subst. discriminate.
Qed.

Lemma Dir_join (xs : list string) (x : string) :
  xs <> [] -> Forall (fun e => plain_name e = true) xs -> plain_name x = true ->
  Dir (join_path (xs ++ [x])) = join_path xs.
Proof.
  intros Hne Hxs Hx. unfold Dir.
  rewrite join_path_snoc by exact Hne.
  rewrite upto_last_sep_app by (apply plain_name_spec in Hx; tauto).
  destruct xs as [|a xs]; [contradiction|].
  apply Clean_relative.
  - inversion Hxs; subst. rewrite rooted_app.
    + apply rooted_join_path, plain_kept. assumption.
    + intros H.
      pose proof (join_path_not_empty (a :: xs) Hne Hxs) as Hn.
      rewrite H in Hn. discriminate Hn.
  - rewrite split_path_app_sep, split_join_path
      by (discriminate || apply plain_sep_free; assumption).
    rewrite clean_elems_stack, clean_stack_app.
    rewrite (clean_stack_plain false [] (a :: xs)) by exact Hxs.
    cbn [split_path clean_stack String.eqb orb]. rewrite app_nil_r.
    apply rev_involutive.
Qed.

Lemma ancestors_join (es : list string) :
  es <> [] -> Forall (fun e => plain_name e = true) es ->
  ancestors (join_path es) = prefixes_from EmptyString es.
Proof.
  intros Hne Hes. unfold ancestors.
  destruct es as [|e es]; [contradiction|].
  rewrite rooted_join_path by (inversion Hes; subst; apply plain_kept; assumption).
  rewrite split_join_path by (discriminate || apply plain_sep_free; assumption).
  now rewrite filter_plain.
Qed.

Lemma prefixes_from_join (xs es : list string) :
  xs <> [] -> Forall (fun e => plain_name e = true) xs ->
  Forall (fun e => plain_name e = true) es ->
  prefixes_from (join_path xs) es
  = map (fun pre => join_path (xs ++ pre)) (nonempty_prefixes es).
Proof.
  intros Hne Hxs Hes. revert xs Hne Hxs.
  induction Hes as [|e es He Hes IH]; intros xs Hne Hxs; [reflexivity|].
  cbn [prefixes_from nonempty_prefixes map].
  rewrite join_path_not_empty by assumption.
  change (join_path xs +:+ "/" +:+ e) with (join_path xs +:+ String Separator e).
  rewrite <- join_path_snoc by exact Hne. f_equal.
  rewrite IH.
  - rewrite map_map. apply map_ext. intros pre. now rewrite <- app_assoc.
  - destruct xs; discriminate.
  - apply Forall_app. split; [exact Hxs|]. constructor; [exact He|constructor].
Qed.

Lemma prefixes_from_start (es : list string) :
  Forall (fun e => plain_name e = true) es ->
  prefixes_from EmptyString es = map join_path (nonempty_prefixes es).
Proof.
  intros Hes. destruct Hes as [|e es He Hes]; [reflexivity|].
  cbn [prefixes_from nonempty_prefixes map String.eqb]. f_equal.
  change e with (join_path [e]) at 1.
  rewrite prefixes_from_join
    by (discriminate || assumption || (repeat constructor; assumption)).
  now rewrite map_map.
Qed.

Lemma nonempty_prefixes_spec {A : Type} (l pre : list A) :
  pre ∈ nonempty_prefixes l <-> pre <> [] /\ pre `prefix_of` l.
Proof.
  revert pre. induction l as [|a l IH]; intros pre; cbn [nonempty_prefixes].
  - split; [intros H; inversion H|].
    intros [Hne Hp]. apply prefix_nil_inv in Hp. contradiction.
  - rewrite elem_of_cons, list_elem_of_fmap. split.
    + intros [->|(q & -> & Hq)].
      * split; [discriminate|]. apply prefix_cons, prefix_nil.
      * apply IH in Hq as [_ Hq]. split; [discriminate|].
        apply prefix_cons, Hq.
    + intros [Hne Hp]. destruct pre as [|b pre]; [contradiction|].
      apply prefix_cons_inv_1 in Hp as Hb. subst b.
      apply prefix_cons_inv_2 in Hp.
      destruct pre as [|c pre]; [left; reflexivity|right].
      exists (c :: pre). split; [reflexivity|]. apply IH.
      split; [discriminate|exact Hp].
Qed.

Lemma implicit_dir_received (es : list string) :
  Forall (fun e => plain_name e = true) es ->
  implicit_dir (join_path (receiveDir :: es)) = false.
Proof.
  intros Hes. unfold implicit_dir.
  assert (Hall : Forall (fun e => plain_name e = true) (receiveDir :: es))
    by (constructor; [reflexivity|exact Hes]).
  rewrite split_join_path by (discriminate || apply plain_sep_free, Hall).
  cbn [forallb]. change (String.eqb receiveDir "..") with false.
  cbn [andb]. rewrite orb_false_r.
  destruct es as [|e es]; [reflexivity|].
  rewrite join_path_cons by discriminate. reflexivity.
Qed.

(** ** The directories the receiver makes *)

Lemma no_file_at_insert (d : gmap string entry) (p q : string) :
  no_file_at d q = true -> no_file_at (<[p := EDir]> d) q = true.
Proof.
  unfold no_file_at. destruct (decide (p = q)) as [->|Hne].
  - now rewrite lookup_insert_eq.
  - now rewrite lookup_insert_ne.
Qed.

Lemma has_nul_app (a b : string) : has_nul (a +:+ b) = has_nul a || has_nul b.
Proof.
  induction a as [|c a IH]; [reflexivity|].
  change (String c a +:+ b) with (String c (a +:+ b)).
  cbn [has_nul]. rewrite IH. apply orb_assoc.
Qed.

Lemma has_nul_join_path (es : list string) :
  Forall (fun e => has_nul e = false) es -> has_nul (join_path es) = false.
Proof.
  induction 1 as [|e es He Hes IH]; [reflexivity|].
  destruct es as [|e' es]; [exact He|].
  rewrite join_path_cons by discriminate.
  rewrite has_nul_app, He. cbn [has_nul orb]. rewrite IH. reflexivity.
Qed.

Lemma mkdir_chain_ensure (dirs : list string) :
  forall d : gmap string entry,
    Forall (fun p => implicit_dir p = false) dirs ->
    Forall (fun p => has_nul p = false) dirs ->
    forallb (no_file_at d) dirs = true ->
    mkdir_chain d dirs = (None, ensure_dirs d dirs).
Proof.
  induction dirs as [|p dirs IH]; intros d Himp Hnul Hok; [reflexivity|].
  inversion Himp as [|? ? Hp Himp']; subst.
  inversion Hnul as [|? ? Hn Hnul']; subst.
  cbn [forallb] in Hok. apply andb_true_iff in Hok as [Hp' Hok].
  cbn [mkdir_chain ensure_dirs fold_left]. unfold stat. rewrite Hp, Hn.
  unfold no_file_at in Hp'.
  assert (Hok' : forallb (no_file_at (<[p := EDir]> d)) dirs = true).
  { rewrite forallb_forall in Hok |- *. intros q Hq.
    apply no_file_at_insert, Hok, Hq. }
  destruct (d !! p) as [[|w]|] eqn:E; [|discriminate|].
  - rewrite <- (insert_id d p EDir E) at 1. apply IH; assumption.
  - apply IH; assumption.
Qed.

Lemma ensure_dirs_lookup (dirs : list string) :
  forall (d : gmap string entry) (p : string),
    ensure_dirs d dirs !! p = if bool_decide (p ∈ dirs) then Some EDir else d !! p.
Proof.
  induction dirs as [|q dirs IH]; intros d p; cbn [ensure_dirs fold_left].
  - rewrite bool_decide_eq_false_2; [reflexivity|]. intros H; inversion H.
  - fold (ensure_dirs (<[q := EDir]> d) dirs). rewrite IH.
    destruct (decide (p ∈ dirs)) as [Hin|Hnin].
    + rewrite !bool_decide_eq_true_2; [reflexivity|right; exact Hin|exact Hin].
    + rewrite (bool_decide_eq_false_2 _ Hnin).
      destruct (decide (p = q)) as [->|Hne].
      * rewrite lookup_insert_eq, bool_decide_eq_true_2; [reflexivity|left].
      * rewrite lookup_insert_ne by congruence.
        rewrite bool_decide_eq_false_2; [reflexivity|].
        rewrite elem_of_cons. tauto.
Qed.

Lemma ensure_dirs_app (d : gmap string entry) (l1 l2 : list string) :
  ensure_dirs d (l1 ++ l2) = ensure_dirs (ensure_dirs d l1) l2.
Proof. apply fold_left_app. Qed.

Lemma ensure_dirs_twice (d : gmap string entry) (p : string) (dirs : list string) :
  ensure_dirs (<[p := EDir]> d) (p :: dirs) = ensure_dirs d (p :: dirs).
Proof.
  cbn [ensure_dirs fold_left]. now rewrite insert_insert_eq.
Qed.

Lemma removelast_plain (es : list string) :
  Forall (fun e => plain_name e = true) es ->
  Forall (fun e => plain_name e = true) (removelast es).
Proof.
  intros Hes. destruct es as [|e es] using rev_ind; [constructor|].
  rewrite removelast_last. apply Forall_app in Hes. tauto.
Qed.

Lemma item_dir_elems_plain (it : item) :
  Forall (fun e => plain_name e = true) (fst it) ->
  Forall (fun e => plain_name e = true) (item_dir_elems it).
Proof.
  intros Hes. unfold item_dir_elems.
  destruct (snd it); [exact Hes|apply removelast_plain, Hes].
Qed.

(** The directories made for an item: the receive directory and, below it,
    those that lead to the item. *)
Lemma item_dirs_elem (it : item) (p : string) :
  Forall (fun e => plain_name e = true) (fst it) ->
  p ∈ item_dirs it
  <-> exists pre : list string,
        p = join_path (receiveDir :: pre) /\ pre `prefix_of` item_dir_elems it.
Proof.
  intros Hes. unfold item_dirs.
  rewrite prefixes_from_start
    by (constructor; [reflexivity|apply item_dir_elems_plain, Hes]).
  rewrite list_elem_of_fmap. split.
  - intros (pre & -> & Hpre).
    apply nonempty_prefixes_spec in Hpre as [Hne Hp].
    destruct pre as [|a pre]; [contradiction|].
    apply prefix_cons_inv_1 in Hp as Ha. subst a.
    apply prefix_cons_inv_2 in Hp. eauto.
  - intros (pre & -> & Hp). exists (receiveDir :: pre).
    split; [reflexivity|]. apply nonempty_prefixes_spec.
    split; [discriminate|apply prefix_cons, Hp].
Qed.

Lemma item_dirs_cons (it : item) :
  item_dirs it = receiveDir :: prefixes_from receiveDir (item_dir_elems it).
Proof. reflexivity. Qed.

Lemma item_dirs_not_implicit (it : item) :
  Forall (fun e => plain_name e = true) (fst it) ->
  Forall (fun p => implicit_dir p = false) (item_dirs it).
Proof.
  intros Hes. apply Forall_forall. intros p Hp.
  apply item_dirs_elem in Hp as (pre & -> & tl & Htl); [|exact Hes].
  apply implicit_dir_received.
  pose proof (item_dir_elems_plain it Hes) as Hpl.
  rewrite Htl in Hpl. apply Forall_app in Hpl. tauto.
Qed.

Lemma item_dirs_no_nul (it : item) :
  Forall (fun e => plain_name e = true) (fst it) ->
  Forall (fun e => has_nul e = false) (fst it) ->
  Forall (fun p => has_nul p = false) (item_dirs it).
Proof.
  intros Hes Hnul. apply Forall_forall. intros p Hp.
  apply item_dirs_elem in Hp as (pre & -> & tl & Htl); [|exact Hes].
  apply has_nul_join_path. constructor; [reflexivity|].
  assert (Hel : Forall (fun e => has_nul e = false) (item_dir_elems it)).
  { unfold item_dir_elems. destruct (snd it); [exact Hnul|].
    destruct (fst it) as [|e es _] using rev_ind; [constructor|].
    rewrite removelast_last. apply Forall_app in Hnul. tauto. }
  rewrite Htl in Hel. apply Forall_app in Hel. tauto.
Qed.

Lemma item_target_not_dir (it : item) :
  fst it <> [] ->
  Forall (fun e => plain_name e = true) (fst it) ->
  item_dir_elems it = removelast (fst it) ->
  item_target it ∉ item_dirs it.
Proof.
  intros Hne Hes Hel Hin.
  apply item_dirs_elem in Hin as (pre & Heq & tl & Htl); [|exact Hes].
  unfold item_target in Heq.
  pose proof (item_dir_elems_plain it Hes) as Hpl. rewrite Htl in Hpl.
  apply Forall_app in Hpl as [Hpre _].
  apply join_path_inj in Heq;
    [|discriminate|discriminate
     |constructor; [reflexivity|exact Hes]
     |constructor; [reflexivity|exact Hpre]].
  inversion Heq as [Hfst]. rewrite Hel in Htl.
  apply (f_equal (@length string)) in Htl.
  destruct (fst it) as [|e es] using rev_ind; [contradiction|].
  rewrite removelast_last in Htl. rewrite <- Hfst in Htl.
  rewrite !length_app in Htl. cbn in Htl. lia.
Qed.

(** ** The content loop, with the disk it leaves *)

Lemma file_Write_insert (d : gmap string entry) (name : string) (w p : list byte) :
  d !! name = Some (EFile w) ->
  file_Write d name p = <[name := EFile (w ++ p)]> d.
Proof. intros H. unfold file_Write. now rewrite H. Qed.

Lemma receiveContent_exact (elapsed : nat -> Z) (fi : FileInfo)
    (fullPath : string) (fuel : nat) :
  forall (totalReceived : Z) (st : Receiver) (content rest w : list byte),
    pending (conn st) = content ++ rest ->
    totalReceived + Z.of_nat (length content) = FileSize fi ->
    disk st !! fullPath = Some (EFile w) ->
    (length content < fuel)%nat ->
    exists st' : Receiver,
      receiveContent elapsed fuel fi fullPath totalReceived st
      = Some (Continue, st')
      /\ conn st' = mkConn rest (closing (conn st))
      /\ disk st' = <[fullPath := EFile (w ++ content)]> (disk st).
Proof.
  induction fuel as [|fuel IH]; intros tot st content rest w Hp Hsize Hw Hfuel;
    [lia|].
  cbn [receiveContent].
  destruct (Z.ltb_spec tot (FileSize fi)) as [Hlt|Hge].
  2:{ destruct content; [|cbn [length] in Hsize; lia].
      exists st. split; [reflexivity|]. split.
      - destruct st as [[p c] d g]. cbn in Hp |- *. now rewrite Hp.
      - rewrite app_nil_r. symmetry. apply insert_id, Hw. }
  set (readSize := if FileSize fi - tot <? chunkSize
                   then FileSize fi - tot else chunkSize).
  assert (Hrs : 0 < readSize <= FileSize fi - tot).
  { unfold readSize, chunkSize.
    destruct (Z.ltb_spec (FileSize fi - tot) (32 * 1024)); lia. }
  set (k := Z.to_nat readSize).
  assert (Hk : (0 < k <= length content)%nat) by (unfold k; lia).
  unfold ReadFull. rewrite Hp, length_app.
  destruct (Nat.leb_spec k (length content + length rest)) as [_|?]; [|lia].
  cbn [read_failed]. state_simpl.
  rewrite take_app_le, drop_app_le, length_take, Nat.min_l by lia.
  rewrite (file_Write_insert _ _ w) by exact Hw.
  destruct (Z.leb_spec (FileSize fi) (tot + Z.of_nat k)) as [Hdone|Hmore].
  - assert (Hall : k = length content) by lia.
    eexists. split; [reflexivity|]. state_simpl.
    rewrite Hall, drop_all, take_ge by lia.
    split; reflexivity.
  - edestruct (IH (tot + Z.of_nat k)
                  (set_rglobals (observe elapsed (tot + Z.of_nat k) (rglobals st))
                     (set_disk (<[fullPath := EFile (w ++ take k content)]> (disk st))
                        (set_conn (mkConn (drop k content ++ rest)
                                          (closing (conn st))) st)))
                  (drop k content) rest (w ++ take k content))
      as (st' & Hrun & Hconn & Hdisk).
    + reflexivity.
    + rewrite length_drop. lia.
    + state_simpl. apply lookup_insert_eq.
    + rewrite length_drop. lia.
    + exists st'. split; [exact Hrun|]. split; [exact Hconn|].
      rewrite Hdisk. state_simpl.
      rewrite insert_insert_eq, <- app_assoc, take_drop. reflexivity.
Qed.

(** ** One item *)

Lemma os_MkdirAll_receiveDir (d : gmap string entry) :
  no_file_at d receiveDir = true ->
  os_MkdirAll d receiveDir = (None, <[receiveDir := EDir]> d).
Proof.
  intros H. unfold os_MkdirAll.
  change (ancestors receiveDir) with [receiveDir].
  rewrite mkdir_chain_ensure;
    [reflexivity|repeat constructor|repeat constructor|].
  cbn [forallb]. now rewrite H.
Qed.

Lemma accepts_dirs (d : gmap string entry) (it : item) :
  accepts d it = true ->
  no_file_at d receiveDir = true
  /\ forallb (no_file_at (<[receiveDir := EDir]> d)) (item_dirs it) = true.
Proof.
  unfold accepts. rewrite andb_true_iff. intros [H _].
  split.
  - rewrite item_dirs_cons in H. cbn [forallb] in H.
    apply andb_true_iff in H. tauto.
  - rewrite forallb_forall in H |- *. intros p Hp.
    apply no_file_at_insert, H, Hp.
Qed.

Lemma ensure_dirs_receiveDir (d : gmap string entry) (it : item) :
  ensure_dirs (<[receiveDir := EDir]> d) (item_dirs it)
  = ensure_dirs d (item_dirs it).
Proof. rewrite item_dirs_cons. apply ensure_dirs_twice. Qed.

Lemma os_MkdirAll_item_dirs (d : gmap string entry) (it : item) :
  Forall (fun e => plain_name e = true) (fst it) ->
  Forall (fun e => has_nul e = false) (fst it) ->
  accepts d it = true ->
  os_MkdirAll (<[receiveDir := EDir]> d)
              (join_path (receiveDir :: item_dir_elems it))
  = (None, ensure_dirs d (item_dirs it)).
Proof.
  intros Hes Hnul Hacc. unfold os_MkdirAll.
  rewrite ancestors_join
    by (discriminate
        || (constructor; [reflexivity|apply item_dir_elems_plain, Hes])).
  fold (item_dirs it).
  rewrite mkdir_chain_ensure.
  - now rewrite ensure_dirs_receiveDir.
  - apply item_dirs_not_implicit, Hes.
  - apply item_dirs_no_nul; assumption.
  - apply accepts_dirs, Hacc.
Qed.

Lemma item_ok_spec (it : item) :
  item_ok it = true ->
  fst it <> []
  /\ Forall (fun e => plain_name e = true) (fst it)
  /\ (String.length (join_path (fst it)) <= 255)%nat
  /\ match snd it with
     | EDir => True
     | EFile content => Z.of_nat (length content) < 2 ^ 63
     end.
Proof.
  unfold item_ok. rewrite !andb_true_iff. intros [[[[H1 H2] _] H3] H4].
  split; [destruct (fst it); [discriminate|discriminate]|].
  split.
  { apply Forall_forall. intros e He. rewrite forallb_forall in H2.
    apply H2, list_elem_of_In, He. }
  split; [apply Nat.leb_le, H3|].
  destruct (snd it); [exact I|lia].
Qed.

Lemma item_ok_no_nul (it : item) :
  item_ok it = true -> Forall (fun e => has_nul e = false) (fst it).
Proof.
  unfold item_ok. rewrite !andb_true_iff. intros [[[[_ _] H] _] _].
  apply Forall_forall. intros e He. rewrite forallb_forall in H.
  apply negb_true_iff, H, list_elem_of_In, He.
Qed.

Lemma os_Create_ok (d : gmap string entry) (name : string) :
  implicit_dir name = false ->
  has_nul name = false ->
  d !! name <> Some EDir ->
  stat d (Dir name) = Some EDir ->
  os_Create d name = inr (<[name := EFile []]> d).
Proof.
  intros Himp Hnul Hnd Hparent. unfold os_Create. rewrite Hparent, Hnul.
  unfold stat. rewrite Himp.
  destruct (d !! name) as [[|w]|]; [contradiction|reflexivity|reflexivity].
Qed.

Lemma create_target_item (d : gmap string entry) (es : list string)
    (content : list byte) :
  es <> [] ->
  Forall (fun e => plain_name e = true) es ->
  Forall (fun e => has_nul e = false) es ->
  accepts d (es, EFile content) = true ->
  create_target d (join_path es)
  = inr (<[item_target (es, EFile content) := EFile []]>
           (ensure_dirs d (item_dirs (es, EFile content)))).
Proof.
  intros Hne Hes Hnul Hacc. set (it := (es, EFile content)).
  destruct (accepts_dirs d it Hacc) as [Hrd Hdirs].
  unfold create_target.
  rewrite os_MkdirAll_receiveDir by exact Hrd.
  rewrite target_path_join by assumption.
  destruct es as [|x xs _] using rev_ind; [contradiction|].
  apply Forall_app in Hes as Hes'. destruct Hes' as [Hxs Hx].
  inversion Hx as [|? ? Hx' _]; subst.
  change (receiveDir :: xs ++ [x]) with ((receiveDir :: xs) ++ [x]).
  rewrite Dir_join by (discriminate || assumption
                       || (constructor; [reflexivity|assumption])).
  assert (Hel : item_dir_elems it = xs)
    by (unfold item_dir_elems, it; cbn [fst snd]; apply removelast_last).
  assert (Hd2 :
    (if negb (String.eqb (join_path (receiveDir :: xs)) ".")
        && negb (String.eqb (join_path (receiveDir :: xs)) receiveDir)
     then os_MkdirAll (<[receiveDir := EDir]> d) (join_path (receiveDir :: xs))
     else (None, <[receiveDir := EDir]> d))
    = (None, ensure_dirs d (item_dirs it))).
  { destruct xs as [|y ys].
    - unfold item_dirs. rewrite Hel. reflexivity.
    - replace (negb (String.eqb (join_path (receiveDir :: y :: ys)) ".")) with true
        by (rewrite join_path_cons by discriminate; reflexivity).
      replace (negb (String.eqb (join_path (receiveDir :: y :: ys)) receiveDir))
        with true.
      + cbn [andb]. pose proof (os_MkdirAll_item_dirs d it Hes Hnul Hacc) as Hm.
        rewrite Hel in Hm. exact Hm.
      + symmetry. apply negb_true_iff, String.eqb_neq. intros H.
        change receiveDir with (join_path [receiveDir]) in H at 2.
        apply join_path_inj in H; try discriminate;
          repeat (constructor; try reflexivity); try assumption. }
  rewrite Hd2. clear Hd2.
  change (join_path ((receiveDir :: xs) ++ [x])) with (item_target it).
  apply os_Create_ok.
  - exact (implicit_dir_received (xs ++ [x]) Hes).
  - apply has_nul_join_path. constructor; [reflexivity|exact Hnul].
  - rewrite ensure_dirs_lookup, bool_decide_eq_false_2.
    + unfold accepts in Hacc. apply andb_true_iff in Hacc as [_ Hacc].
      cbn [snd] in Hacc. fold it in Hacc.
      destruct (d !! item_target it) as [[|?]|]; congruence.
    + apply item_target_not_dir; [exact Hne|exact Hes|].
      unfold item_dir_elems, it. reflexivity.
  - change (item_target it) with (join_path ((receiveDir :: xs) ++ [x])).
    rewrite Dir_join by (discriminate || assumption
                         || (constructor; [reflexivity|assumption])).
    unfold stat. destruct (implicit_dir _); [reflexivity|].
    rewrite ensure_dirs_lookup, bool_decide_eq_true_2; [reflexivity|].
    apply item_dirs_elem; [exact Hes|]. exists xs. rewrite Hel. split; reflexivity.
Qed.

Lemma receiveItem_item (elapsed : nat -> Z) (fuel : nat) (it : item)
    (rest : list byte) (cl : error) (d : gmap string entry) (g : Globals) :
  item_ok it = true ->
  accepts d it = true ->
  (match snd it with EDir => 0 | EFile content => length content end < fuel)%nat ->
  exists st' : Receiver,
    receiveItem elapsed fuel
      (mkReceiver (mkConn (wire_of_item it ++ rest) cl) d g)
    = Some (Continue, st')
    /\ conn st' = mkConn rest cl
    /\ disk st' = store d it.
Proof.
  intros Hok Hacc Hfuel.
  pose proof (item_ok_no_nul it Hok) as Hnul.
  apply item_ok_spec in Hok as (Hne & Hes & Hlen & Hsize).
  destruct it as [es [|content]]; cbn [fst snd] in *.
  - (* a directory *)
    unfold wire_of_item, item_info. cbn [fst snd]. rewrite app_nil_r.
    unfold receiveItem. state_simpl.
    rewrite receiveFileInfo_frame
      by (first [exact Hlen|unfold int64_range; cbn [FileSize]; lia]).
    cbn [IsDirectory Filename]. state_simpl.
    destruct (accepts_dirs d (es, EDir) Hacc) as [Hrd Hdirs].
    rewrite os_MkdirAll_receiveDir by exact Hrd. state_simpl.
    change (Join [receiveDir; FromSlash (join_path es)])
      with (target_path (join_path es)).
    rewrite target_path_join by assumption.
    pose proof (os_MkdirAll_item_dirs d (es, EDir) Hes Hnul Hacc) as Hm.
    change (item_dir_elems (es, EDir)) with es in Hm. rewrite Hm.
    eexists. split; [reflexivity|]. state_simpl. split; reflexivity.
  - (* a file *)
    unfold wire_of_item, item_info. cbn [fst snd]. rewrite <- app_assoc.
    set (fi := mkFileInfo (join_path es) (Z.of_nat (length content)) false).
    rewrite (receiveItem_file elapsed fuel _ fi (mkConn (content ++ rest) cl)
               (<[item_target (es, EFile content) := EFile []]>
                  (ensure_dirs d (item_dirs (es, EFile content)))));
      [|apply receiveFileInfo_frame; [exact Hlen|unfold int64_range; cbn; lia]
       |reflexivity
       |apply create_target_item; assumption].
    cbn [Filename fi]. rewrite target_path_join by assumption.
    fold (item_target (es, EFile content)). fold fi.
    edestruct (receiveContent_exact elapsed fi (item_target (es, EFile content))
                 fuel 0
                 (mkReceiver (mkConn (content ++ rest) cl)
                    (<[item_target (es, EFile content) := EFile []]>
                       (ensure_dirs d (item_dirs (es, EFile content))))
                    (set_progressWriter
                       (NewProgressWriter (FileSize fi) (Base (join_path es))) g))
                 content rest []) as (st' & Hrun & Hconn & Hdisk); state_simpl.
    + reflexivity.
    + cbn [FileSize fi]. lia.
    + apply lookup_insert_eq.
    + exact Hfuel.
    + cbn [rglobals].
      change (join_path (receiveDir :: es))
        with (item_target (es, EFile content)).
      rewrite Hrun. eexists. split; [reflexivity|].
      state_simpl. split; [exact Hconn|].
      rewrite Hdisk. state_simpl. rewrite insert_insert_eq. reflexivity.
Qed.

(** ** A stream of items *)

Lemma length_wire_of_item (it : item) :
  (match snd it with EDir => 0 | EFile content => length content end
   < length (wire_of_item it))%nat.
Proof.
  unfold wire_of_item. rewrite length_app, length_frame_bytes.
  destruct (snd it); cbn [length]; lia.
Qed.

Lemma receiveFileRaw_items (elapsed : nat -> Z) (cl : error) (items : list item) :
  forall (d d' : gmap string entry) (g : Globals) (fuel : nat),
    Forall (fun it => item_ok it = true) items ->
    store_all d items = Some d' ->
    (length (wire_of items) + length items < fuel)%nat ->
    exists st' : Receiver,
      receiveFileRaw elapsed fuel (mkReceiver (mkConn (wire_of items) cl) d g)
      = Some (if is_termination cl then None
              else Some (Wrap "failed to receive file info" cl), st')
      /\ disk st' = d'
      /\ conn st' = mkConn [] cl.
Proof.
  induction items as [|it items IH]; intros d d' g fuel Hok Hst Hfuel.
  - destruct fuel as [|fuel]; [cbn in Hfuel; lia|].
    inversion Hst; subst.
    rewrite (receiveFileRaw_decode_error elapsed fuel _ cl (mkConn [] cl))
      by reflexivity.
    eexists. split; [reflexivity|]. split; reflexivity.
  - inversion Hok as [|? ? Hit Hok']; subst.
    cbn [store_all] in Hst.
    destruct (accepts d it) eqn:Hacc; [|discriminate].
    unfold wire_of in Hfuel |- *. cbn [map concat length] in Hfuel |- *.
    fold (wire_of items) in Hfuel |- *. rewrite length_app in Hfuel.
    pose proof (length_wire_of_item it) as Hlen.
    destruct fuel as [|fuel]; [lia|].
    cbn [receiveFileRaw].
    destruct (receiveItem_item elapsed fuel it (wire_of items) cl d g Hit Hacc)
      as (st1 & Hrun & Hconn & Hdisk); [lia|].
    rewrite Hrun.
    destruct st1 as [c1 d1 g1]. cbn [conn disk] in Hconn, Hdisk. subst c1 d1.
    apply IH; [exact Hok'|exact Hst|lia].
Qed.

(** X14. Items in a row: on a stream that carries items that can be taken
    (a name made of names a directory entry can bear, free of NUL bytes and
    of 255 bytes at most, a content below 2^63 bytes), each a frame followed
    by the content when it is a file, and that ends after the last of them,
    [receiveFileRaw] returns [nil] with the stream used up, provided nothing
    on the disk stands in the way of an item when its turn comes; the disk
    is then the one with the items put on it one after the other, the
    directories with those above them and the files with their content. *)
Theorem items_stored (elapsed : nat -> Z) (items : list item)
    (d d' : gmap string entry) (g : Globals) (fuel : nat) :
  Forall (fun it => item_ok it = true) items ->
  store_all d items = Some d' ->
  (length (wire_of items) + length items < fuel)%nat ->
  exists st' : Receiver,
    receiveFileRaw elapsed fuel (mkReceiver (mkConn (wire_of items) EOF) d g)
    = Some (None, st')
    /\ disk st' = d'
    /\ conn st' = mkConn [] EOF.
Proof.
  intros Hok Hst Hfuel.
  exact (receiveFileRaw_items elapsed EOF items d d' g fuel Hok Hst Hfuel).
Qed.

(** A directory and a file in it. *)
Lemma items_stored_witness :
  exists st' : Receiver,
    receiveFileRaw (fun _ => 0) 100
      (mkReceiver
         (mkConn (wire_of [(["d"], EDir); (["d"; "f"], EFile [x41])]%string) EOF)
         ∅ sample_globals)
    = Some (None, st')
    /\ disk st'
       = store (store ∅ (["d"]%string, EDir)) (["d"; "f"]%string, EFile [x41])
    /\ conn st' = mkConn [] EOF.
Proof.
  apply (items_stored (fun _ => 0)
           [(["d"], EDir); (["d"; "f"], EFile [x41])]%string ∅).
  - repeat constructor.
  - vm_compute. reflexivity.
  - apply Nat.ltb_lt. vm_compute. reflexivity.
Defined.

(** ** Files sent one after the other *)

Lemma file_item_ok (f : string * list byte) :
  file_ok f = true -> item_ok (file_item f) = true.
Proof.
  unfold file_ok, item_ok, file_item. cbn [fst snd forallb join_path].
  rewrite !andb_true_iff. tauto.
Qed.

Lemma target_path_plain (name : string) :
  plain_name name = true -> target_path name = join_path [receiveDir; name].
Proof.
  intros H. change name with (join_path [name]) at 1.
  apply target_path_join; [discriminate|repeat constructor; exact H].
Qed.

Lemma target_path_inj (n1 n2 : string) :
  plain_name n1 = true -> plain_name n2 = true ->
  target_path n1 = target_path n2 -> n1 = n2.
Proof.
  intros H1 H2 H. rewrite !target_path_plain in H by assumption.
  apply join_path_inj in H; try discriminate;
    repeat (constructor; try reflexivity); try assumption.
  now inversion H.
Qed.

Lemma target_path_not_receiveDir (name : string) :
  plain_name name = true -> target_path name <> receiveDir.
Proof.
  intros H Heq. rewrite target_path_plain in Heq by exact H.
  change receiveDir with (join_path [receiveDir]) in Heq at 2.
  apply join_path_inj in Heq; try discriminate;
    repeat (constructor; try reflexivity); try assumption.
Qed.

Lemma store_file_item (d : gmap string entry) (f : string * list byte) :
  plain_name (fst f) = true ->
  store d (file_item f)
  = <[target_path (fst f) := EFile (snd f)]> (<[receiveDir := EDir]> d).
Proof.
  intros H. unfold store, file_item, item_target. cbn [fst snd].
  rewrite target_path_plain by exact H. reflexivity.
Qed.

Lemma flat_disk_store (d : gmap string entry) (f : string * list byte) :
  plain_name (fst f) = true -> flat_disk d ->
  accepts d (file_item f) = true /\ flat_disk (store d (file_item f)).
Proof.
  intros Hf [Hrd Hflat]. split.
  - unfold accepts, file_item, item_target. cbn [fst snd].
    change (item_dirs ([fst f], EFile (snd f))) with [receiveDir].
    cbn [forallb]. rewrite Hrd. cbn [andb].
    rewrite <- target_path_plain by exact Hf.
    specialize (Hflat (fst f) Hf).
    destruct (d !! target_path (fst f)) as [[|?]|]; congruence.
  - rewrite store_file_item by exact Hf. split.
    + unfold no_file_at.
      rewrite lookup_insert_ne by (apply target_path_not_receiveDir, Hf).
      now rewrite lookup_insert_eq.
    + intros name Hn.
      destruct (decide (target_path (fst f) = target_path name)) as [->|Hne].
      * rewrite lookup_insert_eq. discriminate.
      * rewrite lookup_insert_ne by exact Hne.
        rewrite lookup_insert_ne
          by (intros H; symmetry in H; exact (target_path_not_receiveDir _ Hn H)).
        apply Hflat, Hn.
Qed.

Lemma last_sent_cons (f : string * list byte) (files : list (string * list byte))
    (name : string) :
  last_sent (f :: files) name
  = match last_sent files name with
    | Some c => Some c
    | None => if String.eqb (fst f) name then Some (snd f) else None
    end.
Proof.
  unfold last_sent. cbn [List.filter].
  destruct (String.eqb (fst f) name); [|now destruct (last _)].
  cbn [map]. generalize (map snd (List.filter (fun it => String.eqb (fst it) name) files)).
  intros l. destruct l as [|c l]; [reflexivity|].
  rewrite last_cons. now destruct (last (c :: l)).
Qed.

Lemma store_all_files (files : list (string * list byte)) :
  forall d : gmap string entry,
    Forall (fun f => file_ok f = true) files ->
    flat_disk d ->
    exists d' : gmap string entry,
      store_all d (map file_item files) = Some d'
      /\ (files <> [] -> d' !! receiveDir = Some EDir)
      /\ forall name : string, plain_name name = true ->
           d' !! target_path name
           = match last_sent files name with
             | Some c => Some (EFile c)
             | None => d !! target_path name
             end.
Proof.
  induction files as [|f files IH]; intros d Hok Hflat.
  - exists d. split; [reflexivity|]. split; [contradiction|reflexivity].
  - inversion Hok as [|? ? Hf Hok']; subst.
    assert (Hpl : plain_name (fst f) = true)
      by (unfold file_ok in Hf; rewrite !andb_true_iff in Hf; tauto).
    destruct (flat_disk_store d f Hpl Hflat) as [Hacc Hflat'].
    destruct (IH (store d (file_item f)) Hok' Hflat') as (d' & Hst & Hrd & Hlook).
    exists d'. cbn [map store_all]. rewrite Hacc. split; [exact Hst|]. split.
    + intros _. destruct files as [|f' files].
      * inversion Hst; subst. rewrite store_file_item by exact Hpl.
        rewrite lookup_insert_ne by (apply target_path_not_receiveDir, Hpl).
        apply lookup_insert_eq.
      * apply Hrd. discriminate.
    + intros name Hn. rewrite (Hlook name Hn), last_sent_cons.
      destruct (last_sent files name) as [c|]; [reflexivity|].
      rewrite store_file_item by exact Hpl.
      destruct (String.eqb_spec (fst f) name) as [->|Hne].
      * apply lookup_insert_eq.
      * rewrite lookup_insert_ne
          by (intros H; apply Hne; exact (target_path_inj _ _ Hpl Hn H)).
        apply lookup_insert_ne.
        intros H; symmetry in H; exact (target_path_not_receiveDir _ Hn H).
Qed.

Lemma flat_disk_empty : flat_disk ∅.
Proof. split; [reflexivity|]. intros name _. now rewrite lookup_empty. Qed.

Lemma wire_of_files_items (files : list (string * list byte)) :
  wire_of_files files = wire_of (map file_item files).
Proof.
  unfold wire_of_files, wire_of. rewrite map_map. reflexivity.
Qed.

Lemma files_received_on (elapsed : nat -> Z) (files : list (string * list byte))
    (g : Globals) (fuel : nat) :
  Forall (fun f => file_ok f = true) files ->
  (length (wire_of_files files) + length files < fuel)%nat ->
  exists st' : Receiver,
    receiveFileRaw elapsed fuel
      (mkReceiver (mkConn (wire_of_files files) EOF) ∅ g)
    = Some (None, st')
    /\ (files <> [] -> disk st' !! receiveDir = Some EDir)
    /\ forall name : string, plain_name name = true ->
         disk st' !! target_path name = EFile <$> last_sent files name.
Proof.
  intros Hok Hfuel.
  destruct (store_all_files files ∅ Hok flat_disk_empty) as (d' & Hst & Hrd & Hlook).
  rewrite wire_of_files_items in Hfuel |- *.
  destruct (receiveFileRaw_items elapsed EOF (map file_item files) ∅ d' g fuel)
    as (st' & Hrun & Hdisk & _).
  - apply Forall_map. eapply Forall_impl; [exact Hok|]. apply file_item_ok.
  - exact Hst.
  - now rewrite length_map.
  - exists st'. split; [exact Hrun|]. rewrite Hdisk. split; [exact Hrd|].
    intros name Hn. rewrite (Hlook name Hn), lookup_empty.
    now destruct (last_sent files name).
Qed.

(** X15. Files received on an empty disk: for files with names a directory
    entry can bear, free of NUL bytes and of 255 bytes at most, sent one
    after the other on a stream that then ends, [receiveFileRaw] returns
    [nil], the receive directory exists when a file was sent, and under each
    name a directory entry can bear the receive directory holds the content
    sent last under that name, and nothing when none was. *)
Theorem files_received (elapsed : nat -> Z) (files : list (string * list byte))
    (g : Globals) (fuel : nat) :
  Forall (fun f => file_ok f = true) files ->
  (length (wire_of_files files) + length files < fuel)%nat ->
  exists st' : Receiver,
    receiveFileRaw elapsed fuel
      (mkReceiver (mkConn (wire_of_files files) EOF) ∅ g)
    = Some (None, st')
    /\ (files <> [] -> disk st' !! receiveDir = Some EDir)
    /\ forall name : string, plain_name name = true ->
         disk st' !! target_path name = EFile <$> last_sent files name.
Proof.
  intros Hok Hfuel.
  exact (files_received_on elapsed files g fuel Hok Hfuel).
Qed.

(** The name [x] sent twice, and an empty file. *)
Lemma files_received_witness :
  exists st' : Receiver,
    receiveFileRaw (fun _ => 0) 100
      (mkReceiver
         (mkConn (wire_of_files [("x", [x41]); ("x", [x42]); ("y", [])]%string) EOF)
         ∅ sample_globals)
    = Some (None, st')
    /\ ([("x", [x41]); ("x", [x42]); ("y", [])]%string <> [] ->
        disk st' !! receiveDir = Some EDir)
    /\ forall name : string, plain_name name = true ->
         disk st' !! target_path name
         = EFile <$> last_sent [("x", [x41]); ("x", [x42]); ("y", [])]%string name.
Proof.
  apply (files_received (fun _ => 0)
           [("x", [x41]); ("x", [x42]); ("y", [])]%string sample_globals 100).
  - repeat constructor.
  - apply Nat.ltb_lt. vm_compute. reflexivity.
Defined.

(** ** From the sender to the receiver: files *)

Lemma wire_after_fits (c : WConn) (p : list byte) :
  (length p <= room c)%nat ->
  wire_after c p = mkWConn (sent c ++ p) (room c - length p) (werr c).
Proof. intros H. unfold wire_after. now rewrite take_ge. Qed.

Lemma sent_files_cons (Stat : string -> error + node) (p : string)
    (paths : list string) :
  sent_files Stat (p :: paths)
  = match Stat p with
    | inr (RegFile content) => (Base p, content) :: sent_files Stat paths
    | _ => sent_files Stat paths
    end.
Proof.
  reflexivity.
Qed.

Lemma sendItems_files (elapsed : nat -> Z) (cwd : string)
    (Stat : string -> error + node) (paths : list string) :
  forall st : Sender,
    Forall (fun p => regular Stat p = true) paths ->
    (length (wire_of_files (sent_files Stat paths)) <= room (out st))%nat ->
    exists st' : Sender,
      sendItems elapsed cwd Stat paths st = (None, st')
      /\ out st' = wire_after (out st) (wire_of_files (sent_files Stat paths)).
Proof.
  induction paths as [|p paths IH]; intros st Hreg Hroom.
  - exists st. split; [reflexivity|]. unfold wire_after. cbn.
    rewrite take_nil, app_nil_r, Nat.sub_0_r. now destruct (out st).
  - inversion Hreg as [|? ? Hp Hreg']; subst.
    unfold regular in Hp. cbn [sendItems]. unfold sendFileRaw_stat.
    assert (Hsf : exists content, Stat p = inr (RegFile content)
                  /\ sent_files Stat (p :: paths)
                     = (Base p, content) :: sent_files Stat paths).
    { rewrite sent_files_cons. revert Hp.
      destruct (Stat p) as [?|[content|?]]; intros Hp; try discriminate Hp.
      eauto. }
    destruct Hsf as (content & HS & Hsf). rewrite HS, Hsf in *.
    cbn [sendFileRaw].
    unfold wire_of_files in Hroom |- *. cbn [map concat fst snd] in Hroom |- *.
    fold (wire_of_files (sent_files Stat paths)) in Hroom |- *.
    rewrite !length_app, length_frame_bytes in Hroom. cbn [Filename] in Hroom.
    destruct (sendSingleFile_out elapsed st (Z.of_nat (length content)) content
                (Base p)) as [Ho Hf].
    cbv zeta in Ho, Hf.
    destruct (sendSingleFile elapsed st _ content (Base p)) as [err st1].
    cbn [fst snd] in Ho, Hf.
    destruct (Nat.leb_spec (String.length (Base p) + 13 + length content)
                           (room (out st))); [|lia].
    subst err.
    destruct (IH st1 Hreg') as (st' & Hrun & Hout).
    { rewrite Ho. unfold wire_after. cbn [room].
      rewrite length_app, length_frame_bytes. cbn [Filename]. lia. }
    exists st'. split; [exact Hrun|].
    rewrite Hout, Ho, wire_after_app, <- app_assoc. reflexivity.
Qed.

Lemma length_sent_files (Stat : string -> error + node) (paths : list string) :
  (length (sent_files Stat paths) <= length paths)%nat.
Proof.
  induction paths as [|p paths IH]; [reflexivity|].
  rewrite sent_files_cons.
  destruct (Stat p) as [?|[?|?]]; cbn [length]; lia.
Qed.

Lemma files_transfer (elapsed elapsed' : nat -> Z) (cwd : string)
    (Stat : string -> error + node) (paths : list string) (st : Sender)
    (g : Globals) (fuel : nat) :
  Forall (fun p => regular Stat p = true) paths ->
  Forall (fun f => file_ok f = true) (sent_files Stat paths) ->
  sent (out st) = [] ->
  (length (wire_of_files (sent_files Stat paths)) <= room (out st))%nat ->
  (length (wire_of_files (sent_files Stat paths)) + length paths < fuel)%nat ->
  exists (st' : Sender) (r' : Receiver),
    sendItems elapsed cwd Stat paths st = (None, st')
    /\ receiveFileRaw elapsed' fuel
         (mkReceiver (mkConn (sent (out st')) EOF) ∅ g)
       = Some (None, r')
    /\ forall name : string, plain_name name = true ->
         disk r' !! target_path name
         = EFile <$> last_sent (sent_files Stat paths) name.
Proof.
  intros Hreg Hok Hsent Hroom Hfuel.
  destruct (sendItems_files elapsed cwd Stat paths st Hreg Hroom)
    as (st' & Hrun & Hout).
  pose proof (length_sent_files Stat paths) as Hlen.
  destruct (files_received_on elapsed' (sent_files Stat paths) g fuel Hok)
    as (r' & Hrecv & _ & Hlook); [lia|].
  exists st', r'. split; [exact Hrun|]. split; [|exact Hlook].
  rewrite Hout, wire_after_fits by exact Hroom. cbn [sent].
  rewrite Hsent. exact Hrecv.
Qed.



(** X17. Files are sent under their base name only: of two files with the
    same base name, found in different directories and sent one after the
    other, the receive directory holds the second; the content of the first
    is overwritten. *)
Theorem same_base_name_overwrites (elapsed elapsed' : nat -> Z) (cwd : string)
    (Stat : string -> error + node) (p1 p2 : string) (c1 c2 : list byte)
    (st : Sender) (g : Globals) (fuel : nat) :
  let files := [(Base p1, c1); (Base p2, c2)] in
  Stat p1 = inr (RegFile c1) ->
  Stat p2 = inr (RegFile c2) ->
  Base p1 = Base p2 ->
  Forall (fun f => file_ok f = true) files ->
  sent (out st) = [] ->
  (length (wire_of_files files) <= room (out st))%nat ->
  (length (wire_of_files files) + 2 < fuel)%nat ->
  exists (st' : Sender) (r' : Receiver),
    sendItems elapsed cwd Stat [p1; p2] st = (None, st')
    /\ receiveFileRaw elapsed' fuel
         (mkReceiver (mkConn (sent (out st')) EOF) ∅ g)
       = Some (None, r')
    /\ disk r' !! target_path (Base p1) = Some (EFile c2).
Proof.
  intros files H1 H2 Hb Hok Hsent Hroom Hfuel.
  assert (Hf : sent_files Stat [p1; p2] = files)
    by (rewrite !sent_files_cons, H1, H2; reflexivity).
  destruct (files_transfer elapsed elapsed' cwd Stat [p1; p2] st g fuel)
    as (st' & r' & Hrun & Hrecv & Hlook); try (rewrite Hf; assumption).
  - repeat constructor; unfold regular; [now rewrite H1|now rewrite H2].
  - exact Hsent.
  - exists st', r'. split; [exact Hrun|]. split; [exact Hrecv|].
    rewrite Hlook, Hf.
    + unfold last_sent, files. cbn [List.filter fst snd].
      rewrite <- Hb, String.eqb_refl. reflexivity.
    + inversion Hok as [|? ? Hk _]; subst. unfold file_ok in Hk.
      rewrite !andb_true_iff in Hk. tauto.
Qed.

(** [a/x.txt] and [b/x.txt]. *)
Lemma same_base_name_overwrites_witness :
  exists (st' : Sender) (r' : Receiver),
    sendItems (fun _ => 0) "/home/u" sample_Stat ["a/x.txt"; "b/x.txt"]
      (sample_sender 1000)
    = (None, st')
    /\ receiveFileRaw (fun _ => 0) 100
         (mkReceiver (mkConn (sent (out st')) EOF) ∅ sample_globals)
       = Some (None, r')
    /\ disk r' !! target_path (Base "a/x.txt") = Some (EFile [x62; x63]).
Proof.
  apply (same_base_name_overwrites (fun _ => 0) (fun _ => 0) "/home/u"
           sample_Stat "a/x.txt" "b/x.txt" [x61] [x62; x63]
           (sample_sender 1000) sample_globals 100).
  - reflexivity.
  - reflexivity.
  - reflexivity.
  - repeat constructor.
  - reflexivity.
  - apply Nat.leb_le. vm_compute. reflexivity.
  - apply Nat.ltb_lt. vm_compute. reflexivity.
Defined.

(** ** Items that come after their directories *)

Lemma item_target_inj (it1 it2 : item) :
  Forall (fun e => plain_name e = true) (fst it1) ->
  Forall (fun e => plain_name e = true) (fst it2) ->
  item_target it1 = item_target it2 -> fst it1 = fst it2.
Proof.
  intros H1 H2 H. unfold item_target in H.
  apply join_path_inj in H; try discriminate;
    try (constructor; [reflexivity|assumption]).
  now inversion H.
Qed.

Lemma item_target_not_receiveDir (it : item) :
  fst it <> [] ->
  Forall (fun e => plain_name e = true) (fst it) ->
  item_target it <> receiveDir.
Proof.
  intros Hne Hpl H. unfold item_target in H.
  change receiveDir with (join_path [receiveDir]) in H at 2.
  apply join_path_inj in H; try discriminate;
    try (constructor; [reflexivity|assumption]); [|repeat constructor].
  inversion H. contradiction.
Qed.

Lemma item_dir_elems_prefix (it : item) :
  item_dir_elems it `prefix_of` fst it.
Proof.
  unfold item_dir_elems. destruct (snd it); [reflexivity|].
  destruct (fst it) as [|x xs _] using rev_ind; [reflexivity|].
  rewrite removelast_last. now exists [x].
Qed.

Lemma NoDup_fst_eq (seen : list item) (it1 it2 : item) :
  NoDup (map fst seen) -> it1 ∈ seen -> it2 ∈ seen -> fst it1 = fst it2 ->
  it1 = it2.
Proof.
  induction seen as [|a seen IH]; intros Hnd H1 H2 Hf; [inversion H1|].
  cbn [map] in Hnd. apply NoDup_cons in Hnd as [Hnin Hnd].
  apply elem_of_cons in H1 as [->|H1], H2 as [->|H2].
  - reflexivity.
  - contradiction Hnin. rewrite Hf. apply list_elem_of_fmap. eauto.
  - contradiction Hnin. rewrite <- Hf. apply list_elem_of_fmap. eauto.
  - apply IH; assumption.
Qed.

(** An item whose directories came before it, and whose name is new, finds
    nothing in its way; the disk then holds it as well. *)
Lemma holds_store (d : gmap string entry) (seen : list item) (it : item) :
  holds d seen ->
  NoDup (map fst (seen ++ [it])) ->
  Forall (fun i => fst i <> [] /\ Forall (fun e => plain_name e = true) (fst i))
         (seen ++ [it]) ->
  parents_in seen it ->
  accepts d it = true /\ holds (store d it) (seen ++ [it]).
Proof.
  intros Hd Hnd Hpl Hpar.
  apply Forall_app in Hpl as [Hseen Hit].
  inversion Hit as [|? ? [Hne Hes] _]; subst.
  assert (Hnew : forall it', it' ∈ seen -> fst it' <> fst it).
  { intros it' Hin Heq. rewrite map_app in Hnd. cbn [map] in Hnd.
    apply NoDup_app in Hnd as (_ & Hdis & _).
    apply (Hdis (fst it)); [rewrite <- Heq; apply list_elem_of_fmap; eauto|left]. }
  assert (Hnd' : NoDup (map fst seen))
    by (rewrite map_app in Hnd; apply NoDup_app in Hnd; tauto).
  assert (Hplain : forall it', it' ∈ seen ->
            fst it' <> [] /\ Forall (fun e => plain_name e = true) (fst it'))
    by (rewrite Forall_forall in Hseen; exact Hseen).
  (* what a directory made for the item is *)
  assert (Hdirs : forall p, p ∈ item_dirs it ->
            p = receiveDir
            \/ (exists it', it' ∈ seen /\ p = item_target it' /\ snd it' = EDir)
            \/ (p = item_target it /\ snd it = EDir)).
  { intros p Hp. apply item_dirs_elem in Hp as (pre & -> & Hpre); [|exact Hes].
    destruct pre as [|a pre]; [left; reflexivity|right].
    destruct (decide (a :: pre = fst it)) as [Heq|Hneq].
    - right. unfold item_target. rewrite Heq. split; [reflexivity|].
      unfold item_dir_elems in Hpre. destruct (snd it); [reflexivity|].
      exfalso. rewrite Heq in Hpre. destruct Hpre as [k Hk].
      apply (f_equal (@length string)) in Hk. rewrite length_app in Hk.
      destruct (fst it) as [|x xs _] using rev_ind; [contradiction|].
      rewrite removelast_last, length_app in Hk. cbn in Hk. lia.
    - left. exists (a :: pre, EDir). split; [|split; reflexivity].
      apply Hpar; [discriminate| |exact Hneq].
      etransitivity; [exact Hpre|apply item_dir_elems_prefix]. }
  assert (Htarget : forall it', it' ∈ seen -> item_target it' <> item_target it).
  { intros it' Hin Heq. apply (Hnew it' Hin).
    apply item_target_inj; [apply Hplain, Hin|exact Hes|exact Heq]. }
  assert (Hacc : accepts d it = true).
  { unfold accepts. apply andb_true_iff. split.
    - apply forallb_forall. intros p Hp. apply list_elem_of_In in Hp.
      unfold no_file_at. destruct (d !! p) as [[|w]|] eqn:E; try reflexivity.
      exfalso. apply Hd in E as [(_ & He & _)|(it1 & Hin1 & Hp1 & He1)];
        [discriminate|].
      destruct (Hdirs p Hp) as [->|[(it2 & Hin2 & Hp2 & He2)|[Hp2 _]]].
      + symmetry in Hp1. revert Hp1.
        apply item_target_not_receiveDir; apply Hplain, Hin1.
      + assert (it1 = it2); [|congruence].
        apply (NoDup_fst_eq seen); try assumption.
        apply item_target_inj; [apply Hplain, Hin1|apply Hplain, Hin2|congruence].
      + apply (Htarget it1 Hin1). congruence.
    - destruct (snd it); [reflexivity|].
      destruct (d !! item_target it) as [[|w]|] eqn:E; try reflexivity.
      exfalso. apply Hd in E as [(Hp & _)|(it1 & Hin1 & Hp1 & _)].
      + revert Hp. apply item_target_not_receiveDir; assumption.
      + apply (Htarget it1 Hin1). congruence. }
  split; [exact Hacc|].
  assert (Hrd : receiveDir ∈ item_dirs it) by (rewrite item_dirs_cons; left).
  assert (Hlook : forall p e,
            store d it !! p = Some e
            <-> (p = item_target it /\ e = snd it)
                \/ (p <> item_target it /\ (p ∈ item_dirs it) /\ e = EDir)
                \/ (p <> item_target it /\ (p ∉ item_dirs it)
                    /\ (d !! p = Some e))).
  { intros p e. unfold store.
    destruct (snd it) as [|c] eqn:Es.
    - rewrite ensure_dirs_lookup.
      destruct (decide (p ∈ item_dirs it)) as [Hin|Hnin].
      + rewrite bool_decide_eq_true_2 by exact Hin. split.
        * intros H. inversion H; subst.
          destruct (decide (p = item_target it)); [left|right; left]; auto.
        * intros [[_ ->]|[(_ & _ & ->)|(_ & Hn & _)]];
            [reflexivity|reflexivity|contradiction].
      + rewrite bool_decide_eq_false_2 by exact Hnin. split.
        * intros H. right; right. split; [|auto].
          intros ->. apply Hnin. apply item_dirs_elem; [exact Hes|].
          exists (fst it). split; [reflexivity|].
          unfold item_dir_elems. now rewrite Es.
        * intros [[-> _]|[(_ & Hn & _)|(_ & _ & H)]]; [|contradiction|exact H].
          exfalso. apply Hnin. apply item_dirs_elem; [exact Hes|].
          exists (fst it). split; [reflexivity|].
          unfold item_dir_elems. now rewrite Es.
    - destruct (decide (p = item_target it)) as [->|Hpt].
      + rewrite lookup_insert_eq. split.
        * intros H. inversion H. left. auto.
        * intros [[_ ->]|[(Hn & _)|(Hn & _)]]; [reflexivity|contradiction..].
      + rewrite lookup_insert_ne by congruence. rewrite ensure_dirs_lookup.
        destruct (decide (p ∈ item_dirs it)) as [Hin|Hnin].
        * rewrite bool_decide_eq_true_2 by exact Hin. split.
          -- intros H. inversion H. right; left. auto.
          -- intros [[Hp _]|[(_ & _ & ->)|(_ & Hn & _)]];
               [contradiction|reflexivity|contradiction].
        * rewrite bool_decide_eq_false_2 by exact Hnin. split.
          -- intros H. right; right. auto.
          -- intros [[Hp _]|[(_ & Hn & _)|(_ & _ & H)]];
               [contradiction|contradiction|exact H]. }
  intros p e. rewrite Hlook. split.
  - intros [[-> ->]|[(Hne' & Hin & ->)|(Hne' & Hnin & Hdp)]].
    + right. exists it. split; [apply elem_of_app; right; left|auto].
    + destruct (Hdirs p Hin) as [->|[(it2 & Hin2 & Hp2 & He2)|[Hp2 _]]].
      * left. split; [reflexivity|]. split; [reflexivity|].
        destruct seen; discriminate.
      * right. exists it2. split; [apply elem_of_app; left; exact Hin2|].
        split; [exact Hp2|now rewrite He2].
      * contradiction.
    + apply Hd in Hdp as [(-> & _)|(it1 & Hin1 & Hp1 & He1)];
        [contradiction|].
      right. exists it1. split; [apply elem_of_app; left; exact Hin1|auto].
  - intros [(-> & -> & _)|(it1 & Hin1 & -> & ->)].
    + right; left. split; [|auto]. intros H. symmetry in H. revert H.
      apply item_target_not_receiveDir; assumption.
    + apply elem_of_app in Hin1 as [Hin1|Hin1].
      * pose proof (Htarget it1 Hin1) as Hne1.
        destruct (decide (item_target it1 ∈ item_dirs it)) as [Hin|Hnin].
        -- right; left. split; [exact Hne1|]. split; [exact Hin|].
           destruct (Hdirs _ Hin) as [Hp|[(it2 & Hin2 & Hp2 & He2)|[Hp2 _]]].
           ++ exfalso. revert Hp.
              apply item_target_not_receiveDir; apply Hplain, Hin1.
           ++ assert (it1 = it2); [|congruence].
              apply (NoDup_fst_eq seen); try assumption.
              apply item_target_inj;
                [apply Hplain, Hin1|apply Hplain, Hin2|exact Hp2].
           ++ contradiction.
        -- right; right. split; [exact Hne1|]. split; [exact Hnin|].
           apply Hd. right. exists it1. auto.
      * apply list_elem_of_singleton in Hin1. subst it1. left. auto.
Qed.

Lemma store_all_parents_first (items : list item) :
  forall (seen : list item) (d : gmap string entry),
    holds d seen ->
    NoDup (map fst (seen ++ items)) ->
    Forall (fun i => fst i <> [] /\ Forall (fun e => plain_name e = true) (fst i))
           (seen ++ items) ->
    parents_first seen items ->
    exists d' : gmap string entry,
      store_all d items = Some d' /\ holds d' (seen ++ items).
Proof.
  induction items as [|it items IH]; intros seen d Hd Hnd Hpl Hpar.
  - exists d. rewrite app_nil_r. split; [reflexivity|exact Hd].
  - destruct Hpar as [Hit Hpar].
    replace (seen ++ it :: items) with ((seen ++ [it]) ++ items) in *
      by (rewrite <- app_assoc; reflexivity).
    destruct (holds_store d seen it Hd) as [Hacc Hd']; [| |exact Hit|].
    + rewrite map_app in Hnd. apply NoDup_app in Hnd. tauto.
    + apply Forall_app in Hpl. tauto.
    + cbn [store_all]. rewrite Hacc. apply IH; assumption.
Qed.

(** ** The items of a tree *)

Lemma parents_in_mono (seen seen' : list item) (it : item) :
  (forall i, i ∈ seen -> i ∈ seen') -> parents_in seen it -> parents_in seen' it.
Proof. intros Hsub H pre H1 H2 H3. apply Hsub, H; assumption. Qed.

Lemma parents_first_app (l1 l2 : list item) :
  forall seen : list item,
    parents_first seen l1 -> parents_first (seen ++ l1) l2 ->
    parents_first seen (l1 ++ l2).
Proof.
  induction l1 as [|it l1 IH]; intros seen H1 H2.
  - now rewrite app_nil_r in H2.
  - destruct H1 as [Hit H1]. split; [exact Hit|].
    apply IH; [exact H1|]. now rewrite <- app_assoc.
Qed.

Lemma prefix_snoc_proper {A : Type} (pre xs : list A) (x : A) :
  pre `prefix_of` xs ++ [x] -> pre <> xs ++ [x] -> pre `prefix_of` xs.
Proof.
  intros [k Hk] Hne. destruct k as [|y k _] using rev_ind.
  - rewrite app_nil_r in Hk. congruence.
  - rewrite app_assoc in Hk. apply app_inj_tail in Hk as [Hk _].
    exists k. exact Hk.
Qed.

Lemma tree_parents_first (b : string) :
  forall (info : node) (rel : list string) (seen : list item),
    (forall pre : list string,
        pre <> [] -> pre `prefix_of` b :: rel -> pre <> b :: rel ->
        (pre, EDir) ∈ seen) ->
    parents_first seen (items_of b rel info).
Proof.
  fix IH 1. intros [file|entries] rel seen Hseen.
  - cbn. split; [|exact I]. intros pre H1 H2 H3. now apply Hseen.
  - unfold items_of. cbn [descendants map fst snd entry_of parents_first].
    split; [intros pre H1 H2 H3; now apply Hseen|].
    match goal with |- parents_first ?s _ => set (seen' := s) end.
    assert (Hs : forall pre : list string,
               pre <> [] -> pre `prefix_of` b :: rel -> (pre, EDir) ∈ seen').
    { intros pre H1 H2. destruct (decide (pre = b :: rel)) as [->|Hne].
      - apply elem_of_app. right. left.
      - apply elem_of_app. left. now apply Hseen. }
    clearbody seen'. clear Hseen seen. rename seen' into seen.
    induction entries as [|[name child] entries IHe] in seen, Hs |- *;
      [exact I|].
    rewrite map_app. apply parents_first_app.
    + apply (IH child (rel ++ [name]) seen).
      intros pre H1 H2 H3. apply Hs; [exact H1|].
      change (b :: rel ++ [name]) with ((b :: rel) ++ [name]) in H2, H3.
      exact (prefix_snoc_proper _ _ _ H2 H3).
    + apply IHe. intros pre H1 H2. apply elem_of_app. left. now apply Hs.
Qed.

(** ** From the sender to the receiver: a directory *)

Lemma wire_of_cons (it : item) (items : list item) :
  wire_of (it :: items) = wire_of_item it ++ wire_of items.
Proof. reflexivity. Qed.

Lemma visit_all_wire (elapsed : nat -> Z) (cwd dirPath : string) :
  rooted cwd = true ->
  Abs cwd dirPath <> "/" ->
  forall (ds : list (list string * node)) (st : Sender),
    Forall (fun d => fst d <> [] /\ Forall (fun e => plain_name e = true) (fst d))
           ds ->
    (length (wire_of (map (fun d => (Base (Abs cwd dirPath) :: fst d,
                                     entry_of (snd d))) ds))
     <= room (out st))%nat ->
    exists st' : Sender,
      visit_all (walkFn elapsed cwd dirPath (Abs cwd dirPath))
                (map (located dirPath) ds) st = (None, st')
      /\ out st'
         = wire_after (out st)
             (wire_of (map (fun d => (Base (Abs cwd dirPath) :: fst d,
                                      entry_of (snd d))) ds)).
Proof.
  intros Hcwd Hroot ds. induction ds as [|[rel info] ds IH]; intros st Hds Hroom.
  - exists st. split; [reflexivity|]. unfold wire_after. cbn.
    rewrite take_nil, app_nil_r, Nat.sub_0_r. now destruct (out st).
  - inversion Hds as [|? ? [Hne Hrel] Hds']; subst. cbn [fst snd] in Hne, Hrel.
    cbn [map fst snd] in Hroom |- *. rewrite wire_of_cons in Hroom |- *.
    rewrite length_app in Hroom.
    cbn [visit_all located fst snd].
    rewrite walkFn_descendant by assumption.
    rewrite wire_name_explicit by assumption.
    set (b := Base (Abs cwd dirPath)) in *.
    destruct info as [file|entries]; cbn [entry_of] in *.
    + unfold wire_of_item in Hroom |- *. cbn [fst snd item_info] in Hroom |- *.
      rewrite length_app, length_frame_bytes in Hroom. cbn [Filename] in Hroom.
      destruct (sendSingleFile_out elapsed st (Z.of_nat (length file)) file
                  (join_path (b :: rel)))
        as [Ho Hf].
      cbv zeta in Ho, Hf.
      destruct (sendSingleFile elapsed st _ file (join_path (b :: rel)))
        as [err st1].
      cbn [fst snd] in Ho, Hf.
      destruct (Nat.leb_spec (String.length (join_path (b :: rel)) + 13
                              + length file) (room (out st))); [|lia].
      subst err.
      destruct (IH st1 Hds') as (st' & Hrun & Hout).
      { rewrite Ho. unfold wire_after. cbn [room].
        rewrite length_app, length_frame_bytes. cbn [Filename]. lia. }
      exists st'. split; [exact Hrun|].
      rewrite Hout, Ho, wire_after_app. reflexivity.
    + unfold wire_of_item in Hroom |- *. cbn [fst snd item_info] in Hroom |- *.
      rewrite app_nil_r in Hroom |- *.
      rewrite length_frame_bytes in Hroom. cbn [Filename] in Hroom.
      rewrite emit_wire. cbn [Filename].
      destruct (Nat.leb_spec (String.length (join_path (b :: rel)) + 13)
                             (room (out st))); [|lia].
      match goal with |- context [visit_all _ _ ?s] =>
        destruct (IH s Hds') as (st' & Hrun & Hout)
      end.
      { cbn [out]. unfold wire_after. cbn [room].
        rewrite length_frame_bytes. cbn [Filename]. lia. }
      exists st'. split; [exact Hrun|].
      rewrite Hout. cbn [out]. now rewrite wire_after_app.
Qed.

Lemma tree_items_below (b : string) (entries : list (string * node)) :
  exists ds : list (list string * node),
    descendants [] (Directory entries) = ([], Directory entries) :: ds
    /\ tree_items b entries
       = ([b], EDir) :: map (fun d => (b :: fst d, entry_of (snd d))) ds
    /\ Forall (fun d => fst d <> []) ds.
Proof.
  destruct (descendants_below (Directory entries) []) as (ds & Hds & Hrel).
  exists ds. split; [exact Hds|]. split.
  - unfold tree_items, items_of. rewrite Hds. reflexivity.
  - eapply Forall_impl; [exact Hrel|]. intros d (s & Hs & ->). exact Hs.
Qed.

Lemma sendDirectoryRaw_wire (elapsed : nat -> Z) (cwd : string) (st : Sender)
    (dirPath : string) (entries : list (string * node)) :
  rooted cwd = true ->
  Abs cwd dirPath <> "/" ->
  Base dirPath = Base (Abs cwd dirPath) ->
  Forall (fun it => Forall (fun e => plain_name e = true) (fst it))
         (tree_items (Base (Abs cwd dirPath)) entries) ->
  (length (wire_of (tree_items (Base (Abs cwd dirPath)) entries))
   <= room (out st))%nat ->
  exists st' : Sender,
    sendDirectoryRaw elapsed cwd st dirPath entries = (None, st')
    /\ out st'
       = wire_after (out st)
           (wire_of (tree_items (Base (Abs cwd dirPath)) entries)).
Proof.
  intros Hcwd Hroot Hbase Hplain Hroom.
  destruct (tree_items_below (Base (Abs cwd dirPath)) entries)
    as (ds & Hds & Hitems & Hne).
  rewrite Hitems in Hplain, Hroom |- *.
  rewrite wire_of_cons in Hroom |- *. rewrite length_app in Hroom.
  unfold wire_of_item in Hroom |- *. cbn [fst snd item_info join_path] in Hroom |- *.
  rewrite app_nil_r in Hroom |- *.
  rewrite length_frame_bytes in Hroom. cbn [Filename] in Hroom.
  unfold sendDirectoryRaw. rewrite emit_wire, Hbase. cbn [Filename].
  destruct (Nat.leb_spec (String.length (Base (Abs cwd dirPath)) + 13)
                         (room (out st))); [|lia].
  pose proof (walk_descendants (walkFn elapsed cwd dirPath (Abs cwd dirPath))
                dirPath (Directory entries) []) as Hw.
  change (walk_path dirPath []) with dirPath in Hw. rewrite Hw, Hds.
  cbn [map visit_all located fst snd].
  change (walk_path dirPath []) with dirPath.
  assert (Hskip : forall s, walkFn elapsed cwd dirPath (Abs cwd dirPath) dirPath
                                   (Directory entries) s = (None, s)).
  { intros s. unfold walkFn. now rewrite String.eqb_refl. }
  rewrite Hskip.
  match goal with |- context [visit_all _ _ ?s] =>
    destruct (visit_all_wire elapsed cwd dirPath Hcwd Hroot ds s)
      as (st' & Hrun & Hout)
  end.
  - inversion Hplain as [|? ? Hhd Hpl]; subst.
    rewrite Forall_forall in Hne. rewrite Forall_forall in Hpl.
    apply Forall_forall. intros d Hd. split; [apply Hne, Hd|].
    assert (Hin : (Base (Abs cwd dirPath) :: fst d, entry_of (snd d))
                  ∈ map (fun d => (Base (Abs cwd dirPath) :: fst d,
                                   entry_of (snd d))) ds)
      by (apply list_elem_of_fmap; eauto).
    specialize (Hpl _ Hin). cbn [fst] in Hpl. now inversion Hpl.
  - cbn [out]. unfold wire_after. cbn [room].
    rewrite length_frame_bytes. cbn [Filename]. lia.
  - exists st'. split; [exact Hrun|].
    rewrite Hout. cbn [out]. now rewrite wire_after_app.
Qed.

Lemma holds_empty : holds ∅ [].
Proof.
  intros p e. rewrite lookup_empty. split; [discriminate|].
  intros [(_ & _ & H)|(it & H & _)]; [contradiction|inversion H].
Qed.

Lemma Base_root_not_plain : plain_name (Base "/") = false.
Proof. reflexivity. Qed.

Lemma directory_transfer (elapsed elapsed' : nat -> Z) (cwd : string)
    (st : Sender) (dirPath : string) (entries : list (string * node))
    (g : Globals) (fuel : nat) :
  let b := Base (Abs cwd dirPath) in
  let items := tree_items b entries in
  rooted cwd = true ->
  Base dirPath = b ->
  Forall (fun it => item_ok it = true) items ->
  NoDup (map fst (descendants [] (Directory entries))) ->
  sent (out st) = [] ->
  (length (wire_of items) <= room (out st))%nat ->
  (length (wire_of items) + length items < fuel)%nat ->
  exists (st' : Sender) (r' : Receiver),
    sendDirectoryRaw elapsed cwd st dirPath entries = (None, st')
    /\ sent (out st') = wire_of items
    /\ receiveFileRaw elapsed' fuel
         (mkReceiver (mkConn (sent (out st')) EOF) ∅ g)
       = Some (None, r')
    /\ holds (disk r') items.
Proof.
  intros b items Hcwd Hbase Hok Hnd Hsent Hroom Hfuel.
  assert (Hpl : Forall (fun i => fst i <> []
                          /\ Forall (fun e => plain_name e = true) (fst i)) items).
  { eapply Forall_impl; [exact Hok|]. intros it Hit.
    apply item_ok_spec in Hit as (H1 & H2 & _). split; assumption. }
  assert (Hroot : Abs cwd dirPath <> "/").
  { intros H. destruct (tree_items_below b entries) as (ds & _ & Hitems & _).
    fold items in Hitems. rewrite Hitems in Hpl.
    inversion Hpl as [|? ? [Hb0 Hb] Htl]; subst. cbn [fst] in Hb.
    inversion Hb as [|? ? Hb' Hnil]; subst. unfold b in Hb'. rewrite H in Hb'.
    discriminate Hb'. }
  destruct (sendDirectoryRaw_wire elapsed cwd st dirPath entries Hcwd Hroot Hbase)
    as (st' & Hrun & Hout); [|exact Hroom|].
  { eapply Forall_impl; [exact Hpl|]. intros it [_ Hit]. exact Hit. }
  fold b in Hout. fold items in Hout.
  destruct (store_all_parents_first items [] ∅ holds_empty) as (d' & Hst & Hd').
  - cbn [app]. unfold items, tree_items, items_of. rewrite map_map. cbn [fst].
    rewrite <- (map_map fst (cons b)).
    apply NoDup_fmap_2; [|exact Hnd]. intros x y H. now inversion H.
  - exact Hpl.
  - apply tree_parents_first. intros pre H1 H2 H3. exfalso.
    destruct H2 as [k Hk]. destruct pre as [|a pre]; [contradiction|].
    destruct pre; [|destruct pre; discriminate Hk].
    inversion Hk; subst. contradiction.
  - destruct (receiveFileRaw_items elapsed' EOF items ∅ d' g fuel Hok Hst Hfuel)
      as (r' & Hrecv & Hdisk & _).
    exists st', r'. split; [exact Hrun|].
    assert (Hw : sent (out st') = wire_of items).
    { rewrite Hout, wire_after_fits by exact Hroom. cbn [sent].
      now rewrite Hsent. }
    split; [exact Hw|]. split; [rewrite Hw; exact Hrecv|].
    rewrite Hdisk. exact Hd'.
Qed.



(** ** A connection that breaks while a frame is read *)

Lemma ReadFull_error_broken (c : Conn) (k : nat) (got : list byte) (e : error)
    (c' : Conn) :
  is_EOF (closing c) = false ->
  ReadFull c k = (got, Some e, c') -> e = closing c.
Proof.
  intros Hcl H. apply ReadFull_error in H as (_ & _ & _ & ->).
  rewrite Hcl. now destruct (pending c).
Qed.

Lemma binary_Read_error_broken (c : Conn) (n : nat) (e : error) (c' : Conn) :
  is_EOF (closing c) = false ->
  binary_Read c n = (inl e, c') -> e = closing c.
Proof.
  intros Hcl. unfold binary_Read.
  destruct (ReadFull c n) as [[bs [e0|]] c0] eqn:E; intros H; inversion H; subst.
  exact (ReadFull_error_broken _ _ _ _ _ Hcl E).
Qed.

Lemma receiveFileInfo_error_broken (c : Conn) (e : error) (c' : Conn) :
  is_EOF (closing c) = false ->
  receiveFileInfo c = (inl e, c') ->
  e = closing c \/ exists n : Z, 255 < n /\ e = filename_too_long n.
Proof.
  intros Hcl. unfold receiveFileInfo.
  destruct (binary_Read c 4) as [[e1|len] c1] eqn:E1.
  { intros H; inversion H; subst. left.
    exact (binary_Read_error_broken _ _ _ _ Hcl E1). }
  assert (Hcl1 : closing c1 = closing c).
  { pose proof (binary_Read_closing c 4) as H. now rewrite E1 in H. }
  unfold maxFilenameLen. destruct (Z.ltb_spec 255 len).
  { intros H'; inversion H'; subst. right. eauto. }
  destruct (ReadFull c1 (Z.to_nat len)) as [[bs [e2|]] c2] eqn:E2.
  { intros H'; inversion H'; subst. left. rewrite <- Hcl1.
    apply (ReadFull_error_broken _ _ _ _ _ ltac:(now rewrite Hcl1) E2). }
  assert (Hcl2 : closing c2 = closing c).
  { pose proof (ReadFull_closing c1 (Z.to_nat len)) as H'. rewrite E2 in H'.
    cbn in H'. congruence. }
  destruct (binary_Read c2 8) as [[e3|u] c3] eqn:E3.
  { intros H'; inversion H'; subst. left. rewrite <- Hcl2.
    apply (binary_Read_error_broken _ _ _ _ ltac:(now rewrite Hcl2) E3). }
  assert (Hcl3 : closing c3 = closing c).
  { pose proof (binary_Read_closing c2 8) as H'. rewrite E3 in H'.
    cbn in H'. congruence. }
  destruct (ReadFull c3 1) as [[bs' [e4|]] c4] eqn:E4.
  { intros H'; inversion H'; subst. left. rewrite <- Hcl3.
    apply (ReadFull_error_broken _ _ _ _ _ ltac:(now rewrite Hcl3) E4). }
  intros H'; inversion H'.
Qed.

(** X19. A connection that breaks while a frame is read, with an error
    other than the end of the stream: [receiveFileInfo] fails with that very
    error, unless it rejected an oversize name before. [receiveFileRaw] then
    returns [nil] when the text of the error contains "reset" or "closed",
    also in the middle of a frame, and the error wrapped as "failed to
    receive file info" when the test of lines 395-397 does not take it for
    the end of the connection. *)
Theorem broken_connection_in_frame (elapsed : nat -> Z) (fuel : nat)
    (st : Receiver) (e : error) (c' : Conn) :
  is_EOF (closing (conn st)) = false ->
  receiveFileInfo (conn st) = (inl e, c') ->
  (e = closing (conn st) \/ exists n : Z, 255 < n /\ e = filename_too_long n)
  /\ (Contains (Error e) "reset" = true \/ Contains (Error e) "closed" = true ->
      receiveFileRaw elapsed (S fuel) st = Some (None, set_conn c' st))
  /\ (is_termination e = false ->
      receiveFileRaw elapsed (S fuel) st
      = Some (Some (Wrap "failed to receive file info" e), set_conn c' st)).
Proof.
  intros Hcl Hdec.
  rewrite (receiveFileRaw_decode_error elapsed fuel st e c' Hdec).
  split; [exact (receiveFileInfo_error_broken _ _ _ Hcl Hdec)|]. split.
  - intros H. replace (is_termination e) with true; [reflexivity|].
    unfold is_termination. destruct H as [-> | ->];
      now rewrite ?orb_true_r.
  - intros ->. reflexivity.
Qed.

(** A reset after two bytes of a length field. *)
Lemma broken_connection_in_frame_witness :
  (ErrMsg "read tcp 10.0.0.1:8000: connection reset by peer"
   = ErrMsg "read tcp 10.0.0.1:8000: connection reset by peer"
   \/ exists n : Z,
        255 < n
        /\ ErrMsg "read tcp 10.0.0.1:8000: connection reset by peer"
           = filename_too_long n)
  /\ (Contains "read tcp 10.0.0.1:8000: connection reset by peer" "reset" = true
      \/ Contains "read tcp 10.0.0.1:8000: connection reset by peer" "closed"
         = true ->
      receiveFileRaw (fun _ => 0) 1
        (mkReceiver
           (mkConn [x00; x00]
                   (ErrMsg "read tcp 10.0.0.1:8000: connection reset by peer"))
           sample_disk sample_globals)
      = Some (None,
              mkReceiver
                (mkConn []
                   (ErrMsg "read tcp 10.0.0.1:8000: connection reset by peer"))
                sample_disk sample_globals))
  /\ (is_termination (ErrMsg "read tcp 10.0.0.1:8000: connection reset by peer")
      = false ->
      receiveFileRaw (fun _ => 0) 1
        (mkReceiver
           (mkConn [x00; x00]
                   (ErrMsg "read tcp 10.0.0.1:8000: connection reset by peer"))
           sample_disk sample_globals)
      = Some (Some (Wrap "failed to receive file info"
                      (ErrMsg "read tcp 10.0.0.1:8000: connection reset by peer")),
              mkReceiver
                (mkConn []
                   (ErrMsg "read tcp 10.0.0.1:8000: connection reset by peer"))
                sample_disk sample_globals)).
Proof.
  exact (broken_connection_in_frame (fun _ => 0) 0
           (mkReceiver
              (mkConn [x00; x00]
                      (ErrMsg "read tcp 10.0.0.1:8000: connection reset by peer"))
              sample_disk sample_globals)
           (ErrMsg "read tcp 10.0.0.1:8000: connection reset by peer")
           (mkConn [] (ErrMsg "read tcp 10.0.0.1:8000: connection reset by peer"))
           eq_refl eq_refl).
Defined.

(** ** Neither the clock nor the tracker steers the transfer *)

Lemma same_sending_refl (r : option error * Sender) : same_sending r r.
Proof. repeat split. Qed.

Lemma sendSingleFile_agree (e1 e2 : nat -> Z) (s1 s2 : Sender) (size : Z)
    (file : list byte) (name : string) :
  out s1 = out s2 -> emitted s1 = emitted s2 ->
  same_sending (sendSingleFile e1 s1 size file name)
               (sendSingleFile e2 s2 size file name).
Proof.
  intros Ho He.
  destruct (sendSingleFile_out e1 s1 size file name) as [Ho1 Hf1].
  destruct (sendSingleFile_out e2 s2 size file name) as [Ho2 Hf2].
  cbv zeta in *.
  destruct (sendSingleFile e1 s1 size file name) as [r1 t1] eqn:E1.
  destruct (sendSingleFile e2 s2 size file name) as [r2 t2] eqn:E2.
  apply sendSingleFile_trace in E1 as [Hem1 _].
  apply sendSingleFile_trace in E2 as [Hem2 _].
  cbn [fst snd] in *. rewrite Ho in Ho1, Hf1. rewrite He in Hem1.
  unfold same_sending. cbn [fst snd]. repeat split; congruence.
Qed.

Lemma emit_agree (fi : FileInfo) (s1 s2 : Sender) :
  out s1 = out s2 -> emitted s1 = emitted s2 ->
  same_sending (emit fi s1) (emit fi s2).
Proof.
  intros Ho He. rewrite !emit_wire, Ho, He. repeat split.
Qed.

Lemma walkFn_agree (e1 e2 : nat -> Z) (cwd dirPath absDirPath path : string)
    (info : node) (s1 s2 : Sender) :
  out s1 = out s2 -> emitted s1 = emitted s2 ->
  same_sending (walkFn e1 cwd dirPath absDirPath path info s1)
               (walkFn e2 cwd dirPath absDirPath path info s2).
Proof.
  intros Ho He. unfold walkFn.
  destruct (String.eqb path dirPath); [repeat split; assumption|].
  destruct (Rel absDirPath (Abs cwd path)) as [err|relPath];
    [repeat split; assumption|].
  destruct info as [file|entries].
  - pose proof (sendSingleFile_agree e1 e2 s1 s2 (Z.of_nat (length file)) file
                  (ToSlash (Join [Base absDirPath; relPath])) Ho He) as H.
    destruct (sendSingleFile e1 s1 _ file _) as [[err1|] t1],
             (sendSingleFile e2 s2 _ file _) as [[err2|] t2];
      destruct H as (Hf & Ho' & He'); cbn [fst snd] in *;
      try discriminate; unfold same_sending; cbn [fst snd];
      repeat split; congruence.
  - pose proof (emit_agree (mkFileInfo (ToSlash (Join [Base absDirPath; relPath]))
                              0 true) s1 s2 Ho He) as H.
    destruct (emit _ s1) as [[err1|] t1], (emit _ s2) as [[err2|] t2];
      destruct H as (Hf & Ho' & He'); cbn [fst snd] in *;
      try discriminate; unfold same_sending; cbn [fst snd];
      repeat split; congruence.
Qed.

Lemma visit_all_agree (f1 f2 : string -> node -> Sender -> option error * Sender) :
  (forall path info s1 s2, out s1 = out s2 -> emitted s1 = emitted s2 ->
     same_sending (f1 path info s1) (f2 path info s2)) ->
  forall (visits : list (string * node)) (s1 s2 : Sender),
    out s1 = out s2 -> emitted s1 = emitted s2 ->
    same_sending (visit_all f1 visits s1) (visit_all f2 visits s2).
Proof.
  intros Hf visits. induction visits as [|[path info] visits IH];
    intros s1 s2 Ho He; [repeat split; assumption|].
  cbn [visit_all]. pose proof (Hf path info s1 s2 Ho He) as H.
  destruct (f1 path info s1) as [[err1|] t1], (f2 path info s2) as [[err2|] t2];
    destruct H as (Hr & Ho' & He'); cbn [fst snd] in *; try discriminate.
  - repeat split; assumption.
  - apply IH; assumption.
Qed.

Lemma sendFileRaw_agree (e1 e2 : nat -> Z) (cwd filePath : string) (info : node)
    (s1 s2 : Sender) :
  out s1 = out s2 -> emitted s1 = emitted s2 ->
  same_sending (sendFileRaw e1 cwd s1 filePath info)
               (sendFileRaw e2 cwd s2 filePath info).
Proof.
  intros Ho He. destruct info as [file|entries]; cbn [sendFileRaw].
  - apply sendSingleFile_agree; assumption.
  - unfold sendDirectoryRaw.
    pose proof (emit_agree (mkFileInfo (Base filePath) 0 true) s1 s2 Ho He) as H.
    destruct (emit _ s1) as [[err1|] t1], (emit _ s2) as [[err2|] t2];
      destruct H as (Hf & Ho' & He'); cbn [fst snd] in *; try discriminate.
    + unfold same_sending; cbn [fst snd]; repeat split; congruence.
    + pose proof (walk_descendants (walkFn e1 cwd filePath (Abs cwd filePath))
                    filePath (Directory entries) [] t1) as H1.
      pose proof (walk_descendants (walkFn e2 cwd filePath (Abs cwd filePath))
                    filePath (Directory entries) [] t2) as H2.
      change (walk_path filePath []) with filePath in H1, H2.
      rewrite H1, H2. apply visit_all_agree; [|assumption..].
      intros. apply walkFn_agree; assumption.
Qed.

Lemma sendItems_agree (e1 e2 : nat -> Z) (cwd : string)
    (Stat : string -> error + node) (items : list string) :
  forall s1 s2 : Sender,
    out s1 = out s2 -> emitted s1 = emitted s2 ->
    same_sending (sendItems e1 cwd Stat items s1) (sendItems e2 cwd Stat items s2).
Proof.
  induction items as [|p items IH]; intros s1 s2 Ho He;
    [repeat split; assumption|].
  cbn [sendItems]. unfold sendFileRaw_stat.
  destruct (Stat p) as [e|info]; [repeat split; assumption|].
  pose proof (sendFileRaw_agree e1 e2 cwd p info s1 s2 Ho He) as H.
  destruct (sendFileRaw e1 cwd s1 p info) as [[err1|] t1],
           (sendFileRaw e2 cwd s2 p info) as [[err2|] t2];
    destruct H as (Hf & Ho' & He'); cbn [fst snd] in *; try discriminate.
  - unfold same_sending; cbn [fst snd]; repeat split; congruence.
  - apply IH; assumption.
Qed.

(** X20. Neither the clock nor the state of the progress tracker steers a
    transfer. Two runs of [receiveFileRaw] on the same stream and disk return
    the same, leave the same stream and the same disk; two runs of
    [sendFilesRaw] on the same connection return the same error, put the
    same bytes on the wire and send the same descriptors. *)
Theorem progress_does_not_steer (e1 e2 : nat -> Z) :
  (forall (fuel : nat) (s1 s2 : Receiver),
      conn s1 = conn s2 -> disk s1 = disk s2 ->
      same_transfer (receiveFileRaw e1 fuel s1) (receiveFileRaw e2 fuel s2))
  /\ (forall (cwd : string) (Glob : string -> error + list string)
             (Stat : string -> error + node) (filePatterns : list string)
             (s1 s2 : Sender),
        out s1 = out s2 -> emitted s1 = emitted s2 ->
        same_sending (sendFilesRaw e1 cwd Glob Stat s1 filePatterns)
                     (sendFilesRaw e2 cwd Glob Stat s2 filePatterns)).
Proof.
  split.
  - intros fuel s1 s2. apply receiveFileRaw_same_transfer.
  - intros cwd Glob Stat filePatterns s1 s2 Ho He. unfold sendFilesRaw.
    destruct (collectItems Glob [] filePatterns) as [err|items];
      [repeat split; assumption|].
    destruct (length (uniqueItems ∅ items) =? 0)%nat;
      [repeat split; assumption|].
    apply sendItems_agree; assumption.
Qed.

(** ** ProgressWriter.Write *)

Lemma printProgress_unknown_total (ms : Z) (pw : ProgressWriter) :
  total pw <= 0 ->
  current (printProgress ms pw) = current pw
  /\ total (printProgress ms pw) = total pw.
Proof.
  intros Ht. unfold printProgress.
  destruct (_ && _); [split; reflexivity|].
  destruct (Z.ltb_spec 0 (total pw)); [lia|]. split; reflexivity.
Qed.

(** X21. [ProgressWriter.Write] with no known total counts every byte: after
    any writes in a row [current] has grown by the number of bytes written,
    as long as that fits 63 bits; and every call returns the length of its
    buffer and no error. *)
Theorem Write_counts_all (clock : nat -> Z) (ps : list (list byte)) :
  forall (k : nat) (pw : ProgressWriter),
    total pw <= 0 ->
    0 <= current pw ->
    current pw + Z.of_nat (length (concat ps)) < 2 ^ 63 ->
    current (write_all clock k pw ps)
    = current pw + Z.of_nat (length (concat ps))
    /\ forall (ms : Z) (pw' : ProgressWriter) (p : list byte),
         fst (ProgressWriter_Write ms pw' p) = (Z.of_nat (length p), None).
Proof.
  intros k pw Ht Hc Hsum. split; [|reflexivity].
  revert k pw Ht Hc Hsum.
  induction ps as [|p ps IH]; intros k pw Ht Hc Hsum.
  - cbn. lia.
  - cbn [concat] in Hsum. rewrite length_app in Hsum.
    cbn [write_all concat]. rewrite length_app.
    unfold ProgressWriter_Write at 1. cbn [snd].
    set (pw1 := set_current pw (to_int64 (current pw + Z.of_nat (length p)))).
    assert (Hpw1 : current pw1 = current pw + Z.of_nat (length p)).
    { unfold pw1. cbn [set_current current]. apply to_int64_id.
      unfold int64_range. lia. }
    destruct (printProgress_unknown_total (clock k) pw1 Ht) as [Hcur Htot].
    rewrite IH; [rewrite Hcur, Hpw1; lia|rewrite Htot; exact Ht
                |rewrite Hcur, Hpw1; lia|rewrite Hcur, Hpw1; lia].
Qed.

(** Two writes, of one byte and of two. *)
Lemma Write_counts_all_witness :
  current (write_all (fun _ => 1) 0 (NewProgressWriter 0 "f") [[x41]; [x42; x43]])
  = current (NewProgressWriter 0 "f")
    + Z.of_nat (length (concat [[x41]; [x42; x43]]))
  /\ forall (ms : Z) (pw' : ProgressWriter) (p : list byte),
       fst (ProgressWriter_Write ms pw' p) = (Z.of_nat (length p), None).
Proof.
  apply (Write_counts_all (fun _ => 1) [[x41]; [x42; x43]] 0
           (NewProgressWriter 0 "f")); cbn; lia.
Defined.

(** ** A name that is taken by the other kind *)

Lemma target_implicit (name : string) :
  plain_name name = true -> implicit_dir (target_path name) = false.
Proof.
  intros H. rewrite target_path_plain by exact H.
  apply implicit_dir_received. repeat constructor. exact H.
Qed.

Lemma os_MkdirAll_there (d : gmap string entry) :
  d !! receiveDir = Some EDir -> os_MkdirAll d receiveDir = (None, d).
Proof.
  intros H. rewrite os_MkdirAll_receiveDir by (unfold no_file_at; now rewrite H).
  now rewrite insert_id.
Qed.

(** X22. A name taken by the other kind is refused, the disk staying as it
    is: a directory descriptor for a name at which the receive directory
    holds a file makes [receiveFileRaw] return "cannot create directory:
    mkdir <path>: not a directory"; a file descriptor for a name at which it
    holds a directory makes it return "cannot create file: open <path>: is a
    directory". *)
Theorem name_taken_by_other_kind (elapsed : nat -> Z) (fuel : nat)
    (name : string) (rest : list byte) (cl : error) (d : gmap string entry)
    (g : Globals) :
  plain_name name = true ->
  (String.length name <= 255)%nat ->
  d !! receiveDir = Some EDir ->
  (forall w : list byte,
      d !! target_path name = Some (EFile w) ->
      receiveFileRaw elapsed (S fuel)
        (mkReceiver (mkConn (frame_bytes (mkFileInfo name 0 true) ++ rest) cl) d g)
      = Some (Some (Wrap "cannot create directory"
                      (ErrMsg ("mkdir " +:+ target_path name
                               +:+ ": not a directory"))),
              mkReceiver (mkConn rest cl) d g))
  /\ (forall size : Z,
        int64_range size ->
        d !! target_path name = Some EDir ->
        receiveFileRaw elapsed (S fuel)
          (mkReceiver (mkConn (frame_bytes (mkFileInfo name size false) ++ rest) cl)
                      d g)
        = Some (Some (Wrap "cannot create file"
                        (ErrMsg ("open " +:+ target_path name
                                 +:+ ": is a directory"))),
                mkReceiver (mkConn rest cl) d g)).
Proof.
  intros Hpl Hlen Hrd.
  assert (Hanc : ancestors (target_path name) = [receiveDir; target_path name]).
  { rewrite target_path_plain by exact Hpl.
    rewrite ancestors_join
      by (discriminate || (repeat constructor; try reflexivity; exact Hpl)).
    reflexivity. }
  assert (Hsrd : stat d receiveDir = Some EDir) by exact Hrd.
  split.
  - intros w Hw. cbn [receiveFileRaw]. unfold receiveItem. state_simpl.
    rewrite receiveFileInfo_frame by (assumption || (unfold int64_range; cbn; lia)).
    cbn [IsDirectory Filename]. state_simpl.
    rewrite os_MkdirAll_there by exact Hrd. state_simpl.
    change (Join [receiveDir; FromSlash name]) with (target_path name).
    unfold os_MkdirAll. rewrite Hanc. cbn [mkdir_chain]. rewrite Hsrd.
    unfold stat. rewrite target_implicit by exact Hpl. rewrite Hw. reflexivity.
  - intros size Hsize Hdir. cbn [receiveFileRaw]. unfold receiveItem. state_simpl.
    rewrite receiveFileInfo_frame by assumption.
    cbn [IsDirectory Filename]. state_simpl.
    rewrite os_MkdirAll_there by exact Hrd. state_simpl.
    change (Join [receiveDir; FromSlash name]) with (target_path name).
    assert (Hparent : Dir (target_path name) = receiveDir).
    { rewrite target_path_plain by exact Hpl.
      change [receiveDir; name] with ([receiveDir] ++ [name]).
      now rewrite Dir_join
        by (discriminate || assumption || (repeat constructor)). }
    rewrite Hparent. rewrite String.eqb_refl. cbn [negb]. rewrite andb_false_r.
    state_simpl.
    unfold os_Create, stat. rewrite target_implicit by exact Hpl.
    rewrite Hdir. reflexivity.
Qed.

(** A directory descriptor for [x], which is a file. *)
Lemma name_taken_by_other_kind_witness :
  receiveFileRaw (fun _ => 0) 1
    (mkReceiver (mkConn (frame_bytes (mkFileInfo "x" 0 true) ++ []) EOF)
                sample_disk sample_globals)
  = Some (Some (Wrap "cannot create directory"
                  (ErrMsg ("mkdir " +:+ target_path "x" +:+ ": not a directory"))),
          mkReceiver (mkConn [] EOF) sample_disk sample_globals).
Proof.
  apply (proj1 (name_taken_by_other_kind (fun _ => 0) 0 "x" [] EOF sample_disk
                  sample_globals eq_refl ltac:(cbn; lia) eq_refl) [x41]).
  reflexivity.
Defined.

(** ** A name with a NUL byte *)

(** X27. A name with a NUL byte is refused by the system, whatever the kind
    of the item: in a receive directory that exists, or that can be made, a
    directory descriptor for such a name (otherwise one a directory entry
    can bear) makes [receiveFileRaw] return "cannot create directory: mkdir
    <path>: invalid argument", and a file descriptor makes it return "cannot
    create file: open <path>: invalid argument"; the receive directory is
    there afterwards, nothing is stored, and no byte after the frame is
    taken from the stream. *)
Theorem name_with_nul_refused (elapsed : nat -> Z) (fuel : nat)
    (name : string) (rest : list byte) (cl : error) (d : gmap string entry)
    (g : Globals) :
  plain_name name = true ->
  has_nul name = true ->
  (String.length name <= 255)%nat ->
  no_file_at d receiveDir = true ->
  d !! target_path name = None ->
  receiveFileRaw elapsed (S fuel)
    (mkReceiver (mkConn (frame_bytes (mkFileInfo name 0 true) ++ rest) cl) d g)
  = Some (Some (Wrap "cannot create directory"
                  (ErrMsg ("mkdir " +:+ target_path name
                           +:+ ": invalid argument"))),
          mkReceiver (mkConn rest cl) (<[receiveDir := EDir]> d) g)
  /\ (forall size : Z,
        int64_range size ->
        receiveFileRaw elapsed (S fuel)
          (mkReceiver (mkConn (frame_bytes (mkFileInfo name size false) ++ rest) cl)
                      d g)
        = Some (Some (Wrap "cannot create file"
                        (ErrMsg ("open " +:+ target_path name
                                 +:+ ": invalid argument"))),
                mkReceiver (mkConn rest cl) (<[receiveDir := EDir]> d) g)).
Proof.
  intros Hpl Hnul Hlen Hrd Hnone.
  assert (Hanc : ancestors (target_path name) = [receiveDir; target_path name]).
  { rewrite target_path_plain by exact Hpl.
    rewrite ancestors_join
      by (discriminate || (repeat constructor; try reflexivity; exact Hpl)).
    reflexivity. }
  assert (Htn : has_nul (target_path name) = true).
  { rewrite target_path_plain by exact Hpl.
    rewrite join_path_cons by discriminate.
    rewrite has_nul_app. cbn [has_nul join_path]. rewrite Hnul.
    apply orb_true_r. }
  assert (Hne : receiveDir <> target_path name).
  { intros Heq. rewrite <- Heq in Htn. discriminate Htn. }
  assert (Hlook : <[receiveDir := EDir]> d !! target_path name = None)
    by (rewrite lookup_insert_ne by exact Hne; exact Hnone).
  split.
  - cbn [receiveFileRaw]. unfold receiveItem. state_simpl.
    rewrite receiveFileInfo_frame by (assumption || (unfold int64_range; cbn; lia)).
    cbn [IsDirectory Filename]. state_simpl.
    rewrite os_MkdirAll_receiveDir by exact Hrd. state_simpl.
    change (Join [receiveDir; FromSlash name]) with (target_path name).
    unfold os_MkdirAll. rewrite Hanc. cbn [mkdir_chain].
    replace (stat (<[receiveDir := EDir]> d) receiveDir) with (Some EDir)
      by (unfold stat; cbn [implicit_dir]; now rewrite lookup_insert_eq).
    unfold stat. rewrite target_implicit by exact Hpl.
    rewrite Hlook, Htn. reflexivity.
  - intros size Hsize. cbn [receiveFileRaw]. unfold receiveItem. state_simpl.
    rewrite receiveFileInfo_frame by assumption.
    cbn [IsDirectory Filename]. state_simpl.
    rewrite os_MkdirAll_receiveDir by exact Hrd. state_simpl.
    change (Join [receiveDir; FromSlash name]) with (target_path name).
    assert (Hparent : Dir (target_path name) = receiveDir).
    { rewrite target_path_plain by exact Hpl.
      change [receiveDir; name] with ([receiveDir] ++ [name]).
      now rewrite Dir_join
        by (discriminate || assumption || (repeat constructor)). }
    rewrite Hparent. rewrite String.eqb_refl. cbn [negb]. rewrite andb_false_r.
    state_simpl.
    unfold os_Create, stat. rewrite target_implicit by exact Hpl.
    rewrite Hlook, Htn. reflexivity.
Qed.

(** The name [a], NUL, [b] on an empty disk: a directory, and a file of two
    bytes. *)
Lemma name_with_nul_refused_witness :
  receiveFileRaw (fun _ => 0) 1
    (mkReceiver (mkConn (frame_bytes (mkFileInfo nul_name 0 true) ++ []) EOF)
                ∅ sample_globals)
  = Some (Some (Wrap "cannot create directory"
                  (ErrMsg ("mkdir " +:+ target_path nul_name
                           +:+ ": invalid argument"))),
          mkReceiver (mkConn [] EOF) (<[receiveDir := EDir]> ∅) sample_globals)
  /\ receiveFileRaw (fun _ => 0) 1
       (mkReceiver
          (mkConn (frame_bytes (mkFileInfo nul_name 2 false) ++ [x41; x42]) EOF)
          ∅ sample_globals)
     = Some (Some (Wrap "cannot create file"
                     (ErrMsg ("open " +:+ target_path nul_name
                              +:+ ": invalid argument"))),
             mkReceiver (mkConn [x41; x42] EOF) (<[receiveDir := EDir]> ∅)
                        sample_globals).
Proof.
  split.
  - apply (proj1 (name_with_nul_refused (fun _ => 0) 0 nul_name [] EOF ∅
                    sample_globals eq_refl eq_refl ltac:(cbn; lia)
                    eq_refl eq_refl)).
  - apply (proj2 (name_with_nul_refused (fun _ => 0) 0 nul_name [x41; x42] EOF ∅
                    sample_globals eq_refl eq_refl ltac:(cbn; lia)
                    eq_refl eq_refl) 2).
    unfold int64_range. lia.
Defined.

(** ** The standard input, from the sender to the receiver *)

(** X23. From end to end, the standard input: data that is not empty, sent
    by [sendStdinRaw] on a new connection that takes all the bytes, arrives
    in the receive directory as the file [data.bin] with the same bytes. *)
Theorem stdin_arrives (elapsed elapsed' : nat -> Z) (st : Sender)
    (data : list byte) (g : Globals) (fuel : nat) :
  data <> [] ->
  Z.of_nat (length data) < 2 ^ 63 ->
  sent (out st) = [] ->
  (21 + length data <= room (out st))%nat ->
  (23 + length data < fuel)%nat ->
  exists (st' : Sender) (r' : Receiver),
    sendStdinRaw elapsed st data = (None, st')
    /\ receiveFileRaw elapsed' fuel
         (mkReceiver (mkConn (sent (out st')) EOF) ∅ g)
       = Some (None, r')
    /\ disk r' !! "received/data.bin"%string = Some (EFile data).
Proof.
  intros Hne Hsize Hsent Hroom Hfuel.
  assert (Hrun : sendStdinRaw elapsed st data
                 = sendSingleFile elapsed st (Z.of_nat (length data)) data
                     "data.bin")
    by (destruct data; [contradiction|reflexivity]).
  destruct (sendSingleFile_out elapsed st (Z.of_nat (length data)) data
              "data.bin") as [Ho Hf].
  cbv zeta in Ho, Hf. rewrite <- Hrun in Ho, Hf.
  destruct (sendStdinRaw elapsed st data) as [err st'].
  cbn [fst snd] in Ho, Hf.
  change (String.length "data.bin") with 8%nat in Hf.
  destruct (Nat.leb_spec (8 + 13 + length data) (room (out st))); [|lia].
  subst err.
  destruct (files_received_on elapsed' [("data.bin"%string, data)] g fuel)
    as (r' & Hrecv & _ & Hlook).
  - repeat constructor. unfold file_ok. cbn [fst snd].
    apply andb_true_iff. split; [reflexivity|]. apply Z.ltb_lt, Hsize.
  - unfold wire_of_files. cbn [map concat fst snd length].
    rewrite app_nil_r, length_app, length_frame_bytes. cbn. lia.
  - exists st', r'. split; [reflexivity|]. split.
    + rewrite Ho, wire_after_fits
        by (rewrite length_app, length_frame_bytes; cbn; lia).
      cbn [sent]. rewrite Hsent. cbn [app].
      unfold wire_of_files in Hrecv. cbn [map concat fst snd] in Hrecv.
      rewrite app_nil_r in Hrecv. exact Hrecv.
    + exact (Hlook "data.bin"%string eq_refl).
Qed.

(** Two bytes from the standard input. *)
Lemma stdin_arrives_witness :
  exists (st' : Sender) (r' : Receiver),
    sendStdinRaw (fun _ => 0) (sample_sender 100) [x68; x69] = (None, st')
    /\ receiveFileRaw (fun _ => 0) 100
         (mkReceiver (mkConn (sent (out st')) EOF) ∅ sample_globals)
       = Some (None, r')
    /\ disk r' !! "received/data.bin"%string = Some (EFile [x68; x69]).
Proof.
  apply (stdin_arrives (fun _ => 0) (fun _ => 0) (sample_sender 100) [x68; x69]
           sample_globals 100).
  - discriminate.
  - cbn. lia.
  - reflexivity.
  - cbn. lia.
  - cbn. lia.
Defined.

(** ** Patterns that are not valid *)

Lemma collectItems_invalid (Glob : string -> error + list string)
    (before : list string) (pattern : string) (after : list string) (err : error) :
  Forall (fun q => has_wildcard q = true -> exists m, Glob q = inr m) before ->
  has_wildcard pattern = true ->
  Glob pattern = inl err ->
  forall acc : list string,
    collectItems Glob acc (before ++ pattern :: after)
    = inl (Wrap ("invalid pattern " +:+ pattern) err).
Proof.
  intros Hb Hw Hg. induction Hb as [|q before Hq _ IH]; intros acc.
  - cbn [app collectItems]. now rewrite Hw, Hg.
  - cbn [app collectItems]. destruct (has_wildcard q); [|apply IH].
    destruct (Hq eq_refl) as [m ->]. apply IH.
Qed.

(** X24. A pattern [filepath.Glob] rejects makes [sendFilesRaw] fail with
    "invalid pattern <pattern>" before anything is sent, also when the
    patterns before it are valid: all the patterns are expanded before the
    first item is sent. *)
Theorem invalid_pattern_sends_nothing (elapsed : nat -> Z) (cwd : string)
    (Glob : string -> error + list string) (Stat : string -> error + node)
    (st : Sender) (before : list string) (pattern : string)
    (after : list string) (err : error) :
  Forall (fun q => has_wildcard q = true -> exists m, Glob q = inr m) before ->
  has_wildcard pattern = true ->
  Glob pattern = inl err ->
  sendFilesRaw elapsed cwd Glob Stat st (before ++ pattern :: after)
  = (Some (Wrap ("invalid pattern " +:+ pattern) err), st).
Proof.
  intros Hb Hw Hg. unfold sendFilesRaw.
  now rewrite (collectItems_invalid Glob before pattern after err Hb Hw Hg).
Qed.

(** A pattern with an open bracket, between two paths. *)
Lemma invalid_pattern_sends_nothing_witness :
  sendFilesRaw (fun _ => 0) "/home/u"
    (fun p => if String.eqb p "[" then inl (ErrMsg "syntax error in pattern")
              else inr [])
    sample_Stat (sample_sender 100) (["a/x.txt"] ++ "[" :: ["b/x.txt"])
  = (Some (Wrap ("invalid pattern " +:+ "[") (ErrMsg "syntax error in pattern")),
     sample_sender 100).
Proof.
  apply (invalid_pattern_sends_nothing (fun _ => 0) "/home/u"
           (fun p => if String.eqb p "[" then inl (ErrMsg "syntax error in pattern")
                     else inr [])
           sample_Stat (sample_sender 100) ["a/x.txt"] "[" ["b/x.txt"]
           (ErrMsg "syntax error in pattern")).
  - repeat constructor. intros H. discriminate H.
  - reflexivity.
  - reflexivity.
Defined.

(** ** A directory on a connection that breaks *)







(** ** A directory sent again *)

Lemma ensure_dirs_there (dirs : list string) (d : gmap string entry) :
  Forall (fun p => d !! p = Some EDir) dirs -> ensure_dirs d dirs = d.
Proof.
  induction 1 as [|p dirs Hp _ IH]; [reflexivity|].
  cbn [ensure_dirs fold_left]. rewrite insert_id by exact Hp. exact IH.
Qed.

Lemma holds_store_again (d : gmap string entry) (seen : list item) (it : item) :
  holds d seen ->
  Forall (fun i => fst i <> [] /\ Forall (fun e => plain_name e = true) (fst i))
         seen ->
  it ∈ seen ->
  parents_in seen it ->
  accepts d it = true /\ store d it = d.
Proof.
  intros Hd Hpl Hin Hpar.
  rewrite Forall_forall in Hpl. destruct (Hpl it Hin) as [Hne Hes].
  assert (Hit : d !! item_target it = Some (snd it))
    by (apply Hd; right; eauto).
  assert (Hdirs : Forall (fun p => d !! p = Some EDir) (item_dirs it)).
  { apply Forall_forall. intros p Hp.
    apply item_dirs_elem in Hp as (pre & -> & Hpre); [|exact Hes].
    destruct pre as [|a pre].
    - apply Hd. left. split; [reflexivity|]. split; [reflexivity|].
      intros ->. inversion Hin.
    - destruct (decide (a :: pre = fst it)) as [Heq|Hneq].
      + change (join_path (receiveDir :: a :: pre))
          with (item_target (a :: pre, snd it)).
        unfold item_target. cbn [fst]. rewrite Heq.
        fold (item_target it). rewrite Hit. f_equal.
        unfold item_dir_elems in Hpre. destruct (snd it); [reflexivity|].
        exfalso. rewrite Heq in Hpre. destruct Hpre as [k Hk].
        apply (f_equal (@length string)) in Hk. rewrite length_app in Hk.
        destruct (fst it) as [|x xs _] using rev_ind; [contradiction|].
        rewrite removelast_last, length_app in Hk. cbn in Hk. lia.
      + apply Hd. right. exists (a :: pre, EDir).
        split; [|split; reflexivity].
        apply Hpar; [discriminate| |exact Hneq].
        etransitivity; [exact Hpre|apply item_dir_elems_prefix]. }
  split.
  - unfold accepts. apply andb_true_iff. split.
    + apply forallb_forall. intros p Hp. apply list_elem_of_In in Hp.
      rewrite Forall_forall in Hdirs. unfold no_file_at.
      now rewrite (Hdirs p Hp).
    + rewrite Hit. now destruct (snd it).
  - unfold store. rewrite ensure_dirs_there by exact Hdirs.
    destruct (snd it) as [|c] eqn:Es; [reflexivity|].
    apply insert_id. exact Hit.
Qed.

Lemma parents_first_all (items : list item) :
  forall seen : list item,
    parents_first seen items ->
    Forall (parents_in (seen ++ items)) items.
Proof.
  induction items as [|it items IH]; intros seen H; [constructor|].
  destruct H as [Hit H]. constructor.
  - eapply parents_in_mono; [|exact Hit]. intros i Hi.
    apply elem_of_app. now left.
  - specialize (IH _ H). rewrite <- app_assoc in IH. exact IH.
Qed.

Lemma store_all_again (d : gmap string entry) (seen : list item) :
  holds d seen ->
  Forall (fun i => fst i <> [] /\ Forall (fun e => plain_name e = true) (fst i))
         seen ->
  forall items : list item,
    Forall (fun it => it ∈ seen /\ parents_in seen it) items ->
    store_all d items = Some d.
Proof.
  intros Hd Hpl items. induction 1 as [|it items [Hin Hpar] _ IH]; [reflexivity|].
  destruct (holds_store_again d seen it Hd Hpl Hin Hpar) as [Hacc Hst].
  cbn [store_all]. now rewrite Hacc, Hst.
Qed.

(** X26. A directory sent again: when a directory has arrived, as in X18,
    and the same bytes are received once more on the disk the first transfer
    left, [receiveFileRaw] returns [nil] again and the disk is the same as
    before. *)
Theorem directory_sent_again (elapsed elapsed' : nat -> Z) (cwd : string)
    (st : Sender) (dirPath : string) (entries : list (string * node))
    (g : Globals) (fuel : nat) :
  let b := Base (Abs cwd dirPath) in
  let items := tree_items b entries in
  rooted cwd = true ->
  Base dirPath = b ->
  Forall (fun it => item_ok it = true) items ->
  NoDup (map fst (descendants [] (Directory entries))) ->
  sent (out st) = [] ->
  (length (wire_of items) <= room (out st))%nat ->
  (length (wire_of items) + length items < fuel)%nat ->
  exists (st' : Sender) (r1 r2 : Receiver),
    sendDirectoryRaw elapsed cwd st dirPath entries = (None, st')
    /\ receiveFileRaw elapsed' fuel
         (mkReceiver (mkConn (sent (out st')) EOF) ∅ g)
       = Some (None, r1)
    /\ receiveFileRaw elapsed' fuel
         (mkReceiver (mkConn (sent (out st')) EOF) (disk r1) (rglobals r1))
       = Some (None, r2)
    /\ disk r2 = disk r1.
Proof.
  intros b items Hcwd Hbase Hok Hnd Hsent Hroom Hfuel.
  destruct (directory_transfer elapsed elapsed' cwd st dirPath entries g fuel
              Hcwd Hbase Hok Hnd Hsent Hroom Hfuel)
    as (st' & r1 & Hrun & Hw & Hrecv & Hd).
  fold b in Hw, Hd. fold items in Hw, Hd.
  assert (Hpl : Forall (fun i => fst i <> []
                          /\ Forall (fun e => plain_name e = true) (fst i)) items).
  { eapply Forall_impl; [exact Hok|]. intros it Hit.
    apply item_ok_spec in Hit as (H1 & H2 & _). split; assumption. }
  assert (Hagain : store_all (disk r1) items = Some (disk r1)).
  { apply (store_all_again (disk r1) items Hd Hpl).
    assert (Hpf : parents_first [] items).
    { apply tree_parents_first. intros pre H1 H2 H3. exfalso.
      destruct H2 as [k Hk]. destruct pre as [|a pre]; [contradiction|].
      destruct pre; [|destruct pre; discriminate Hk].
      inversion Hk; subst. contradiction. }
    apply parents_first_all in Hpf. cbn [app] in Hpf.
    apply Forall_forall. intros it Hit. split; [exact Hit|].
    rewrite Forall_forall in Hpf. exact (Hpf it Hit). }
  destruct (receiveFileRaw_items elapsed' EOF items (disk r1) (disk r1)
              (rglobals r1) fuel Hok Hagain Hfuel)
    as (r2 & Hrecv2 & Hdisk2 & _).
  exists st', r1, r2. split; [exact Hrun|]. split; [exact Hrecv|].
  split; [rewrite Hw; exact Hrecv2|exact Hdisk2].
Qed.

(** The directory [oc/] sent twice. *)
Lemma directory_sent_again_witness :
  exists (st' : Sender) (r1 r2 : Receiver),
    sendDirectoryRaw (fun _ => 0) "/home/u" (sample_sender 1000) "oc/" sample_tree
    = (None, st')
    /\ receiveFileRaw (fun _ => 0) 200
         (mkReceiver (mkConn (sent (out st')) EOF) ∅ sample_globals)
       = Some (None, r1)
    /\ receiveFileRaw (fun _ => 0) 200
         (mkReceiver (mkConn (sent (out st')) EOF) (disk r1) (rglobals r1))
       = Some (None, r2)
    /\ disk r2 = disk r1.
Proof.
  apply (directory_sent_again (fun _ => 0) (fun _ => 0) "/home/u"
           (sample_sender 1000) "oc/" sample_tree sample_globals 200).
  - reflexivity.
  - vm_compute. reflexivity.
  - apply Forall_forall. intros it Hit. apply list_elem_of_In in Hit.
    revert it Hit. apply forallb_forall. vm_compute. reflexivity.
  - refine (bool_decide_unpack _ _). vm_compute. exact I.
  - reflexivity.
  - apply Nat.leb_le. vm_compute. reflexivity.
  - apply Nat.ltb_lt. vm_compute. reflexivity.
Defined.
